(** * KernelLinearOperator: a lazily evaluated kernel matrix

    A shallow embedding of
    [linear_operator/operators/kernel_linear_operator.py].

    Tensors are contiguous row-major arrays: a shape and the flat list of
    their elements.  Python dictionaries whose iteration order is observable
    (the keyword parameters) are association lists.  Exceptions are an
    error type, and the memoised accessors run in a small state monad over
    the per-instance cache. *)

From Stdlib Require Import String.
From Stdlib Require Import List Arith ZArith Lia Bool Permutation.
Import ListNotations.

Set Implicit Arguments.

(** ** Shapes and multi-indices *)

Definition shape_t := list nat.

(** [prod s]: the number of elements of a tensor of shape [s]. *)
Definition prod (s : shape_t) : nat := fold_right Nat.mul 1 s.

(** [indices s]: every multi-index of shape [s], in row-major order. *)
Fixpoint indices (s : shape_t) : list (list nat) :=
  match s with
  | [] => [[]]
  | n :: s' => flat_map (fun i => map (cons i) (indices s')) (seq 0 n)
  end.

(** [offset s idx]: the row-major position of [idx] in a tensor of shape [s]. *)
Fixpoint offset (s : shape_t) (idx : list nat) : nat :=
  match s, idx with
  | _ :: s', i :: idx' => i * prod s' + offset s' idx'
  | _, _ => 0
  end.

(** [in_range s idx]: [idx] addresses an element of a tensor of shape [s]. *)
Definition in_range (s : shape_t) (idx : list nat) : Prop :=
  Forall2 lt idx s.

(** Python's [s[:-2]] and [s[-2:]] on a shape. *)
Definition batch_shape (s : shape_t) : shape_t := firstn (length s - 2) s.
Definition nonbatch_shape (s : shape_t) : shape_t := skipn (length s - 2) s.

(** Python's [s[-1]] and [s[-2]]; [None] stands for the IndexError. *)
Definition dim_last (s : shape_t) : option nat :=
  match length s with
  | 0 => None
  | S k => nth_error s k
  end.

Definition dim_count (s : shape_t) : option nat :=
  match length s with
  | S (S k) => nth_error s k
  | _ => None
  end.

(** ** Errors

    [exn] models instances of Python's [Exception] class, which is what
    every handler of the source names.  A RuntimeError and a TypeError carry
    the content of their message. *)

Inductive index : Type :=
| ISlice (start stop step : option Z)
| IInt (i : Z)
| IEllipsis
| ITensor (l : list Z).

Inductive runtime_msg : Type :=
| IncompatibleDataShapes (x1_shape x2_shape : shape_t)
| IncompatibleParamShapes (param_shapes : list shape_t)
                          (x1_shape x2_shape : shape_t)
| TensorIndexNonBatch (batch_indices : list index)
| ShapeMismatch
| CovarFailure (what : string).

Inductive type_msg : Type :=
| JoinExpectedStr
| UnsupportedOperand
| NoSlicesWithSteps (cls : string)
| InvalidSlice (cls : string).

Inductive exn : Type :=
| RuntimeError (m : runtime_msg)
| TypeError (m : type_msg)
| IndexError
| ValueError
| KeyError
| AttributeError
| AssertionError
| ZeroDivisionError.

(** The error monad of the pure part of the code. *)
Definition bindE (A B : Type) (m : exn + A) (k : A -> exn + B) : exn + B :=
  match m with
  | inl e => inl e
  | inr a => k a
  end.

Notation "x <- m ;; k" := (bindE m (fun x => k))
  (at level 61, m at next level, right associativity).

Fixpoint mapE (A B : Type) (f : A -> exn + B) (l : list A) : exn + list B :=
  match l with
  | [] => inr []
  | a :: l' => b <- f a ;; r <- mapE f l' ;; inr (b :: r)
  end.

(** Dictionary lookup, [d[name]]. *)
Fixpoint lookup (A : Type) (name : string) (d : list (string * A)) : exn + A :=
  match d with
  | [] => inl KeyError
  | (n, v) :: d' => if String.eqb name n then inr v else lookup name d'
  end.

(** ** Broadcasting: [torch.broadcast_shapes]

    Shapes are matched from their last dimension; the accumulated result
    starts as all ones. *)

Fixpoint broadcast_rev (result s : list nat) : option (list nat) :=
  match result, s with
  | [], _ => Some s
  | _, [] => Some result
  | x :: result', y :: s' =>
      match broadcast_rev result' s' with
      | None => None
      | Some r =>
          if (y =? 1) || (y =? x) then Some (x :: r)
          else if x =? 1 then Some (y :: r)
          else None
      end
  end.

Definition broadcast2 (a b : shape_t) : option shape_t :=
  option_map (@rev nat) (broadcast_rev (rev a) (rev b)).

Definition broadcast_step (acc : option shape_t) (s : shape_t)
  : option shape_t :=
  match acc with
  | None => None
  | Some r => broadcast2 r s
  end.

Definition broadcast_shapes (shapes : list shape_t) : option shape_t :=
  fold_left broadcast_step shapes (Some []).

(** [expandable s target]: [Tensor.expand] accepts [target] for a tensor of
    shape [s]. *)
Fixpoint expandable_rev (s target : list nat) : bool :=
  match s, target with
  | [], _ => true
  | _ :: _, [] => false
  | x :: s', y :: target' => ((x =? y) || (x =? 1)) && expandable_rev s' target'
  end.

Definition expandable (s target : shape_t) : bool :=
  expandable_rev (rev s) (rev target).

(** [align s idx]: the element of a tensor of shape [s] that an expanded
    view shows at [idx]. *)
Fixpoint align_rev (s idx : list nat) : list nat :=
  match s, idx with
  | x :: s', i :: idx' => (if x =? 1 then 0 else i) :: align_rev s' idx'
  | _, _ => []
  end.

Definition align (s : shape_t) (idx : list nat) : list nat :=
  rev (align_rev (rev s) (rev idx)).

(** ** Basic indexing *)

Definition _noop_index : index := ISlice None None None.

Definition is_slice (i : index) : bool :=
  match i with
  | ISlice _ _ _ => true
  | _ => false
  end.

Definition is_tensor_index (i : index) : bool :=
  match i with
  | ITensor _ => true
  | _ => false
  end.

Definition is_ellipsis (i : index) : bool :=
  match i with
  | IEllipsis => true
  | _ => false
  end.

(** A non-negative integer index. *)
Definition nat_index (k : nat) : index := IInt (Z.of_nat k).

(** Indices that are neither an Ellipsis nor an index tensor. *)
Definition plain (idxs : list index) : Prop :=
  Forall (fun i => is_ellipsis i = false /\ is_tensor_index i = false) idxs.

(** What an index selects along one dimension. *)
Inductive sel : Type :=
| Pick (i : nat)
| Span (start step len : nat).

(** [slice.indices(n)] for a positive step. *)
Definition slice_indices (start stop step : option Z) (n : nat) : exn + sel :=
  let st := match step with Some v => v | None => 1%Z end in
  if (st <=? 0)%Z then inl ValueError
  else
    let zn := Z.of_nat n in
    let clamp v := if (v <? 0)%Z then Z.max (v + zn) 0 else Z.min v zn in
    let lo := match start with Some v => clamp v | None => 0%Z end in
    let hi := match stop with Some v => clamp v | None => zn end in
    let len := if (hi <=? lo)%Z then 0%Z else ((hi - lo + st - 1) / st)%Z in
    inr (Span (Z.to_nat lo) (Z.to_nat st) (Z.to_nat len)).

Fixpoint resolve (idxs : list index) (s : shape_t) : exn + list sel :=
  match idxs, s with
  | [], _ => inr (map (fun n => Span 0 1 n) s)
  | _ :: _, [] => inl IndexError
  | ISlice a b c :: idxs', n :: s' =>
      sl <- slice_indices a b c n ;;
      r <- resolve idxs' s' ;;
      inr (sl :: r)
  | IInt z :: idxs', n :: s' =>
      if ((- Z.of_nat n <=? z) && (z <? Z.of_nat n))%Z
      then r <- resolve idxs' s' ;;
           inr (Pick (Z.to_nat (z mod Z.of_nat n)) :: r)
      else inl IndexError
  | _ :: _, _ :: _ => inl IndexError
  end.

Fixpoint sel_shape (sels : list sel) : shape_t :=
  match sels with
  | [] => []
  | Pick _ :: r => sel_shape r
  | Span _ _ len :: r => len :: sel_shape r
  end.

Fixpoint sel_src (sels : list sel) (ridx : list nat) : list nat :=
  match sels with
  | [] => []
  | Pick i :: r => i :: sel_src r ridx
  | Span a st _ :: r =>
      match ridx with
      | j :: ridx' => (a + st * j) :: sel_src r ridx'
      | [] => a :: sel_src r []
      end
  end.

(** An Ellipsis stands for as many full slices as the rank leaves room for. *)
Definition expand_ellipsis (idxs : list index) (rank : nat) : exn + list index :=
  match count_occ (fun a b : bool => Bool.bool_dec a b)
                  (map is_ellipsis idxs) true with
  | 0 => inr idxs
  | 1 =>
      inr (flat_map (fun i => if is_ellipsis i
                              then repeat _noop_index (S rank - length idxs)
                              else [i]) idxs)
  | _ => inl IndexError
  end.

Section Tensors.

Variable V : Type.
Variable dflt : V.

(** ** Tensors *)

Record tensor : Type := Tensor { shape : shape_t; data : list V }.

Definition wf (t : tensor) : Prop := length (data t) = prod (shape t).

Definition tabulate (s : shape_t) (f : list nat -> V) : list V :=
  map f (indices s).

(** [build s f]: the tensor of shape [s] whose element at [idx] is [f idx]. *)
Definition build (s : shape_t) (f : list nat -> V) : tensor :=
  Tensor s (tabulate s f).

(** [get t idx]: element lookup; well-formed reads never see [dflt]. *)
Definition get (t : tensor) (idx : list nat) : V :=
  nth (offset (shape t) idx) (data t) dflt.

(** [x[idxs]] for integers, slices and an Ellipsis. *)
Definition basic_getitem (t : tensor) (idxs : list index) : exn + tensor :=
  idxs' <- expand_ellipsis idxs (length (shape t)) ;;
  if length (shape t) <? length idxs' then inl IndexError
  else
    sels <- resolve idxs' (shape t) ;;
    inr (build (sel_shape sels) (fun ridx => get t (sel_src sels ridx))).

(** ** Tensor methods *)

(** [Tensor.expand] to the sizes [target]; the result is contiguous. *)
Definition expand (t : tensor) (target : shape_t) : exn + tensor :=
  if expandable (shape t) target
  then inr (build target (fun idx => get t (align (shape t) idx)))
  else inl (RuntimeError ShapeMismatch).

(** A dimension argument, counted from the end when negative. *)
Definition norm_dim (dim : Z) (rank : nat) : exn + nat :=
  if ((- Z.of_nat rank <=? dim) && (dim <? Z.of_nat rank))%Z
  then inr (Z.to_nat (if (dim <? 0)%Z then dim + Z.of_nat rank else dim))
  else inl IndexError.

(** [Tensor.unsqueeze(dim)]: a row-major array keeps its elements. *)
Definition unsqueeze (t : tensor) (dim : Z) : exn + tensor :=
  p <- norm_dim dim (S (length (shape t))) ;;
  inr (Tensor (firstn p (shape t) ++ 1 :: skipn p (shape t)) (data t)).

Definition swap (A : Type) (d : A) (i j : nat) (l : list A) : list A :=
  map (fun k => nth (if k =? i then j else if k =? j then i else k) l d)
      (seq 0 (length l)).

(** [Tensor.transpose(dim0, dim1)]. *)
Definition transpose (t : tensor) (dim0 dim1 : Z) : exn + tensor :=
  p0 <- norm_dim dim0 (length (shape t)) ;;
  p1 <- norm_dim dim1 (length (shape t)) ;;
  inr (build (swap 0 p0 p1 (shape t))
             (fun idx => get t (swap 0 p0 p1 idx))).

Fixpoint index_of (p : nat) (l : list nat) : nat :=
  match l with
  | [] => 0
  | q :: l' => if p =? q then 0 else S (index_of p l')
  end.

Definition is_permutation (dims : list nat) (rank : nat) : bool :=
  (length dims =? rank) &&
  forallb (fun p => existsb (Nat.eqb p) dims) (seq 0 rank).

(** [Tensor.permute] with the dimensions [dims]. *)
Definition permute (t : tensor) (dims : list Z) : exn + tensor :=
  ps <- mapE (fun d => norm_dim d (length (shape t))) dims ;;
  if is_permutation ps (length (shape t))
  then inr (build (map (fun p => nth p (shape t) 0) ps)
                  (fun idx => get t (map (fun p => nth (index_of p ps) idx 0)
                                         (seq 0 (length (shape t))))))
  else inl (RuntimeError ShapeMismatch).

Definition shape_eqb (a b : shape_t) : bool :=
  if list_eq_dec Nat.eq_dec a b then true else false.

End Tensors.

(** ** Collaborators

    What the class takes from outside this file: the element type of
    tensors, the opaque values of non-tensor parameters, the other
    LinearOperator classes a covariance function may return (with their
    dense conversion, their [_getitem] and their class name), and torch's
    indexing by index tensors. *)

Class Env : Type := {
  V : Type;
  dflt : V;
  Opaque : Type;
  LinOp : Type;
  linop_to_dense : LinOp -> tensor V;
  linop_getitem : LinOp -> index -> index -> list index -> exn + LinOp;
  linop_class_name : LinOp -> string;
  advanced_getitem : tensor V -> list index -> exn + tensor V
}.

Section Operator.

Context {E : Env}.

(** [x[idxs]] on a torch tensor; more indices than dimensions are an
    IndexError whatever the indices are. *)
Definition tensor_getitem (t : tensor V) (idxs : list index)
  : exn + tensor V :=
  if length (shape t) <? length (filter (fun i => negb (is_ellipsis i)) idxs)
  then inl IndexError
  else if existsb is_tensor_index idxs then advanced_getitem t idxs
  else basic_getitem dflt t idxs.

(** A keyword parameter: a tensor or anything else. *)
Inductive param : Type :=
| PTensor (t : tensor V)
| POpaque (o : Opaque).

(** What a covariance function returns. *)
Inductive covar_out : Type :=
| OutTensor (t : tensor V)
| OutLinOp (l : LinOp).

Definition covar_fn : Type :=
  tensor V -> tensor V -> list (string * tensor V) ->
  list (string * Opaque) -> exn + covar_out.

(** Modelled from the spec: the dense-conversion utility [to_dense], which
    turns a possibly lazy result of the covariance function into a concrete
    array. *)
Definition to_dense (o : covar_out) : tensor V :=
  match o with
  | OutTensor t => t
  | OutLinOp l => linop_to_dense l
  end.

Definition class_name (o : covar_out) : string :=
  match o with
  | OutTensor _ => "Tensor"
  | OutLinOp l => linop_class_name l
  end.

(** [num_outputs_per_input: Union[int, Tuple[int, int]]]. *)
Inductive outputs_arg : Type :=
| OInt (n : Z)
| OPair (rows cols : Z).

Record KernelLinearOperator : Type := {
  batch_broadcast_shape : shape_t;
  x1 : tensor V;
  x2 : tensor V;
  tensor_params : list (string * tensor V);
  nontensor_params : list (string * Opaque);
  covar_func : covar_fn;
  num_outputs_per_input : Z * Z;
  param_batch_shapes : list (string * shape_t);
  param_nonbatch_shapes : list (string * shape_t)
}.

(** The tensor-valued and the other keyword parameters, in order. *)
Fixpoint split_tensor_params (params : list (string * param))
  : list (string * tensor V) :=
  match params with
  | [] => []
  | (name, PTensor t) :: r => (name, t) :: split_tensor_params r
  | (_, POpaque _) :: r => split_tensor_params r
  end.

Fixpoint split_nontensor_params (params : list (string * param))
  : list (string * Opaque) :=
  match params with
  | [] => []
  | (_, PTensor _) :: r => split_nontensor_params r
  | (name, POpaque o) :: r => (name, o) :: split_nontensor_params r
  end.

(** [__init__].  The initialiser of the base class, which records its
    arguments, is outside this file. *)
Definition construct (x1 x2 : tensor V) (covar_func : covar_fn)
    (num_outputs_per_input : outputs_arg) (params : list (string * param))
  : exn + KernelLinearOperator :=
  let tensor_params := split_tensor_params params in
  let nontensor_params := split_nontensor_params params in
  let param_batch_shapes :=
    map (fun nv => (fst nv, batch_shape (shape (snd nv)))) tensor_params in
  let param_nonbatch_shapes :=
    map (fun nv => (fst nv, nonbatch_shape (shape (snd nv)))) tensor_params in
  match broadcast_shapes (batch_shape (shape x1) :: batch_shape (shape x2)
                          :: map snd param_batch_shapes) with
  | None =>
      match dim_last (shape x1), dim_last (shape x2) with
      | Some d1, Some d2 =>
          let x1_nodata_shape := batch_shape (shape x1) ++ [1; d1] in
          let x2_nodata_shape := batch_shape (shape x2) ++ [1; d2] in
          match broadcast_shapes [x1_nodata_shape; x2_nodata_shape] with
          | None =>
              inl (RuntimeError
                     (IncompatibleDataShapes (shape x1) (shape x2)))
          | Some _ =>
              inl (RuntimeError
                     (IncompatibleParamShapes
                        (map (fun nv => shape (snd nv)) tensor_params)
                        (shape x1) (shape x2)))
          end
      | _, _ => inl IndexError
      end
  | Some batch_broadcast_shape =>
      x1 <- expand dflt x1 (batch_broadcast_shape
                            ++ nonbatch_shape (shape x1)) ;;
      x2 <- expand dflt x2 (batch_broadcast_shape
                            ++ nonbatch_shape (shape x2)) ;;
      tensor_params <-
        mapE (fun nv =>
                nb <- lookup (fst nv) param_nonbatch_shapes ;;
                v <- expand dflt (snd nv) (batch_broadcast_shape ++ nb) ;;
                inr (fst nv, v)) tensor_params ;;
      let new_param_batch_shapes :=
        map (fun ns => (fst ns, batch_broadcast_shape)) param_batch_shapes in
      let num_outputs_per_input :=
        match num_outputs_per_input with
        | OInt n => (n, n)
        | OPair r c => (r, c)
        end in
      inr {| batch_broadcast_shape := batch_broadcast_shape;
             x1 := x1;
             x2 := x2;
             tensor_params := tensor_params;
             nontensor_params := nontensor_params;
             covar_func := covar_func;
             num_outputs_per_input := num_outputs_per_input;
             param_batch_shapes := new_param_batch_shapes;
             param_nonbatch_shapes := param_nonbatch_shapes |}
  end.

(** Deriving an instance passes the stored parameters back as keywords. *)
Definition keywords (tensor_params : list (string * tensor V))
    (nontensor_params : list (string * Opaque)) : list (string * param) :=
  map (fun nv => (fst nv, PTensor (snd nv))) tensor_params
  ++ map (fun nv => (fst nv, POpaque (snd nv))) nontensor_params.

Definition derive (self : KernelLinearOperator) (x1 x2 : tensor V)
    (tensor_params : list (string * tensor V))
  : exn + KernelLinearOperator :=
  construct x1 x2 (covar_func self)
            (OPair (fst (num_outputs_per_input self))
                   (snd (num_outputs_per_input self)))
            (keywords tensor_params (nontensor_params self)).

(** [_size]. *)
Definition _size (self : KernelLinearOperator) : exn + list Z :=
  let '(num_outs_per_in_rows, num_outs_per_in_cols) :=
    num_outputs_per_input self in
  match dim_count (shape (x1 self)), dim_count (shape (x2 self)) with
  | Some m, Some n =>
      inr (map Z.of_nat (batch_broadcast_shape self)
           ++ [(Z.of_nat m * num_outs_per_in_rows)%Z;
               (Z.of_nat n * num_outs_per_in_cols)%Z])
  | _, _ => inl IndexError
  end.

(** [_transpose_nonbatch]. *)
Definition _transpose_nonbatch (self : KernelLinearOperator)
  : exn + KernelLinearOperator :=
  derive self (x2 self) (x1 self) (tensor_params self).

(** [_unsqueeze_batch]. *)
Definition _unsqueeze_batch (self : KernelLinearOperator) (dim : Z)
  : exn + KernelLinearOperator :=
  x1 <- unsqueeze (x1 self) dim ;;
  x2 <- unsqueeze (x2 self) dim ;;
  tensor_params <-
    mapE (fun nv => v <- unsqueeze (snd nv) dim ;; inr (fst nv, v))
         (tensor_params self) ;;
  derive self x1 x2 tensor_params.

(** [range(-n, 0)]. *)
Definition neg_range (n : nat) : list Z :=
  map (fun k => (Z.of_nat k - Z.of_nat n)%Z) (seq 0 n).

(** [_permute_batch]. *)
Definition _permute_batch (self : KernelLinearOperator) (dims : list Z)
  : exn + KernelLinearOperator :=
  x1 <- permute dflt (x1 self) (dims ++ [-2; -1]%Z) ;;
  x2 <- permute dflt (x2 self) (dims ++ [-2; -1]%Z) ;;
  tensor_params <-
    mapE (fun nv =>
            nb <- lookup (fst nv) (param_nonbatch_shapes self) ;;
            v <- permute dflt (snd nv) (dims ++ neg_range (length nb)) ;;
            inr (fst nv, v))
         (tensor_params self) ;;
  derive self x1 x2 tensor_params.

(** ** The per-instance cache

    The memoised accessors read and write the cache of [self].  The number
    of calls of the covariance function made through [self] is recorded
    next to it. *)

Record heap : Type := {
  kernel_diag : option (tensor V);
  covar_mat_cache : option covar_out;
  covar_calls : nat
}.

Definition empty_heap : heap :=
  {| kernel_diag := None; covar_mat_cache := None; covar_calls := 0 |}.

Definition M (A : Type) : Type := heap -> (exn + A) * heap.

Definition ret (A : Type) (a : A) : M A := fun h => (inr a, h).

Definition raise (A : Type) (e : exn) : M A := fun h => (inl e, h).

Arguments raise {A} e.

Definition bind (A B : Type) (m : M A) (k : A -> M B) : M B :=
  fun h =>
    match m h with
    | (inl e, h') => (inl e, h')
    | (inr a, h') => k a h'
    end.

Notation "x <~ m ;; k" := (bind m (fun x => k))
  (at level 61, m at next level, right associativity).

Definition lift (A : Type) (m : exn + A) : M A := fun h => (m, h).

(** [try: body except Exception: handler]. *)
Definition try_except (A : Type) (body : M A) (handler : exn -> M A) : M A :=
  fun h =>
    match body h with
    | (inl e, h') => handler e h'
    | (inr a, h') => (inr a, h')
    end.

(** [assert cond]. *)
Definition assert (cond : bool) : M unit :=
  if cond then ret tt else raise AssertionError.

(** Modelled from the spec: the memoisation utility [cached], an explicit
    cache cell owned by the instance and written at most once.  A
    computation that raises stores nothing. *)
Definition cached (A : Type) (read : heap -> option A)
    (write : A -> heap -> heap) (compute : M A) : M A :=
  fun h =>
    match read h with
    | Some v => (inr v, h)
    | None =>
        match compute h with
        | (inr v, h') => (inr v, write v h')
        | (inl e, h') => (inl e, h')
        end
    end.

Definition set_kernel_diag (v : tensor V) (h : heap) : heap :=
  {| kernel_diag := Some v;
     covar_mat_cache := covar_mat_cache h;
     covar_calls := covar_calls h |}.

Definition set_covar_mat (v : covar_out) (h : heap) : heap :=
  {| kernel_diag := kernel_diag h;
     covar_mat_cache := Some v;
     covar_calls := covar_calls h |}.

(** One more call of the covariance function. *)
Definition bump (h : heap) : heap :=
  {| kernel_diag := kernel_diag h;
     covar_mat_cache := covar_mat_cache h;
     covar_calls := S (covar_calls h) |}.

(** A call [self.covar_func(x1, x2, **tensor_params, **nontensor_params)]. *)
Definition call_covar (self : KernelLinearOperator) (x1 x2 : tensor V)
    (tensor_params : list (string * tensor V)) : M covar_out :=
  fun h =>
    (covar_func self x1 x2 tensor_params (nontensor_params self), bump h).

(** [_diagonal]. *)
Definition _diagonal (self : KernelLinearOperator) : M (tensor V) :=
  cached kernel_diag set_kernel_diag
    (x1 <~ lift (u <- unsqueeze (x1 self) 0 ;; transpose dflt u 0 (-2)) ;;
     x2 <~ lift (u <- unsqueeze (x2 self) 0 ;; transpose dflt u 0 (-2)) ;;
     tensor_params <~
       lift (mapE (fun nv => v <- unsqueeze (snd nv) 0 ;; inr (fst nv, v))
                  (tensor_params self)) ;;
     out <~ call_covar self x1 x2 tensor_params ;;
     let diag_mat := to_dense out in
     _ <~ assert (shape_eqb (nonbatch_shape (shape diag_mat)) [1; 1]) ;;
     lift (t <- transpose dflt diag_mat 0 (-2) ;;
           tensor_getitem t [IInt 0; IEllipsis; IInt 0])).

(** The property [covar_mat]. *)
Definition covar_mat (self : KernelLinearOperator) : M covar_out :=
  cached covar_mat_cache set_covar_mat
    (call_covar self (x1 self) (x2 self) (tensor_params self)).

(** [_get_indices]. *)
Definition _get_indices (self : KernelLinearOperator)
    (row_index col_index : index) (batch_indices : list index)
  : M (tensor V) :=
  x1_ <~ lift (t <- tensor_getitem (x1 self) (batch_indices ++ [row_index]) ;;
               unsqueeze t (-2)) ;;
  x2_ <~ lift (t <- tensor_getitem (x2 self) (batch_indices ++ [col_index]) ;;
               unsqueeze t (-2)) ;;
  tensor_params_ <~
    lift (mapE (fun nv => v <- tensor_getitem (snd nv) batch_indices ;;
                          inr (fst nv, v))
               (tensor_params self)) ;;
  out <~ call_covar self x1_ x2_ tensor_params_ ;;
  let indices_mat := to_dense out in
  _ <~ assert (shape_eqb (nonbatch_shape (shape indices_mat)) [1; 1]) ;;
  lift (tensor_getitem indices_mat [IEllipsis; IInt 0; IInt 0]).

(** What [_getitem] returns: an instance of this class, or what the
    materialised covariance matrix returned for the index. *)
Inductive getitem_result : Type :=
| RKernel (k : KernelLinearOperator)
| RLinOp (l : LinOp).

(** [self.covar_mat._getitem(row_index, col_index, *batch_indices)]; a
    torch tensor has no such method. *)
Definition covar_mat_getitem (self : KernelLinearOperator)
    (row_index col_index : index) (batch_indices : list index)
  : M getitem_result :=
  cm <~ covar_mat self ;;
  match cm with
  | OutTensor _ => raise AttributeError
  | OutLinOp l =>
      r <~ lift (linop_getitem l row_index col_index batch_indices) ;;
      ret (RLinOp r)
  end.

Definition slice_start (i : index) : option Z :=
  match i with ISlice a _ _ => a | _ => None end.
Definition slice_stop (i : index) : option Z :=
  match i with ISlice _ b _ => b | _ => None end.
Definition slice_step (i : index) : option Z :=
  match i with ISlice _ _ c => c | _ => None end.

(** [v if v is not None else d]: the result is an integer, never [None]. *)
Definition if_not_None (v : option Z) (d : Z) : option Z :=
  match v with
  | Some z => Some z
  | None => Some d
  end.

Definition is_not_None (v : option Z) : bool :=
  match v with
  | Some _ => true
  | None => false
  end.

(** [a % n] is truthy; a zero [n] raises. *)
Definition mod_truthy (a : option Z) (n : Z) : M bool :=
  match a with
  | Some z =>
      if (n =? 0)%Z then raise ZeroDivisionError
      else ret (negb (z mod n =? 0)%Z)
  | None => raise (TypeError UnsupportedOperand)
  end.

Definition floordiv (a : option Z) (n : Z) : option Z :=
  match a with
  | Some z => Some (z / n)%Z
  | None => None
  end.

(** Python's short-circuit [or] over conditions that may raise. *)
Definition orM (a b : M bool) : M bool :=
  x <~ a ;; if x then ret true else b.

(** The point-set lookup of [_getitem], with its handler for an
    IndexError: [x[( *batch_indices, index, dim_index)]], and on failure
    the same lookup on [x] expanded to one size-1 batch dimension per batch
    index, with [fallback_index] in place of [index]. *)
Definition index_point_set (x : tensor V) (batch_indices : list index)
    (index fallback_index dim_index : index) : M (tensor V) :=
  match tensor_getitem x (batch_indices ++ [index; dim_index]) with
  | inl IndexError =>
      (* isinstance(batch_indices, slice) is false: it is a tuple *)
      if existsb (fun bi => negb (is_slice bi)) batch_indices
      then raise (RuntimeError (TensorIndexNonBatch batch_indices))
      else
        lift (x' <- expand dflt x (repeat 1 (length batch_indices)
                                   ++ nonbatch_shape (shape x)) ;;
              tensor_getitem x' (batch_indices
                                 ++ [fallback_index; dim_index]))
  | r => lift r
  end.

(** The second half of [_getitem], from the comment "Get the indices of
    x1 and x2 that matter for the kernel" on: the point sets and the
    parameters are indexed and a new instance is constructed. *)
Definition getitem_points (self : KernelLinearOperator)
    (row_index col_index : index) (batch_indices : list index)
  : M getitem_result :=
  let dim_index := _noop_index in
  x1 <~ index_point_set (x1 self) batch_indices
                        row_index row_index dim_index ;;
  x2 <~ index_point_set (x2 self) batch_indices
                        col_index row_index dim_index ;;
  tensor_params <~
    lift (mapE (fun nv =>
                  nb <- lookup (fst nv) (param_nonbatch_shapes self) ;;
                  v <- tensor_getitem (snd nv)
                         (batch_indices
                          ++ repeat _noop_index (length nb)) ;;
                  inr (fst nv, v))
               (tensor_params self)) ;;
  k <~ lift (derive self x1 x2 tensor_params) ;;
  ret (RKernel k).

(** [_getitem]. *)
Definition _getitem (self : KernelLinearOperator)
    (row_index col_index : index) (batch_indices : list index)
  : M getitem_result :=
  let '(num_outs_per_in_rows, num_outs_per_in_cols) :=
    num_outputs_per_input self in
  if negb (num_outs_per_in_rows =? 1)%Z || negb (num_outs_per_in_cols =? 1)%Z
  then
    if negb (is_slice row_index) || negb (is_slice col_index)
    then
      try_except (covar_mat_getitem self row_index col_index batch_indices)
        (fun _ =>
           (* building the message joins type objects, which raises *)
           raise (TypeError JoinExpectedStr))
    else
      sz <~ lift (_size self) ;;
      let num_rows := nth (length sz - 2) sz 0%Z in
      let num_cols := nth (length sz - 1) sz 0%Z in
      let row_start := if_not_None (slice_start row_index) 0 in
      let row_end := if_not_None (slice_stop row_index) num_rows in
      let row_step := if_not_None (slice_step row_index) 1 in
      let col_start := if_not_None (slice_start col_index) 0 in
      let col_end := if_not_None (slice_stop col_index) num_cols in
      let col_step := if_not_None (slice_step col_index) 1 in
      if is_not_None row_step || is_not_None col_step
      then
        try_except (covar_mat_getitem self row_index col_index batch_indices)
          (fun _ =>
             cm <~ covar_mat self ;;
             raise (TypeError (NoSlicesWithSteps (class_name cm))))
      else
        misaligned <~
          orM (mod_truthy row_start num_outs_per_in_rows)
              (orM (mod_truthy col_start num_outs_per_in_cols)
                   (orM (mod_truthy row_end num_outs_per_in_rows)
                        (mod_truthy col_end num_outs_per_in_cols))) ;;
        if misaligned
        then
          try_except
            (covar_mat_getitem self row_index col_index batch_indices)
            (fun _ =>
               cm <~ covar_mat self ;;
               raise (TypeError (InvalidSlice (class_name cm))))
        else
          getitem_points self
            (ISlice (floordiv row_start num_outs_per_in_rows)
                    (floordiv row_end num_outs_per_in_rows) None)
            (ISlice (floordiv col_start num_outs_per_in_cols)
                    (floordiv col_end num_outs_per_in_cols) None)
            batch_indices
  else getitem_points self row_index col_index batch_indices.

(** ** Covariance functions

    A kernel [k] of two points, the parameters and the opaque arguments
    gives the covariance function that applies it to every pair of
    points: [K[b, i, j] = k (x1[b, i, :]) (x2[b, j, :]) (params[b])],
    with the batch dimensions broadcast. *)

Definition kernel_fn : Type :=
  list V -> list V -> list (string * tensor V) ->
  list (string * Opaque) -> V.

(** The point [x[b, i, :]]. *)
Definition point (x : tensor V) (b : list nat) (i : nat) : list V :=
  match dim_last (shape x) with
  | Some d =>
      map (fun j => get dflt x (align (batch_shape (shape x)) b ++ [i; j]))
          (seq 0 d)
  | None => []
  end.

(** The parameter matrix [p[b, :, :]]. *)
Definition param_at (p : tensor V) (b : list nat) : tensor V :=
  build (nonbatch_shape (shape p))
        (fun pq => get dflt p (align (batch_shape (shape p)) b ++ pq)).

(** A covariance function with [r] rows per point of [x1] and [c] columns
    per point of [x2]: row [i] belongs to point [i / r], column [j] to
    point [j / c], and [k] also receives the output positions [i mod r] and
    [j mod c]. *)
Definition block_covar (r c : nat)
    (k : nat -> nat -> kernel_fn) : covar_fn :=
  fun x1 x2 tensor_params nontensor_params =>
    match dim_count (shape x1), dim_count (shape x2) with
    | Some m, Some n =>
        match broadcast_shapes
                (batch_shape (shape x1) :: batch_shape (shape x2)
                 :: map (fun nv => batch_shape (shape (snd nv)))
                        tensor_params) with
        | Some bs =>
            inr (OutTensor
                   (build (bs ++ [m * r; n * c])
                      (fun idx =>
                         let b := firstn (length bs) idx in
                         let i := nth (length bs) idx 0 in
                         let j := nth (S (length bs)) idx 0 in
                         k (i mod r) (j mod c)
                           (point x1 b (i / r)) (point x2 b (j / c))
                           (map (fun nv => (fst nv, param_at (snd nv) b))
                                tensor_params)
                           nontensor_params)))
        | None => inl (RuntimeError ShapeMismatch)
        end
    | _, _ => inl IndexError
    end.

(** The covariance function of one output per point. *)
Definition pairwise_covar (k : kernel_fn) : covar_fn :=
  fun x1 x2 tensor_params nontensor_params =>
    match dim_count (shape x1), dim_count (shape x2) with
    | Some m, Some n =>
        match broadcast_shapes
                (batch_shape (shape x1) :: batch_shape (shape x2)
                 :: map (fun nv => batch_shape (shape (snd nv)))
                        tensor_params) with
        | Some bs =>
            inr (OutTensor
                   (build (bs ++ [m; n])
                      (fun idx =>
                         let b := firstn (length bs) idx in
                         k (point x1 b (nth (length bs) idx 0))
                           (point x2 b (nth (S (length bs)) idx 0))
                           (map (fun nv => (fst nv, param_at (snd nv) b))
                                tensor_params)
                           nontensor_params)))
        | None => inl (RuntimeError ShapeMismatch)
        end
    | _, _ => inl IndexError
    end.

(** [f] computes pairwise covariances with the kernel [k]. *)
Definition computes_pairwise (f : covar_fn) (k : kernel_fn) : Prop :=
  forall x1 x2 tensor_params nontensor_params,
    f x1 x2 tensor_params nontensor_params
    = pairwise_covar k x1 x2 tensor_params nontensor_params.

(** [torch.diagonal(t, dim1=-2, dim2=-1)] of a batch of [m] by [m]
    matrices with batch shape [bs]. *)
Definition diagonal_of (bs : shape_t) (m : nat) (t : tensor V) : tensor V :=
  build (bs ++ [m]) (fun idx => get dflt t (idx ++ [last idx 0])).

(** The flattening at the end of [_diagonal]: from a result of shape
    [m :: bs ++ [1; 1]], one 1 by 1 block for every slot of the synthetic
    batch, the tensor of shape [bs ++ [m]] that holds at [b ++ [p]] the
    block of slot [p] at the batch index [b]. *)
Definition flatten_slots (bs : shape_t) (m : nat) (t : tensor V) : tensor V :=
  build (bs ++ [m])
        (fun idx => get dflt t (last idx 0 :: removelast idx ++ [0; 0])).

(** ** Abbreviations for the statements about [__init__] *)

(** The batch shapes that [__init__] broadcasts together. *)
Definition batch_shapes (a1 a2 : tensor V) (tp : list (string * tensor V))
  : list shape_t :=
  batch_shape (shape a1) :: batch_shape (shape a2)
  :: map (fun nv => batch_shape (shape (snd nv))) tp.

Definition pair_of (n : outputs_arg) : Z * Z :=
  match n with
  | OInt n => (n, n)
  | OPair r c => (r, c)
  end.

(** The expansion of one tensor parameter in [__init__]. *)
Definition expand_param (bs : shape_t) (tp : list (string * tensor V))
    (nv : string * tensor V) : exn + (string * tensor V) :=
  nb <- lookup (fst nv)
          (map (fun nv => (fst nv, nonbatch_shape (shape (snd nv)))) tp) ;;
  v <- expand dflt (snd nv) (bs ++ nb) ;;
  inr (fst nv, v).

(** [t'] shows the elements of [t] under the batch shape [bs]: its shape
    is [bs] followed by the trailing two dimensions of [t], and each of its
    elements is the element of [t] at the aligned index. *)
Definition expansion_of (bs : shape_t) (t t' : tensor V) : Prop :=
  shape t' = bs ++ nonbatch_shape (shape t) /\
  forall idx, in_range (shape t') idx ->
              get dflt t' idx = get dflt t (align (shape t) idx).

(** The stored tensors of [K] are the expansions of the point sets [a1],
    [a2] and of the tensor parameters [tp] to their common batch shape. *)
Definition expanded_from (a1 a2 : tensor V) (tp : list (string * tensor V))
    (K : KernelLinearOperator) : Prop :=
  broadcast_shapes (batch_shapes a1 a2 tp) = Some (batch_broadcast_shape K) /\
  expansion_of (batch_broadcast_shape K) a1 (x1 K) /\
  expansion_of (batch_broadcast_shape K) a2 (x2 K) /\
  Forall2 (fun nv nv' =>
             fst nv' = fst nv /\
             expansion_of (batch_broadcast_shape K) (snd nv) (snd nv'))
          tp (tensor_params K) /\
  Forall (fun ns => snd ns = batch_broadcast_shape K) (param_batch_shapes K).

Definition batch_aligned (K : KernelLinearOperator) : Prop :=
  exists a1 a2 tp, expanded_from a1 a2 tp K.

(** [K] with other point sets. *)
Definition with_points (K : KernelLinearOperator) (y1 y2 : tensor V)
  : KernelLinearOperator :=
  {| batch_broadcast_shape := batch_broadcast_shape K;
     x1 := y1;
     x2 := y2;
     tensor_params := tensor_params K;
     nontensor_params := nontensor_params K;
     covar_func := covar_func K;
     num_outputs_per_input := num_outputs_per_input K;
     param_batch_shapes := param_batch_shapes K;
     param_nonbatch_shapes := param_nonbatch_shapes K |}.

(** The inputs the class documents: point sets and tensor parameters of
    at least two dimensions, parameter names that are distinct. *)
Definition valid_inputs (a1 a2 : tensor V) (params : list (string * param))
  : Prop :=
  2 <= length (shape a1) /\
  2 <= length (shape a2) /\
  Forall (fun nv => 2 <= length (shape (snd nv)))
         (split_tensor_params params) /\
  NoDup (map fst (split_tensor_params params)).

(** The point [x[b, i, :]] as a point set of one point and [d] features,
    which is what [_get_indices] passes to the covariance function. *)
Definition point_set (d : nat) (x : tensor V) (b : list nat) (i : nat)
  : tensor V :=
  Tensor [1; d] (tabulate [d] (fun ridx => get dflt x (b ++ i :: ridx))).

(** [x.unsqueeze(0).transpose(0, -2)]: every point of [x] in a leading
    batch slot of its own. *)
Definition batch_of_points (x : tensor V) : exn + tensor V :=
  u <- unsqueeze x 0 ;; transpose dflt u 0 (-2).

(** What [__init__] leaves in an instance built from valid inputs: every
    stored tensor is well formed and has the common batch shape, and the
    recorded parameter shapes are those of the stored parameters. *)
Definition stored_ok (K : KernelLinearOperator) : Prop :=
  wf (x1 K) /\ wf (x2 K) /\
  batch_shape (shape (x1 K)) = batch_broadcast_shape K /\
  batch_shape (shape (x2 K)) = batch_broadcast_shape K /\
  Forall (fun nv => wf (snd nv) /\
                    batch_shape (shape (snd nv)) = batch_broadcast_shape K /\
                    2 <= length (shape (snd nv)))
         (tensor_params K) /\
  NoDup (map fst (tensor_params K)) /\
  param_batch_shapes K
  = map (fun nv => (fst nv, batch_broadcast_shape K)) (tensor_params K) /\
  param_nonbatch_shapes K
  = map (fun nv => (fst nv, nonbatch_shape (shape (snd nv))))
        (tensor_params K).

End Operator.

Arguments raise {E A} e.

Notation "x <~ m ;; k" := (bind m (fun x => k))
  (at level 61, m at next level, right associativity).

(** ** A concrete environment

    Integer elements; the only other operator class wraps a dense tensor
    and indexes it; the examples use no index tensor where the number of
    indices fits the rank. *)

#[export] Instance Z_env : Env := {|
  V := Z;
  dflt := 0%Z;
  Opaque := Z;
  LinOp := tensor Z;
  linop_to_dense := fun t => t;
  linop_getitem := fun t row_index col_index batch_indices =>
    basic_getitem 0%Z t (batch_indices ++ [row_index; col_index]);
  linop_class_name := fun _ => "DenseLinearOperator"%string;
  advanced_getitem := fun _ _ => inl IndexError
|}.

(** The linear kernel, scaled by the first element of the parameter
    ["outputscale"] when it is given. *)
Definition dot (a b : list Z) : Z :=
  fold_right Z.add 0%Z (map (fun ab => (fst ab * snd ab)%Z) (combine a b)).

Definition linear_kernel : @kernel_fn Z_env :=
  fun a b tensor_params _ =>
    match tensor_params with
    | (_, p) :: _ => (nth 0 (data p) 1 * dot a b)%Z
    | [] => dot a b
    end.

(** Two outputs per row point: the kernel value and its double. *)
Definition two_row_kernel : nat -> nat -> @kernel_fn Z_env :=
  fun a _ x y tensor_params nontensor_params =>
    (Z.of_nat (S a) * linear_kernel x y tensor_params nontensor_params)%Z.

(** The same values behind a lazy operator. *)
Definition lazy (f : @covar_fn Z_env) : @covar_fn Z_env :=
  fun x1 x2 tensor_params nontensor_params =>
    match f x1 x2 tensor_params nontensor_params with
    | inr o => inr (OutLinOp (to_dense o))
    | inl e => inl e
    end.

(** A covariance function that always raises. *)
Definition failing_covar : @covar_fn Z_env :=
  fun _ _ _ _ => inl (RuntimeError (CovarFailure "not positive definite")).

Definition rows5 : tensor Z :=
  Tensor [5; 2] [1; 0; 0; 1; 1; 1; 2; 1; 3; -1]%Z.
Definition cols4 : tensor Z :=
  Tensor [4; 2] [1; 2; 0; 1; 2; 2; -1; 3]%Z.
Definition rows3 : tensor Z := Tensor [3; 2] [1; 0; 0; 1; 1; 1]%Z.
Definition outputscale : tensor Z := Tensor [1; 1] [2]%Z.

(** Example operators: what [__init__] returns for the example inputs. *)
Definition example_operator (a1 a2 : tensor Z) (f : @covar_fn Z_env)
    (rc : Z * Z) : @KernelLinearOperator Z_env :=
  {| batch_broadcast_shape := [];
     x1 := a1;
     x2 := a2;
     tensor_params := [];
     nontensor_params := [];
     covar_func := f;
     num_outputs_per_input := rc;
     param_batch_shapes := [];
     param_nonbatch_shapes := [] |}.

(** Point sets whose batch shapes, (2, 1) and (3), differ and broadcast to
    (2, 3). *)
Definition rows_2x1 : tensor Z := Tensor [2; 1; 2; 1] [1; 2; 3; 4]%Z.
Definition cols_3 : tensor Z := Tensor [3; 1; 1] [5; 6; 7]%Z.

(** A batch of two operators with a second batch dimension of size 1, and
    an operator without batch dimensions that has a tensor parameter. *)
Definition batch_rows : tensor Z := Tensor [2; 1; 3; 1] [1; 2; 3; 4; 5; 6]%Z.
Definition batch_cols : tensor Z := Tensor [2; 1; 2; 1] [1; 0; 0; 1]%Z.
Definition batch_scale : tensor Z := Tensor [2; 1; 1; 1] [2; 3]%Z.

Definition batched_operator (f : @covar_fn Z_env) (rc : Z * Z)
  : @KernelLinearOperator Z_env :=
  {| batch_broadcast_shape := [2; 1];
     x1 := batch_rows;
     x2 := batch_cols;
     tensor_params := [("outputscale"%string, batch_scale)];
     nontensor_params := [];
     covar_func := f;
     num_outputs_per_input := rc;
     param_batch_shapes := [("outputscale"%string, [2; 1])];
     param_nonbatch_shapes := [("outputscale"%string, [1; 1])] |}.

Definition scaled_operator (f : @covar_fn Z_env) (rc : Z * Z)
  : @KernelLinearOperator Z_env :=
  {| batch_broadcast_shape := [];
     x1 := rows5;
     x2 := cols4;
     tensor_params := [("outputscale"%string, outputscale)];
     nontensor_params := [];
     covar_func := f;
     num_outputs_per_input := rc;
     param_batch_shapes := [("outputscale"%string, [])];
     param_nonbatch_shapes := [("outputscale"%string, [1; 1])] |}.

(** The product of a two-dimensional covariance matrix with a matrix. *)
Definition dense_matmul (cm : @covar_out Z_env) (rhs : tensor Z)
  : exn + tensor Z :=
  let t := @to_dense Z_env cm in
  match shape t, shape rhs with
  | [m; n], [n'; c] =>
      if n =? n'
      then inr (build [m; c]
                  (fun idx =>
                     let i := nth 0 idx 0 in
                     let j := nth 1 idx 0 in
                     fold_right Z.add 0%Z
                       (map (fun k => Z.mul (get 0%Z t [i; k])
                                            (get 0%Z rhs [k; j]))
                            (seq 0 n))))
      else inl (RuntimeError ShapeMismatch)
  | _, _ => inl (RuntimeError ShapeMismatch)
  end.

(** ** Matrix multiplication

    [matmul] is the operator [@] of what the covariance function returned,
    a torch tensor or another LinearOperator, applied to a tensor. *)

Section Matmul.

Context {E : Env}.

Variable matmul : covar_out -> tensor V -> exn + tensor V.

(** [_matmul]; [rhs.contiguous()] is [rhs] for a row-major array. *)
Definition _matmul (self : KernelLinearOperator) (rhs : tensor V)
  : M (tensor V) :=
  cm <~ covar_mat self ;;
  lift (matmul cm rhs).

End Matmul.

(** ** Rows of a point set *)

Section Rows.

Context {E : Env}.

(** The points [a], ..., [b - 1] of every point set of a batch of [nb]
    batch dimensions: [t[..., a:b, :]]. *)
Definition row_slice (nb a b : nat) (t : tensor V) : tensor V :=
  build (firstn nb (shape t) ++ [b - a; nth (S nb) (shape t) 0])
        (fun ridx => get dflt t (firstn nb ridx
                                 ++ (a + nth nb ridx 0) :: skipn (S nb) ridx)).

(** The slice [a:b] with explicit bounds. *)
Definition slice_of (a b : nat) : index :=
  ISlice (Some (Z.of_nat a)) (Some (Z.of_nat b)) None.

End Rows.

(** ** A new batch dimension *)

Section NewBatchDimension.

Context {E : Env}.

(** A shape with a dimension of size 1 put in at position [p]. *)
Definition insert_one (p : nat) (s : shape_t) : shape_t :=
  firstn p s ++ 1 :: skipn p s.

(** [t.unsqueeze(p)] for a position [p] that exists. *)
Definition unsqueezed (p : nat) (t : tensor V) : tensor V :=
  Tensor (insert_one p (shape t)) (data t).

(** [K] with a batch dimension of size 1 put in at position [p] of every
    stored tensor. *)
Definition unsqueezed_operator (p : nat) (K : KernelLinearOperator)
  : KernelLinearOperator :=
  let tp := map (fun nv => (fst nv, unsqueezed p (snd nv)))
                (tensor_params K) in
  {| batch_broadcast_shape := insert_one p (batch_broadcast_shape K);
     x1 := unsqueezed p (x1 K);
     x2 := unsqueezed p (x2 K);
     tensor_params := tp;
     nontensor_params := nontensor_params K;
     covar_func := covar_func K;
     num_outputs_per_input := num_outputs_per_input K;
     param_batch_shapes :=
       map (fun nv => (fst nv, insert_one p (batch_broadcast_shape K))) tp;
     param_nonbatch_shapes :=
       map (fun nv => (fst nv, nonbatch_shape (shape (snd nv)))) tp |}.

End NewBatchDimension.

(** ** Permuted batch dimensions *)

Section PermutedBatch.

Context {E : Env}.

(** [t.permute] with the batch positions [dims], counted from the front,
    followed by -2 and -1: the tensor [permute] builds from the positions
    [dims ++ [rank - 2; rank - 1]]. *)
Definition permuted_batch (dims : list nat) (t : tensor V) : tensor V :=
  let rank := length (shape t) in
  let ps := dims ++ [rank - 2; rank - 1] in
  build (map (fun p => nth p (shape t) 0) ps)
        (fun idx => get dflt t (map (fun p => nth (index_of p ps) idx 0)
                                    (seq 0 rank))).

(** [K] with the batch dimensions of every stored tensor permuted. *)
Definition permuted_operator (dims : list nat) (K : KernelLinearOperator)
  : KernelLinearOperator :=
  let bs := map (fun p => nth p (batch_broadcast_shape K) 0) dims in
  let tp := map (fun nv => (fst nv, permuted_batch dims (snd nv)))
                (tensor_params K) in
  {| batch_broadcast_shape := bs;
     x1 := permuted_batch dims (x1 K);
     x2 := permuted_batch dims (x2 K);
     tensor_params := tp;
     nontensor_params := nontensor_params K;
     covar_func := covar_func K;
     num_outputs_per_input := num_outputs_per_input K;
     param_batch_shapes := map (fun nv => (fst nv, bs)) tp;
     param_nonbatch_shapes :=
       map (fun nv => (fst nv, nonbatch_shape (shape (snd nv)))) tp |}.

End PermutedBatch.

Unset Implicit Arguments.

(** ** Row-major enumeration lemmas *)

Lemma in_range_cons (n : nat) (s : shape_t) (i : nat) (idx : list nat) :
  in_range (n :: s) (i :: idx) <-> i < n /\ in_range s idx.
Proof.
  unfold in_range; split.
  - intros H; inversion H; subst; auto.
  - intros [H1 H2]; constructor; auto.
Qed.

Lemma in_range_length (s : shape_t) (idx : list nat) :
  in_range s idx -> length idx = length s.
Proof. unfold in_range. induction 1; simpl; congruence. Qed.

Lemma in_range_app (s1 s2 : shape_t) (i1 i2 : list nat) :
  in_range s1 i1 -> in_range s2 i2 -> in_range (s1 ++ s2) (i1 ++ i2).
Proof. unfold in_range. apply Forall2_app. Qed.

Lemma in_range_app_inv (s1 s2 : shape_t) (idx : list nat) :
  in_range (s1 ++ s2) idx ->
  exists i1 i2, idx = i1 ++ i2 /\ in_range s1 i1 /\ in_range s2 i2.
Proof.
  unfold in_range; intros H.
  apply Forall2_app_inv_r in H.
  destruct H as (i1 & i2 & H1 & H2 & H3); eauto.
Qed.

Lemma length_indices (s : shape_t) : length (indices s) = prod s.
Proof.
  induction s as [|n s IH]; simpl; auto.
  generalize 0 as a.
  induction n as [|n IHn]; intros a; simpl; auto.
  rewrite length_app, length_map, IH, IHn; reflexivity.
Qed.

Lemma indices_in_range (s : shape_t) (idx : list nat) :
  In idx (indices s) <-> in_range s idx.
Proof.
  revert idx; induction s as [|n s IH]; intros idx; simpl.
  - split.
    + intros [<-|[]]; constructor.
    + intros H; inversion H; auto.
  - rewrite in_flat_map; split.
    + intros (i & Hi & Hin).
      apply in_map_iff in Hin; destruct Hin as (idx' & <- & Hin).
      apply in_seq in Hi.
      apply in_range_cons; split; [lia | apply IH; assumption].
    + intros H; destruct idx as [|i idx']; [inversion H|].
      apply in_range_cons in H; destruct H as [Hi H].
      exists i; split; [apply in_seq; lia|].
      apply in_map; apply IH; assumption.
Qed.

Lemma offset_lt (s : shape_t) (idx : list nat) :
  in_range s idx -> offset s idx < prod s.
Proof.
  unfold in_range; induction 1 as [|i n idx s Hi _ IH]; simpl; [lia|].
  fold (prod s). nia.
Qed.

(** Position [i * len + j] of a concatenation of chunks of length [len]. *)
Lemma nth_flat_map_chunks (A : Type) (g : nat -> list A) (len : nat) (d : A) :
  (forall i, length (g i) = len) ->
  forall n a i j, i < n -> j < len ->
  nth (i * len + j) (flat_map g (seq a n)) d = nth j (g (a + i)) d.
Proof.
  intros Hg; induction n as [|n IH]; intros a i j Hi Hj; [lia|].
  simpl. destruct i as [|i].
  - simpl. rewrite app_nth1 by (rewrite Hg; lia).
    rewrite Nat.add_0_r; reflexivity.
  - rewrite app_nth2 by (rewrite Hg; simpl; lia).
    rewrite Hg.
    replace (S i * len + j - len) with (i * len + j) by (simpl; lia).
    rewrite IH by lia. f_equal. f_equal. lia.
Qed.

Lemma nth_offset_indices (s : shape_t) (idx : list nat) :
  in_range s idx -> nth (offset s idx) (indices s) [] = idx.
Proof.
  unfold in_range; induction 1 as [|i n idx s Hi Hr IH]; simpl; auto.
  fold (prod s).
  rewrite (nth_flat_map_chunks _ (fun i => map (cons i) (indices s)) (prod s)).
  - simpl.
    rewrite (nth_indep _ [] (i :: [])).
    + rewrite (map_nth (cons i)). rewrite IH. reflexivity.
    + rewrite length_map, length_indices. apply offset_lt; assumption.
  - intros; rewrite length_map; apply length_indices.
  - assumption.
  - apply offset_lt; assumption.
Qed.

(** ** Shapes with two trailing dimensions *)

Lemma shape_split (s : shape_t) :
  2 <= length s -> exists bs m d, s = bs ++ [m; d].
Proof.
  intros H.
  destruct (rev s) as [|d [|m r]] eqn:Hr.
  - apply (f_equal (@length nat)) in Hr; rewrite length_rev in Hr;
      simpl in Hr; lia.
  - apply (f_equal (@length nat)) in Hr; rewrite length_rev in Hr;
      simpl in Hr; lia.
  - exists (rev r), m, d.
    rewrite <- (rev_involutive s), Hr; simpl.
    rewrite <- app_assoc; reflexivity.
Qed.

Lemma batch_shape_app2 (bs : shape_t) (m d : nat) :
  batch_shape (bs ++ [m; d]) = bs.
Proof.
  unfold batch_shape; rewrite length_app; simpl.
  replace (length bs + 2 - 2) with (length bs + 0) by lia.
  rewrite firstn_app_2; simpl; apply app_nil_r.
Qed.

Lemma nonbatch_shape_app2 (bs : shape_t) (m d : nat) :
  nonbatch_shape (bs ++ [m; d]) = [m; d].
Proof.
  unfold nonbatch_shape; rewrite length_app; simpl.
  replace (length bs + 2 - 2) with (length bs) by lia.
  rewrite skipn_app, Nat.sub_diag, skipn_all; reflexivity.
Qed.

Lemma dim_count_app2 (bs : shape_t) (m d : nat) :
  dim_count (bs ++ [m; d]) = Some m.
Proof.
  unfold dim_count; rewrite length_app; simpl.
  replace (length bs + 2) with (S (S (length bs))) by lia.
  rewrite nth_error_app2 by lia; rewrite Nat.sub_diag; reflexivity.
Qed.

Lemma dim_last_app2 (bs : shape_t) (m d : nat) :
  dim_last (bs ++ [m; d]) = Some d.
Proof.
  unfold dim_last; rewrite length_app; simpl.
  replace (length bs + 2) with (S (S (length bs))) by lia.
  rewrite nth_error_app2 by lia.
  replace (S (length bs) - length bs) with 1 by lia; reflexivity.
Qed.

Lemma batch_nonbatch (s : shape_t) : batch_shape s ++ nonbatch_shape s = s.
Proof. apply firstn_skipn. Qed.

Lemma length_nonbatch_shape (s : shape_t) :
  2 <= length s -> length (nonbatch_shape s) = 2.
Proof. intros H; unfold nonbatch_shape; rewrite length_skipn; lia. Qed.

(** ** Broadcasting lemmas *)

Lemma expandable_rev_refl (s : list nat) : expandable_rev s s = true.
Proof. induction s; simpl; auto. rewrite Nat.eqb_refl; simpl; auto. Qed.

Lemma expandable_rev_trans (a b c : list nat) :
  expandable_rev a b = true -> expandable_rev b c = true ->
  expandable_rev a c = true.
Proof.
  revert b c; induction a as [|x a IH]; intros b c Hab Hbc; simpl; auto.
  destruct b as [|y b]; simpl in Hab; [discriminate|].
  destruct c as [|z c]; simpl in Hbc; [discriminate|].
  apply andb_true_iff in Hab; destruct Hab as [H1 H2].
  apply andb_true_iff in Hbc; destruct Hbc as [H3 H4].
  apply andb_true_iff; split; [|eapply IH; eauto].
  apply orb_true_iff in H1; apply orb_true_iff in H3; apply orb_true_iff.
  rewrite !Nat.eqb_eq in *; lia.
Qed.

Lemma broadcast_rev_expandable (a b r : list nat) :
  broadcast_rev a b = Some r ->
  expandable_rev a r = true /\ expandable_rev b r = true.
Proof.
  revert b r; induction a as [|x a IH]; intros b r H; simpl in H.
  - inversion H; subst; split; [reflexivity | apply expandable_rev_refl].
  - destruct b as [|y b].
    + inversion H; subst; split; [apply expandable_rev_refl | reflexivity].
    + destruct (broadcast_rev a b) as [r'|] eqn:Hr; [|discriminate].
      destruct (IH _ _ Hr) as [Ha Hb].
      destruct ((y =? 1) || (y =? x)) eqn:Hy.
      * inversion H; subst; simpl; rewrite Ha, Hb, Nat.eqb_refl; simpl.
        split; auto.
        apply orb_true_iff in Hy; rewrite !Nat.eqb_eq in Hy.
        rewrite andb_true_r; apply orb_true_iff; rewrite !Nat.eqb_eq; lia.
      * destruct (x =? 1) eqn:Hx; [|discriminate].
        inversion H; subst; simpl; rewrite Ha, Hb, Hx, Nat.eqb_refl.
        rewrite orb_true_r; auto.
Qed.

Lemma broadcast2_expandable (a b r : shape_t) :
  broadcast2 a b = Some r -> expandable a r = true /\ expandable b r = true.
Proof.
  unfold broadcast2, expandable; intros H.
  destruct (broadcast_rev (rev a) (rev b)) as [r'|] eqn:Hr; [|discriminate].
  inversion H; subst; rewrite rev_involutive.
  apply broadcast_rev_expandable; assumption.
Qed.

Lemma expandable_trans (a b c : shape_t) :
  expandable a b = true -> expandable b c = true -> expandable a c = true.
Proof. unfold expandable; apply expandable_rev_trans. Qed.

Lemma expandable_refl (s : shape_t) : expandable s s = true.
Proof. apply expandable_rev_refl. Qed.

Lemma fold_broadcast_None (l : list shape_t) :
  fold_left broadcast_step l None = None.
Proof. induction l; simpl; auto. Qed.

Lemma fold_broadcast_expandable (l : list shape_t) (acc r : shape_t) :
  fold_left broadcast_step l (Some acc) = Some r ->
  expandable acc r = true /\ Forall (fun s => expandable s r = true) l.
Proof.
  revert acc; induction l as [|s l IH]; intros acc H; simpl in H.
  - inversion H; subst; split; [apply expandable_refl | constructor].
  - destruct (broadcast2 acc s) as [acc'|] eqn:Hb.
    + destruct (IH _ H) as [H1 H2].
      destruct (broadcast2_expandable _ _ _ Hb) as [H3 H4].
      split; [eapply expandable_trans; eauto|].
      constructor; [eapply expandable_trans; eauto | assumption].
    + rewrite fold_broadcast_None in H; discriminate.
Qed.

Lemma broadcast_shapes_expandable (l : list shape_t) (r : shape_t) :
  broadcast_shapes l = Some r -> Forall (fun s => expandable s r = true) l.
Proof. intros H; apply (fold_broadcast_expandable l [] r H). Qed.

Lemma expandable_app (a b tl : shape_t) :
  expandable a b = true -> expandable (a ++ tl) (b ++ tl) = true.
Proof.
  unfold expandable; rewrite !rev_app_distr; intros H.
  induction (rev tl) as [|x l IH]; simpl; auto.
  rewrite Nat.eqb_refl; simpl; assumption.
Qed.

Lemma broadcast_rev_same (s : list nat) : broadcast_rev s s = Some s.
Proof.
  induction s as [|x s IH]; simpl; auto.
  rewrite IH, Nat.eqb_refl, orb_true_r; reflexivity.
Qed.

Lemma broadcast2_same (s : shape_t) : broadcast2 s s = Some s.
Proof.
  unfold broadcast2; rewrite broadcast_rev_same; simpl.
  rewrite rev_involutive; reflexivity.
Qed.

Lemma broadcast2_nil_l (s : shape_t) : broadcast2 [] s = Some s.
Proof.
  unfold broadcast2; simpl; rewrite rev_involutive; reflexivity.
Qed.

Lemma fold_broadcast_same (l : list shape_t) (s : shape_t) :
  Forall (fun x => x = s) l ->
  fold_left broadcast_step l (Some s) = Some s.
Proof.
  induction 1 as [|x l Hx _ IH]; simpl; auto.
  subst; rewrite broadcast2_same; assumption.
Qed.

Lemma offset_nth_indices (s : shape_t) (k : nat) :
  k < prod s -> offset s (nth k (indices s) []) = k.
Proof.
  revert k; induction s as [|n s IH]; intros k Hk; simpl in *.
  - destruct k; [reflexivity | lia].
  - fold (prod s) in *.
    assert (Hpos : 0 < prod s) by (destruct (prod s); lia).
    pose proof (Nat.div_mod_eq k (prod s)) as Hdm.
    pose proof (Nat.mod_upper_bound k (prod s) ltac:(lia)) as Hm.
    assert (Hi : k / prod s < n).
    { apply Nat.Div0.div_lt_upper_bound; lia. }
    replace k with (k / prod s * prod s + k mod prod s) at 1 by lia.
    rewrite (nth_flat_map_chunks _ (fun i => map (cons i) (indices s))
               (prod s)); try assumption.
    + simpl.
      rewrite (nth_indep _ [] (k / prod s :: [])).
      * rewrite (map_nth (cons (k / prod s))).
        rewrite IH by assumption. lia.
      * rewrite length_map, length_indices; assumption.
    + intros; rewrite length_map; apply length_indices.
Qed.

Lemma Forall2_lt_rev (idx s : list nat) :
  Forall2 lt idx s -> Forall2 lt (rev idx) (rev s).
Proof.
  induction 1; simpl; [constructor|].
  apply Forall2_app; [assumption | constructor; [assumption | constructor]].
Qed.

Lemma align_rev_same (s idx : list nat) :
  Forall2 lt idx s -> align_rev s idx = idx.
Proof.
  induction 1 as [|i x idx s Hi _ IH]; simpl; auto.
  rewrite IH; destruct (Nat.eqb_spec x 1); [f_equal; lia | reflexivity].
Qed.

(** An index in range of the shape itself is left alone. *)
Lemma align_same (s : shape_t) (idx : list nat) :
  in_range s idx -> align s idx = idx.
Proof.
  unfold in_range, align; intros H.
  rewrite align_rev_same by (apply Forall2_lt_rev; assumption).
  apply rev_involutive.
Qed.

Section TensorLemmas.

Variable V : Type.
Variable dflt : V.

Lemma length_tabulate (s : shape_t) (f : list nat -> V) :
  length (tabulate s f) = prod s.
Proof. unfold tabulate; rewrite length_map; apply length_indices. Qed.

Lemma wf_build (s : shape_t) (f : list nat -> V) : wf (build s f).
Proof. unfold wf; simpl; apply length_tabulate. Qed.

(** Reading a built tensor gives back the defining function. *)
Lemma get_build (s : shape_t) (f : list nat -> V) (idx : list nat) :
  in_range s idx -> get dflt (build s f) idx = f idx.
Proof.
  intros H; unfold get, build, tabulate; simpl.
  rewrite (nth_indep _ dflt (f [])).
  - rewrite (map_nth f). rewrite nth_offset_indices by assumption. reflexivity.
  - rewrite length_map, length_indices; apply offset_lt; assumption.
Qed.

Lemma tabulate_ext (s : shape_t) (f g : list nat -> V) :
  (forall idx, in_range s idx -> f idx = g idx) ->
  tabulate s f = tabulate s g.
Proof.
  intros H; unfold tabulate; apply map_ext_in.
  intros idx Hin; apply H; apply indices_in_range; assumption.
Qed.

Lemma build_ext (s : shape_t) (f g : list nat -> V) :
  (forall idx, in_range s idx -> f idx = g idx) ->
  build s f = build s g.
Proof. intros H; unfold build; f_equal; apply tabulate_ext; assumption. Qed.

(** Rebuilding a well-formed tensor from its elements gives it back. *)
Lemma build_get (t : tensor V) :
  wf t -> build (shape t) (get dflt t) = t.
Proof.
  destruct t as [s d]; unfold wf, build, get, tabulate; simpl; intros Hwf.
  f_equal.
  apply (nth_ext _ _ dflt dflt).
  - rewrite length_map, length_indices; lia.
  - intros k Hk; rewrite length_map, length_indices in Hk.
    rewrite (nth_indep _ dflt (nth (offset s []) d dflt))
      by (rewrite length_map, length_indices; assumption).
    rewrite (map_nth (fun idx => nth (offset s idx) d dflt)).
    rewrite offset_nth_indices by assumption; reflexivity.
Qed.

(** Expanding a well-formed tensor to its own shape changes nothing. *)
Lemma expand_same (t : tensor V) :
  wf t -> expand dflt t (shape t) = inr t.
Proof.
  intros Hwf; unfold expand; rewrite expandable_refl.
  f_equal; transitivity (build (shape t) (get dflt t));
    [|apply build_get; assumption].
  apply build_ext; intros idx Hidx.
  rewrite align_same by assumption; reflexivity.
Qed.

Lemma wf_expand (t t' : tensor V) (target : shape_t) :
  expand dflt t target = inr t' -> wf t'.
Proof.
  unfold expand; destruct (expandable (shape t) target); intros H;
    inversion H; apply wf_build.
Qed.

End TensorLemmas.

(** ** The constructor *)

Section ConstructLemmas.

Context {E : Env}.

Lemma mapE_Forall2 (A B : Type) (f : A -> exn + B) (l : list A)
    (r : list B) :
  mapE f l = inr r -> Forall2 (fun a b => f a = inr b) l r.
Proof.
  revert r; induction l as [|a l IH]; intros r H; simpl in H.
  - inversion H; constructor.
  - destruct (f a) as [e|b] eqn:Hf; simpl in H; [discriminate|].
    destruct (mapE f l) as [e|r'] eqn:Hm; simpl in H; [discriminate|].
    inversion H; subst; constructor; auto.
Qed.

Lemma mapE_total (A B : Type) (f : A -> exn + B) (l : list A) :
  Forall (fun a => exists b, f a = inr b) l -> exists r, mapE f l = inr r.
Proof.
  induction 1 as [|a l [b Hb] _ [r Hr]]; simpl.
  - eexists; reflexivity.
  - rewrite Hb; simpl; rewrite Hr; simpl; eexists; reflexivity.
Qed.

Lemma mapE_id (A : Type) (f : A -> exn + A) (l : list A) :
  (forall a, In a l -> f a = inr a) -> mapE f l = inr l.
Proof.
  induction l as [|a l IH]; intros H; simpl; auto.
  rewrite (H a) by (left; reflexivity); simpl.
  rewrite IH by (intros; apply H; right; assumption); reflexivity.
Qed.

Lemma lookup_map_in (A B : Type) (g : A -> B) (l : list (string * A))
    (n : string) (v : A) :
  NoDup (map fst l) -> In (n, v) l ->
  lookup n (map (fun nv => (fst nv, g (snd nv))) l) = inr (g v).
Proof.
  induction l as [|[n' v'] l IH]; intros Hnd Hin; simpl in *; [tauto|].
  inversion Hnd as [|? ? Hnot Hnd']; subst.
  destruct Hin as [Heq|Hin].
  - inversion Heq; subst; rewrite String.eqb_refl; reflexivity.
  - destruct (String.eqb n n') eqn:Hn.
    + apply String.eqb_eq in Hn; subst.
      exfalso; apply Hnot.
      change n' with (fst (n', v)); apply in_map; assumption.
    + apply IH; assumption.
Qed.

Lemma split_tensor_params_names (params : list (string * param))
    (n : string) :
  In n (map fst (split_tensor_params params)) -> In n (map fst params).
Proof.
  induction params as [|[n' [t|o]] params IH]; simpl; auto.
  intros [H|H]; auto.
Qed.

Lemma split_tensor_params_NoDup (params : list (string * param)) :
  NoDup (map fst params) -> NoDup (map fst (split_tensor_params params)).
Proof.
  induction params as [|[n' [t|o]] params IH]; simpl; intros H;
    inversion H; subst; auto.
  constructor; auto.
  intros Hin; apply split_tensor_params_names in Hin; contradiction.
Qed.

Lemma split_tensor_keywords (tp : list (string * tensor V))
    (ntp : list (string * Opaque)) :
  split_tensor_params (keywords tp ntp) = tp.
Proof.
  unfold keywords; induction tp as [|[n t] tp IH]; simpl.
  - induction ntp as [|[n o] ntp IH]; simpl; auto.
  - rewrite IH; reflexivity.
Qed.

Lemma split_nontensor_keywords (tp : list (string * tensor V))
    (ntp : list (string * Opaque)) :
  split_nontensor_params (keywords tp ntp) = ntp.
Proof.
  unfold keywords; induction tp as [|[n t] tp IH]; simpl; auto.
  induction ntp as [|[n o] ntp IH]; simpl; auto.
  rewrite IH; reflexivity.
Qed.

Lemma construct_inv (a1 a2 : tensor V) (f : covar_fn) (n : outputs_arg)
    (params : list (string * param)) (K : KernelLinearOperator) :
  construct a1 a2 f n params = inr K ->
  let tp := split_tensor_params params in
  exists bs,
    broadcast_shapes (batch_shapes a1 a2 tp) = Some bs /\
    batch_broadcast_shape K = bs /\
    expand dflt a1 (bs ++ nonbatch_shape (shape a1)) = inr (x1 K) /\
    expand dflt a2 (bs ++ nonbatch_shape (shape a2)) = inr (x2 K) /\
    mapE (expand_param bs tp) tp = inr (tensor_params K) /\
    nontensor_params K = split_nontensor_params params /\
    covar_func K = f /\
    num_outputs_per_input K = pair_of n /\
    param_batch_shapes K = map (fun nv => (fst nv, bs)) tp /\
    param_nonbatch_shapes K
    = map (fun nv => (fst nv, nonbatch_shape (shape (snd nv)))) tp.
Proof.
  intros H tp; unfold construct in H; fold tp in H.
  rewrite map_map in H; simpl in H.
  change (batch_shape (shape a1) :: batch_shape (shape a2)
          :: map (fun nv => batch_shape (shape (snd nv))) tp)
    with (batch_shapes a1 a2 tp) in H.
  destruct (broadcast_shapes (batch_shapes a1 a2 tp)) as [bs|] eqn:Hb.
  - exists bs.
    destruct (expand dflt a1 _) as [e|y1] eqn:H1; simpl in H; [discriminate|].
    destruct (expand dflt a2 _) as [e|y2] eqn:H2; simpl in H; [discriminate|].
    change (mapE _ tp) with (mapE (expand_param bs tp) tp) in H.
    destruct (mapE (expand_param bs tp) tp) as [e|tp'] eqn:H3; simpl in H;
      [discriminate|].
    inversion H; subst; simpl.
    rewrite map_map; simpl.
    repeat split; auto.
  - destruct (dim_last (shape a1)), (dim_last (shape a2));
      try discriminate.
    match type of H with
    | context [broadcast_shapes ?l] => destruct (broadcast_shapes l)
    end; discriminate.
Qed.

Lemma expand_param_ok (bs : shape_t) (tp : list (string * tensor V))
    (nv : string * tensor V) :
  NoDup (map fst tp) -> In nv tp ->
  expandable (batch_shape (shape (snd nv))) bs = true ->
  expand_param bs tp nv
  = inr (fst nv,
         build (bs ++ nonbatch_shape (shape (snd nv)))
               (fun idx => get dflt (snd nv) (align (shape (snd nv)) idx))).
Proof.
  intros Hnd Hin Hex; unfold expand_param.
  destruct nv as [n v]; simpl in *.
  rewrite (lookup_map_in _ _ (fun t => nonbatch_shape (shape t)) tp n v Hnd Hin).
  simpl; unfold expand.
  rewrite <- (batch_nonbatch (shape v)) at 1.
  rewrite expandable_app by assumption; reflexivity.
Qed.

Lemma expand_ok (t : tensor V) (bs : shape_t) :
  expandable (batch_shape (shape t)) bs = true ->
  expand dflt t (bs ++ nonbatch_shape (shape t))
  = inr (build (bs ++ nonbatch_shape (shape t))
               (fun idx => get dflt t (align (shape t) idx))).
Proof.
  intros H; unfold expand.
  rewrite <- (batch_nonbatch (shape t)) at 1.
  rewrite expandable_app by assumption; reflexivity.
Qed.

Lemma expand_inv (t t' : tensor V) (target : shape_t) :
  expand dflt t target = inr t' ->
  expandable (shape t) target = true /\
  t' = build target (fun idx => get dflt t (align (shape t) idx)).
Proof.
  unfold expand; destruct (expandable (shape t) target); intros H;
    inversion H; auto.
Qed.

(** Construction succeeds as soon as the batch shapes broadcast. *)
Lemma construct_total (a1 a2 : tensor V) (f : covar_fn) (n : outputs_arg)
    (params : list (string * param)) (bs : shape_t) :
  NoDup (map fst params) ->
  broadcast_shapes (batch_shapes a1 a2 (split_tensor_params params))
  = Some bs ->
  exists K, construct a1 a2 f n params = inr K.
Proof.
  intros Hnd Hb.
  pose proof (broadcast_shapes_expandable _ _ Hb) as Hall.
  unfold batch_shapes in Hall.
  inversion Hall as [|? ? H1 Hall1]; subst.
  inversion Hall1 as [|? ? H2 Hall2]; subst.
  unfold construct.
  rewrite map_map; simpl.
  change (batch_shape (shape a1) :: batch_shape (shape a2)
          :: map (fun nv => batch_shape (shape (snd nv)))
                 (split_tensor_params params))
    with (batch_shapes a1 a2 (split_tensor_params params)).
  rewrite Hb.
  rewrite (expand_ok a1 bs H1), (expand_ok a2 bs H2); simpl.
  set (tp := split_tensor_params params) in *.
  change (mapE _ tp) with (mapE (expand_param bs tp) tp).
  destruct (mapE_total _ _ (expand_param bs tp) tp) as [tp' Htp'].
  - apply Forall_forall; intros nv Hin.
    eexists; apply expand_param_ok; auto.
    + apply split_tensor_params_NoDup; assumption.
    + rewrite Forall_map in Hall2.
      rewrite Forall_forall in Hall2; apply Hall2; assumption.
  - rewrite Htp'; simpl; eexists; reflexivity.
Qed.

Lemma shape_expand (t t' : tensor V) (target : shape_t) :
  expand dflt t target = inr t' -> shape t' = target.
Proof. intros H; apply expand_inv in H; destruct H as [_ ->]; reflexivity. Qed.

End ConstructLemmas.

(** ** Size *)

Section SizeTheorems.

Context {E : Env}.

(** C4: an operator constructed over broadcast-compatible inputs, with M
    row points, N column points and output multiplicity (r, c), exists and
    has size: common batch shape, followed by (M * r, N * c). *)
Theorem size_of_constructed (a1 a2 : tensor V) (f : covar_fn)
    (n : outputs_arg) (params : list (string * param))
    (bs1 bs2 bs : shape_t) (m1 d1 m2 d2 : nat) :
  shape a1 = bs1 ++ [m1; d1] ->
  shape a2 = bs2 ++ [m2; d2] ->
  NoDup (map fst params) ->
  broadcast_shapes
    (bs1 :: bs2 :: map (fun nv => batch_shape (shape (snd nv)))
                       (split_tensor_params params)) = Some bs ->
  exists K,
    construct a1 a2 f n params = inr K /\
    _size K = inr (map Z.of_nat bs
                   ++ [(Z.of_nat m1 * fst (pair_of n))%Z;
                       (Z.of_nat m2 * snd (pair_of n))%Z]).
Proof.
  intros Hs1 Hs2 Hnd Hb.
  assert (Hb' : broadcast_shapes
                  (batch_shapes a1 a2 (split_tensor_params params))
                = Some bs).
  { unfold batch_shapes; rewrite Hs1, Hs2, !batch_shape_app2; assumption. }
  destruct (construct_total a1 a2 f n params bs Hnd Hb') as [K HK].
  exists K; split; [assumption|].
  destruct (construct_inv _ _ _ _ _ _ HK)
    as (bs' & Hbs & HB & H1 & H2 & _ & _ & _ & Hn & _).
  rewrite Hb' in Hbs; injection Hbs as <-.
  apply shape_expand in H1; apply shape_expand in H2.
  unfold _size; rewrite Hn, H1, H2, HB, Hs1, Hs2.
  rewrite !nonbatch_shape_app2.
  destruct (pair_of n) as [r c]; simpl fst; simpl snd.
  rewrite !dim_count_app2; reflexivity.
Qed.

End SizeTheorems.

(** ** Construction errors *)

Lemma fold_broadcast_first_failure (l : list shape_t) (acc : shape_t) :
  fold_left broadcast_step l (Some acc) = None ->
  exists pre s post acc',
    l = pre ++ s :: post /\
    fold_left broadcast_step pre (Some acc) = Some acc' /\
    broadcast2 acc' s = None.
Proof.
  revert acc; induction l as [|s l IH]; intros acc H; simpl in H.
  - discriminate.
  - destruct (broadcast2 acc s) as [acc1|] eqn:Hb.
    + destruct (IH _ H) as (pre & s' & post & acc' & -> & Hpre & Hf).
      exists (s :: pre), s', post, acc'; simpl; rewrite Hb; auto.
    + exists [], s, l, acc; auto.
Qed.

Lemma broadcast2_nodata (bs1 bs2 : shape_t) (d1 d2 : nat) :
  broadcast2 bs1 bs2 = None ->
  broadcast2 (bs1 ++ [1; d1]) (bs2 ++ [1; d2]) = None.
Proof.
  unfold broadcast2; rewrite !rev_app_distr; simpl.
  destruct (broadcast_rev (rev bs1) (rev bs2)); [discriminate|reflexivity].
Qed.

Lemma broadcast_shapes_cons2 (a b : shape_t) (l : list shape_t) :
  broadcast_shapes (a :: b :: l) = fold_left broadcast_step l (broadcast2 a b).
Proof.
  unfold broadcast_shapes.
  change (fold_left broadcast_step (a :: b :: l) (Some []))
    with (fold_left broadcast_step l (broadcast_step (broadcast2 [] a) b)).
  rewrite broadcast2_nil_l; reflexivity.
Qed.

Section ConstructErrors.

Context {E : Env}.

(** C5: when the batch shapes of the point sets and of the tensor
    parameters do not broadcast together, construction raises and returns
    no operator.  The error is the data-shape incompatibility, naming both
    point-set shapes, exactly when the two point-set shapes with their count
    replaced by 1 do not broadcast on their own; otherwise it is the
    parameter-shape incompatibility, naming the shapes of the tensor
    parameters, one of which does not broadcast with what comes before
    it. *)
Theorem construct_shape_errors (a1 a2 : tensor V) (f : covar_fn)
    (n : outputs_arg) (params : list (string * param))
    (bs1 bs2 : shape_t) (m1 d1 m2 d2 : nat) :
  shape a1 = bs1 ++ [m1; d1] ->
  shape a2 = bs2 ++ [m2; d2] ->
  broadcast_shapes
    (bs1 :: bs2 :: map (fun nv => batch_shape (shape (snd nv)))
                       (split_tensor_params params)) = None ->
  (forall K, construct a1 a2 f n params <> inr K) /\
  match broadcast_shapes [bs1 ++ [1; d1]; bs2 ++ [1; d2]] with
  | None =>
      construct a1 a2 f n params
      = inl (RuntimeError (IncompatibleDataShapes (shape a1) (shape a2)))
  | Some _ =>
      construct a1 a2 f n params
      = inl (RuntimeError
               (IncompatibleParamShapes
                  (map (fun nv => shape (snd nv))
                       (split_tensor_params params))
                  (shape a1) (shape a2))) /\
      exists pre nv post acc,
        split_tensor_params params = pre ++ nv :: post /\
        broadcast_shapes
          (bs1 :: bs2 :: map (fun nv => batch_shape (shape (snd nv))) pre)
        = Some acc /\
        broadcast2 acc (batch_shape (shape (snd nv))) = None
  end.
Proof.
  intros Hs1 Hs2 Hb.
  set (tp := split_tensor_params params) in *.
  assert (Hc : construct a1 a2 f n params
               = match broadcast_shapes [bs1 ++ [1; d1]; bs2 ++ [1; d2]] with
                 | None =>
                     inl (RuntimeError
                            (IncompatibleDataShapes (shape a1) (shape a2)))
                 | Some _ =>
                     inl (RuntimeError
                            (IncompatibleParamShapes
                               (map (fun nv => shape (snd nv)) tp)
                               (shape a1) (shape a2)))
                 end).
  { unfold construct; fold tp.
    rewrite map_map; simpl.
    rewrite Hs1, Hs2, !batch_shape_app2, !dim_last_app2.
    rewrite Hb; reflexivity. }
  split.
  - intros K; rewrite Hc.
    destruct (broadcast_shapes [bs1 ++ [1; d1]; bs2 ++ [1; d2]]);
      discriminate.
  - destruct (broadcast_shapes [bs1 ++ [1; d1]; bs2 ++ [1; d2]])
      as [r|] eqn:Hnd; [|assumption].
    split; [assumption|].
    rewrite broadcast_shapes_cons2 in Hb, Hnd; simpl in Hnd.
    destruct (broadcast2 bs1 bs2) as [r0|] eqn:H12.
    + destruct (fold_broadcast_first_failure _ _ Hb)
        as (pre & s & post & acc & Hl & Hpre & Hf).
      apply map_eq_app in Hl; destruct Hl as (pre' & rest & Htp & <- & Hrest).
      apply map_eq_cons in Hrest;
        destruct Hrest as (nv & post' & -> & <- & <-).
      exists pre', nv, post', acc; repeat split; auto.
      rewrite broadcast_shapes_cons2, H12; assumption.
    + rewrite (broadcast2_nodata _ _ d1 d2 H12) in Hnd; discriminate.
Qed.

End ConstructErrors.

(** ** The expansion invariant *)

Section Invariant.

Context {E : Env}.

Lemma mapE_Forall2_in (A B : Type) (f : A -> exn + B) (l : list A)
    (r : list B) :
  mapE f l = inr r -> Forall2 (fun a b => In a l /\ f a = inr b) l r.
Proof.
  intros H; apply mapE_Forall2 in H.
  assert (Hgen : forall l0, incl l l0 ->
                 Forall2 (fun a b => In a l0 /\ f a = inr b) l r).
  { induction H as [|a b l r Hab _ IH]; intros l0 Hin; constructor.
    - split; [apply Hin; left; reflexivity | assumption].
    - apply IH; intros x Hx; apply Hin; right; assumption. }
  apply Hgen, incl_refl.
Qed.

Lemma mapE_names (A : Type) (f : string * A -> exn + (string * A))
    (l r : list (string * A)) :
  (forall a b, f a = inr b -> fst b = fst a) ->
  mapE f l = inr r -> map fst r = map fst l.
Proof.
  intros Hf H; apply mapE_Forall2 in H.
  induction H as [|a b l r Hab _ IH]; simpl; auto.
  rewrite (Hf _ _ Hab), IH; reflexivity.
Qed.

Lemma expansion_of_expand (bs : shape_t) (t t' : tensor V) :
  expand dflt t (bs ++ nonbatch_shape (shape t)) = inr t' ->
  expansion_of bs t t'.
Proof.
  intros H; apply expand_inv in H; destruct H as [_ ->]; split; simpl; auto.
  intros idx Hidx; rewrite get_build by assumption; reflexivity.
Qed.

Lemma expand_param_inv (bs : shape_t) (tp : list (string * tensor V))
    (nv nv' : string * tensor V) :
  NoDup (map fst tp) -> In nv tp ->
  expand_param bs tp nv = inr nv' ->
  fst nv' = fst nv /\
  expand dflt (snd nv) (bs ++ nonbatch_shape (shape (snd nv)))
  = inr (snd nv').
Proof.
  intros Hnd Hin; unfold expand_param; destruct nv as [n v]; simpl.
  rewrite (lookup_map_in _ _ (fun t => nonbatch_shape (shape t))
             tp n v Hnd Hin); simpl.
  destruct (expand dflt v _) as [e|v'] eqn:He; simpl; [discriminate|].
  intros H; inversion H; subst; auto.
Qed.

Lemma expand_param_names (bs : shape_t) (tp : list (string * tensor V))
    (nv nv' : string * tensor V) :
  expand_param bs tp nv = inr nv' -> fst nv' = fst nv.
Proof.
  unfold expand_param.
  destruct (lookup _ _) as [e|nb]; simpl; [discriminate|].
  destruct (expand dflt _ _) as [e|v']; simpl; [discriminate|].
  intros H; inversion H; reflexivity.
Qed.

(** What [__init__] stores is the expansion of what it was given. *)
Lemma construct_expanded (a1 a2 : tensor V) (f : covar_fn) (n : outputs_arg)
    (params : list (string * param)) (K : KernelLinearOperator) :
  NoDup (map fst (split_tensor_params params)) ->
  construct a1 a2 f n params = inr K ->
  expanded_from a1 a2 (split_tensor_params params) K.
Proof.
  intros Hnd HK.
  destruct (construct_inv _ _ _ _ _ _ HK)
    as (bs & Hbs & HB & H1 & H2 & H3 & _ & _ & _ & Hpb & _).
  unfold expanded_from; rewrite HB.
  repeat split.
  - assumption.
  - apply expansion_of_expand in H1; apply H1.
  - apply expansion_of_expand in H1; apply H1.
  - apply expansion_of_expand in H2; apply H2.
  - apply expansion_of_expand in H2; apply H2.
  - apply mapE_Forall2_in in H3.
    eapply Forall2_impl; [|exact H3].
    intros nv nv' [Hin Hex]; simpl in Hex.
    destruct (expand_param_inv _ _ _ _ Hnd Hin Hex) as [Hn Hx].
    split; [assumption | apply expansion_of_expand; assumption].
  - rewrite Hpb; apply Forall_map; apply Forall_forall; reflexivity.
Qed.

Lemma construct_names (a1 a2 : tensor V) (f : covar_fn) (n : outputs_arg)
    (params : list (string * param)) (K : KernelLinearOperator) :
  construct a1 a2 f n params = inr K ->
  map fst (tensor_params K) = map fst (split_tensor_params params).
Proof.
  intros HK.
  destruct (construct_inv _ _ _ _ _ _ HK)
    as (bs & _ & _ & _ & _ & H3 & _).
  eapply mapE_names; [|exact H3].
  intros a b; apply expand_param_names.
Qed.

(** Every derived instance is built by [__init__], so its stored tensors
    share its batch shape. *)
Lemma derive_batch_aligned (K K' : KernelLinearOperator) (y1 y2 : tensor V)
    (tp : list (string * tensor V)) :
  map fst tp = map fst (tensor_params K) ->
  NoDup (map fst (tensor_params K)) ->
  derive K y1 y2 tp = inr K' ->
  batch_aligned K'.
Proof.
  intros Hn Hnd H; unfold derive in H.
  exists y1, y2, tp.
  rewrite <- (split_tensor_keywords tp (nontensor_params K)).
  eapply construct_expanded; [|exact H].
  rewrite split_tensor_keywords, Hn; assumption.
Qed.

End Invariant.

(** ** Reasoning about the cache monad *)

Section MonadLemmas.

Context {E : Env}.

Lemma bind_inr (A B : Type) (m : M A) (k : A -> M B) (h h' : heap) (b : B) :
  bind m k h = (inr b, h') ->
  exists a h1, m h = (inr a, h1) /\ k a h1 = (inr b, h').
Proof.
  unfold bind; destruct (m h) as [[e|a] h1]; intros H;
    [discriminate | eauto].
Qed.

Lemma bind_ok (A B : Type) (m : M A) (k : A -> M B) (h h1 : heap) (a : A) :
  m h = (inr a, h1) -> bind m k h = k a h1.
Proof. unfold bind; intros ->; reflexivity. Qed.

Lemma bind_fail (A B : Type) (m : M A) (k : A -> M B) (h h1 : heap)
    (e : exn) :
  m h = (inl e, h1) -> bind m k h = (inl e, h1).
Proof. unfold bind; intros ->; reflexivity. Qed.

Lemma lift_inr (A : Type) (m : exn + A) (h h' : heap) (a : A) :
  lift m h = (inr a, h') -> m = inr a /\ h' = h.
Proof. unfold lift; intros H; inversion H; auto. Qed.

Lemma try_except_inr (A : Type) (body : M A) (handler : exn -> M A)
    (h h' : heap) (a : A) :
  try_except body handler h = (inr a, h') ->
  body h = (inr a, h') \/
  exists e h1, body h = (inl e, h1) /\ handler e h1 = (inr a, h').
Proof.
  unfold try_except; destruct (body h) as [[e|a'] h1]; intros H; eauto.
Qed.

Lemma bind_raise_not_inr (A B : Type) (m : M A) (e : A -> exn)
    (h h' : heap) (b : B) :
  bind m (fun a => raise (e a)) h <> (inr b, h').
Proof.
  unfold bind, raise; destruct (m h) as [[e'|a] h1]; discriminate.
Qed.

Lemma covar_mat_getitem_inr (self : KernelLinearOperator)
    (row_index col_index : index) (batch_indices : list index)
    (h h' : heap) (r : getitem_result) :
  covar_mat_getitem self row_index col_index batch_indices h = (inr r, h') ->
  exists l, r = RLinOp l.
Proof.
  unfold covar_mat_getitem; intros H.
  apply bind_inr in H; destruct H as (cm & h1 & _ & H).
  destruct cm as [t|l]; [discriminate|].
  apply bind_inr in H; destruct H as (r' & h2 & _ & H).
  inversion H; eauto.
Qed.

End MonadLemmas.

(** ** Derived instances *)

Section Derived.

Context {E : Env}.

Lemma bindE_inr (A B : Type) (m : exn + A) (k : A -> exn + B) (b : B) :
  bindE m k = inr b -> exists a, m = inr a /\ k a = inr b.
Proof. destruct m as [e|a]; simpl; intros H; [discriminate | eauto]. Qed.

(** A parameter-wise transformation keeps the parameter names. *)
Lemma mapE_snd_names (A : Type) (g : string * A -> exn + A)
    (l r : list (string * A)) :
  mapE (fun nv => v <- g nv ;; inr (fst nv, v)) l = inr r ->
  map fst r = map fst l.
Proof.
  apply mapE_names; intros a b H.
  apply bindE_inr in H; destruct H as (v & _ & H); inversion H; reflexivity.
Qed.

Lemma transpose_batch_aligned (K K' : KernelLinearOperator) :
  NoDup (map fst (tensor_params K)) ->
  _transpose_nonbatch K = inr K' -> batch_aligned K'.
Proof.
  intros Hnd H; unfold _transpose_nonbatch in H.
  eapply derive_batch_aligned; [reflexivity | exact Hnd | exact H].
Qed.

Lemma unsqueeze_batch_aligned (K K' : KernelLinearOperator) (dim : Z) :
  NoDup (map fst (tensor_params K)) ->
  _unsqueeze_batch K dim = inr K' -> batch_aligned K'.
Proof.
  intros Hnd H; unfold _unsqueeze_batch in H.
  apply bindE_inr in H; destruct H as (y1 & _ & H).
  apply bindE_inr in H; destruct H as (y2 & _ & H).
  apply bindE_inr in H; destruct H as (tp & Htp & H).
  eapply derive_batch_aligned; [|exact Hnd | exact H].
  exact (mapE_snd_names _ (fun nv => unsqueeze (snd nv) dim) _ _ Htp).
Qed.

Lemma permute_batch_aligned (K K' : KernelLinearOperator) (dims : list Z) :
  NoDup (map fst (tensor_params K)) ->
  _permute_batch K dims = inr K' -> batch_aligned K'.
Proof.
  intros Hnd H; unfold _permute_batch in H.
  apply bindE_inr in H; destruct H as (y1 & _ & H).
  apply bindE_inr in H; destruct H as (y2 & _ & H).
  apply bindE_inr in H; destruct H as (tp & Htp & H).
  eapply derive_batch_aligned; [|exact Hnd | exact H].
  eapply mapE_names; [|exact Htp].
  intros a b Hab; simpl in Hab.
  apply bindE_inr in Hab; destruct Hab as (nb & _ & Hab).
  apply bindE_inr in Hab; destruct Hab as (v & _ & Hab).
  inversion Hab; reflexivity.
Qed.

Lemma getitem_points_batch_aligned (K K' : KernelLinearOperator)
    (row_index col_index : index) (batch_indices : list index)
    (h h' : heap) :
  NoDup (map fst (tensor_params K)) ->
  getitem_points K row_index col_index batch_indices h
  = (inr (RKernel K'), h') ->
  batch_aligned K'.
Proof.
  intros Hnd H; unfold getitem_points in H.
  apply bind_inr in H; destruct H as (y1 & h1 & _ & H).
  apply bind_inr in H; destruct H as (y2 & h2 & _ & H).
  apply bind_inr in H; destruct H as (tp & h3 & Htp & H).
  apply bind_inr in H; destruct H as (k & h4 & Hk & H).
  apply lift_inr in Htp; destruct Htp as [Htp _].
  apply lift_inr in Hk; destruct Hk as [Hk _].
  inversion H; subst.
  eapply derive_batch_aligned; [|exact Hnd | exact Hk].
  eapply mapE_names; [|exact Htp].
  intros a b Hab; simpl in Hab.
  apply bindE_inr in Hab; destruct Hab as (nb & _ & Hab).
  apply bindE_inr in Hab; destruct Hab as (v & _ & Hab).
  inversion Hab; reflexivity.
Qed.

Ltac no_kernel_from_fallback H :=
  apply try_except_inr in H;
  destruct H as [H | (e & h1 & _ & H)];
  [ apply covar_mat_getitem_inr in H; destruct H as [l H]; discriminate
  | first [ discriminate
          | exfalso; eapply bind_raise_not_inr; exact H ] ].

Lemma getitem_batch_aligned (K K' : KernelLinearOperator)
    (row_index col_index : index) (batch_indices : list index)
    (h h' : heap) :
  NoDup (map fst (tensor_params K)) ->
  _getitem K row_index col_index batch_indices h = (inr (RKernel K'), h') ->
  batch_aligned K'.
Proof.
  intros Hnd H; unfold _getitem in H.
  destruct (num_outputs_per_input K) as [r c].
  destruct (negb (r =? 1)%Z || negb (c =? 1)%Z).
  - destruct (negb (is_slice row_index) || negb (is_slice col_index)).
    + no_kernel_from_fallback H.
    + apply bind_inr in H; destruct H as (sz & h0 & _ & H).
      destruct (is_not_None _ || is_not_None _).
      * no_kernel_from_fallback H.
      * apply bind_inr in H; destruct H as (mis & h2 & _ & H).
        destruct mis.
        -- no_kernel_from_fallback H.
        -- eapply getitem_points_batch_aligned; eauto.
  - eapply getitem_points_batch_aligned; eauto.
Qed.

End Derived.

(** ** Re-deriving from stored tensors *)

Lemma batch_shape_app_nonbatch (bs s : shape_t) :
  2 <= length s -> batch_shape (bs ++ nonbatch_shape s) = bs.
Proof.
  intros H; destruct (shape_split s H) as (b & m & d & ->).
  rewrite nonbatch_shape_app2; apply batch_shape_app2.
Qed.

Lemma nonbatch_shape_app_nonbatch (bs s : shape_t) :
  2 <= length s ->
  nonbatch_shape (bs ++ nonbatch_shape s) = nonbatch_shape s.
Proof.
  intros H; destruct (shape_split s H) as (b & m & d & ->).
  rewrite nonbatch_shape_app2; apply nonbatch_shape_app2.
Qed.

Section Rederive.

Context {E : Env}.

Lemma construct_stored_ok (a1 a2 : tensor V) (f : covar_fn) (n : outputs_arg)
    (params : list (string * param)) (K : KernelLinearOperator) :
  valid_inputs a1 a2 params ->
  construct a1 a2 f n params = inr K ->
  stored_ok K.
Proof.
  intros (Hr1 & Hr2 & Hrp & Hnd) HK.
  pose proof (construct_names _ _ _ _ _ _ HK) as Hnames.
  destruct (construct_inv _ _ _ _ _ _ HK)
    as (bs & Hbs & HB & H1 & H2 & H3 & _ & _ & _ & Hpb & Hpn).
  set (tp := split_tensor_params params) in *.
  assert (HF : Forall2 (fun nv nv' =>
                          fst nv' = fst nv /\ wf (snd nv') /\
                          shape (snd nv')
                          = bs ++ nonbatch_shape (shape (snd nv)) /\
                          2 <= length (shape (snd nv)))
                       tp (tensor_params K)).
  { apply mapE_Forall2_in in H3.
    eapply Forall2_impl; [|exact H3].
    intros nv nv' [Hin Hex]; simpl in Hex.
    destruct (expand_param_inv _ _ _ _ Hnd Hin Hex) as [Hn Hx].
    rewrite Forall_forall in Hrp.
    repeat split; auto.
    - eapply wf_expand; exact Hx.
    - eapply shape_expand; exact Hx. }
  unfold stored_ok; rewrite HB.
  split; [eapply wf_expand; exact H1|].
  split; [eapply wf_expand; exact H2|].
  split; [rewrite (shape_expand _ _ _ H1);
          apply batch_shape_app_nonbatch; assumption|].
  split; [rewrite (shape_expand _ _ _ H2);
          apply batch_shape_app_nonbatch; assumption|].
  split.
  { clear - HF; induction HF as [|nv nv' l r (Hn & Hwf & Hs & Hr) _ IH];
      constructor; auto.
    split; [assumption|].
    split; [rewrite Hs; apply batch_shape_app_nonbatch; assumption|].
    rewrite Hs, length_app, length_nonbatch_shape by assumption; lia. }
  split; [rewrite Hnames; assumption|].
  split.
  { rewrite Hpb; clear - HF.
    induction HF as [|nv nv' l r (Hn & _) _ IH]; simpl; auto.
    rewrite Hn, IH; reflexivity. }
  { rewrite Hpn; clear - HF.
    induction HF as [|nv nv' l r (Hn & Hwf & Hs & Hr) _ IH]; simpl; auto.
    rewrite Hn, IH, Hs, nonbatch_shape_app_nonbatch by assumption.
    reflexivity. }
Qed.

(** Constructing again from stored tensors stores them unchanged. *)
Lemma derive_stored (K : KernelLinearOperator) (y1 y2 : tensor V) :
  stored_ok K ->
  wf y1 -> wf y2 ->
  batch_shape (shape y1) = batch_broadcast_shape K ->
  batch_shape (shape y2) = batch_broadcast_shape K ->
  derive K y1 y2 (tensor_params K) = inr (with_points K y1 y2).
Proof.
  intros (_ & _ & _ & _ & Hp & Hnd & Hpb & Hpn) Hw1 Hw2 Hb1 Hb2.
  set (bs := batch_broadcast_shape K) in *.
  unfold derive, construct.
  rewrite split_tensor_keywords, split_nontensor_keywords.
  rewrite map_map; simpl.
  rewrite broadcast_shapes_cons2, Hb1, Hb2, broadcast2_same.
  rewrite fold_broadcast_same.
  2:{ apply Forall_map; eapply Forall_impl; [|exact Hp].
      intros nv (_ & H & _); exact H. }
  rewrite <- Hb1 at 1; rewrite batch_nonbatch, (expand_same _ _ y1 Hw1); simpl.
  rewrite <- Hb2 at 1; rewrite batch_nonbatch, (expand_same _ _ y2 Hw2); simpl.
  change (mapE _ (tensor_params K))
    with (mapE (expand_param bs (tensor_params K)) (tensor_params K)).
  rewrite (mapE_id _ (expand_param bs (tensor_params K))).
  2:{ intros [n v] Hin; unfold expand_param; simpl.
      rewrite (lookup_map_in _ _ (fun t => nonbatch_shape (shape t))
                 _ n v Hnd Hin); simpl.
      rewrite Forall_forall in Hp; destruct (Hp _ Hin) as (Hwf & Hbv & _).
      simpl in Hwf, Hbv; rewrite <- Hbv, batch_nonbatch.
      rewrite (expand_same _ _ v Hwf); reflexivity. }
  simpl; unfold with_points; f_equal.
  rewrite map_map; simpl.
  rewrite Hpb, Hpn; fold bs.
  destruct (num_outputs_per_input K); reflexivity.
Qed.

Lemma stored_ok_with_points (K : KernelLinearOperator) (y1 y2 : tensor V) :
  stored_ok K ->
  wf y1 -> wf y2 ->
  batch_shape (shape y1) = batch_broadcast_shape K ->
  batch_shape (shape y2) = batch_broadcast_shape K ->
  stored_ok (with_points K y1 y2).
Proof.
  intros (_ & _ & _ & _ & H) Hw1 Hw2 Hb1 Hb2.
  unfold stored_ok; simpl; auto.
Qed.

(** What [_transpose_nonbatch] returns. *)
Lemma transpose_stored (K : KernelLinearOperator) :
  stored_ok K ->
  _transpose_nonbatch K = inr (with_points K (x2 K) (x1 K)).
Proof.
  intros H; pose proof H as (Hw1 & Hw2 & Hb1 & Hb2 & _).
  unfold _transpose_nonbatch; apply derive_stored; assumption.
Qed.

End Rederive.

(** ** The common batch shape *)

Section CommonBatchShape.

Context {E : Env}.

(** [__init__] returns an instance whenever the batch shapes broadcast and
    the names of the tensor parameters are distinct. *)
Lemma construct_succeeds (a1 a2 : tensor V) (f : covar_fn) (n : outputs_arg)
    (params : list (string * param)) (bs : shape_t) :
  NoDup (map fst (split_tensor_params params)) ->
  broadcast_shapes (batch_shapes a1 a2 (split_tensor_params params))
  = Some bs ->
  exists K, construct a1 a2 f n params = inr K.
Proof.
  intros Hnd Hb.
  pose proof (broadcast_shapes_expandable _ _ Hb) as Hall.
  unfold batch_shapes in Hall.
  inversion Hall as [|? ? H1 Hall1]; subst.
  inversion Hall1 as [|? ? H2 Hall2]; subst.
  unfold construct.
  rewrite map_map; simpl.
  change (batch_shape (shape a1) :: batch_shape (shape a2)
          :: map (fun nv => batch_shape (shape (snd nv)))
                 (split_tensor_params params))
    with (batch_shapes a1 a2 (split_tensor_params params)).
  rewrite Hb.
  rewrite (expand_ok a1 bs H1), (expand_ok a2 bs H2); simpl.
  set (tp := split_tensor_params params) in *.
  change (mapE _ tp) with (mapE (expand_param bs tp) tp).
  destruct (mapE_total _ _ (expand_param bs tp) tp) as [tp' Htp'].
  - apply Forall_forall; intros nv Hin.
    eexists; apply expand_param_ok; auto.
    rewrite Forall_map in Hall2.
    rewrite Forall_forall in Hall2; apply Hall2; assumption.
  - rewrite Htp'; simpl; eexists; reflexivity.
Qed.

(** C7: when the batch shapes of the point sets and of the tensor
    parameters broadcast, [__init__] returns an instance whose batch shape is
    the broadcast shape; its row set, column set and tensor parameters all
    have that batch shape, each followed by its own trailing two dimensions,
    and every element of an expanded tensor is an element of the tensor it
    was expanded from (the one at the same index, with 0 along the
    dimensions of size 1).  For inputs of at least two dimensions the
    transposed instance exists, and every derived instance, being built by
    the same constructor, has its tensors aligned in the same way. *)
Theorem construct_expands_to_common_batch_shape (a1 a2 : tensor V)
    (f : covar_fn) (n : outputs_arg) (params : list (string * param))
    (bs : shape_t) :
  NoDup (map fst (split_tensor_params params)) ->
  broadcast_shapes (batch_shapes a1 a2 (split_tensor_params params))
  = Some bs ->
  exists K,
    construct a1 a2 f n params = inr K /\
    batch_broadcast_shape K = bs /\
    expanded_from a1 a2 (split_tensor_params params) K /\
    (valid_inputs a1 a2 params ->
     exists K', _transpose_nonbatch K = inr K' /\ batch_aligned K') /\
    (forall K', _transpose_nonbatch K = inr K' -> batch_aligned K') /\
    (forall dim K', _unsqueeze_batch K dim = inr K' -> batch_aligned K') /\
    (forall dims K', _permute_batch K dims = inr K' -> batch_aligned K') /\
    (forall row_index col_index batch_indices h K' h',
        _getitem K row_index col_index batch_indices h
        = (inr (RKernel K'), h') ->
        batch_aligned K').
Proof.
  intros Hnd Hb.
  destruct (construct_succeeds a1 a2 f n params bs Hnd Hb) as [K HK].
  exists K; split; [exact HK|].
  assert (HndK : NoDup (map fst (tensor_params K))).
  { rewrite (construct_names _ _ _ _ _ _ HK); assumption. }
  pose proof (construct_expanded _ _ _ _ _ _ Hnd HK) as Hexp.
  split.
  { destruct Hexp as (Hb' & _); rewrite Hb in Hb'; congruence. }
  split; [exact Hexp|].
  split.
  { intros Hv.
    pose proof (construct_stored_ok _ _ _ _ _ _ Hv HK) as Hok.
    exists (with_points K (x2 K) (x1 K)).
    split; [apply transpose_stored; assumption|].
    apply (transpose_batch_aligned K); [assumption|].
    apply transpose_stored; assumption. }
  split; [intros K'; apply transpose_batch_aligned; assumption|].
  split; [intros dim K'; apply unsqueeze_batch_aligned; assumption|].
  split; [intros dims K'; apply permute_batch_aligned; assumption|].
  intros row_index col_index batch_indices h K' h'.
  apply getitem_batch_aligned; assumption.
Qed.

End CommonBatchShape.

(** ** Transposition *)

Section Transpose.

Context {E : Env}.

(** What [_transpose_nonbatch] does to an instance built from valid
    inputs: the point sets are swapped and everything else is kept, the
    pair [num_outputs_per_input] included. *)
Lemma transpose_fields (a1 a2 : tensor V) (f : covar_fn) (n : outputs_arg)
    (params : list (string * param)) (K : KernelLinearOperator) :
  valid_inputs a1 a2 params ->
  construct a1 a2 f n params = inr K ->
  exists K',
    _transpose_nonbatch K = inr K' /\
    x1 K' = x2 K /\ x2 K' = x1 K /\
    covar_func K' = covar_func K /\
    tensor_params K' = tensor_params K /\
    nontensor_params K' = nontensor_params K /\
    num_outputs_per_input K' = num_outputs_per_input K.
Proof.
  intros Hv HK.
  pose proof (construct_stored_ok _ _ _ _ _ _ Hv HK) as Hok.
  exists (with_points K (x2 K) (x1 K)).
  split; [apply transpose_stored; assumption|].
  simpl; repeat split.
Qed.

(** C6: transposing twice gives back the operator: the same size, the same
    diagonal and the same dense matrix. *)
Theorem double_transpose (a1 a2 : tensor V) (f : covar_fn) (n : outputs_arg)
    (params : list (string * param)) (K : KernelLinearOperator) :
  valid_inputs a1 a2 params ->
  construct a1 a2 f n params = inr K ->
  exists K' K'',
    _transpose_nonbatch K = inr K' /\
    _transpose_nonbatch K' = inr K'' /\
    _size K'' = _size K /\
    (forall h, _diagonal K'' h = _diagonal K h) /\
    (forall h, covar_mat K'' h = covar_mat K h).
Proof.
  intros Hv HK.
  pose proof (construct_stored_ok _ _ _ _ _ _ Hv HK) as Hok.
  pose proof Hok as (Hw1 & Hw2 & Hb1 & Hb2 & _).
  exists (with_points K (x2 K) (x1 K)), K.
  split; [apply transpose_stored; assumption|].
  split; [|repeat split].
  rewrite transpose_stored
    by (apply stored_ok_with_points; assumption).
  simpl; f_equal; destruct K; reflexivity.
Qed.

End Transpose.

(** ** Indexing a multi-output operator *)

Section MultiOutputGetitem.

Context {E : Env}.

(** With more than one output per input and two slice indices, [_getitem]
    always takes the branch guarded by [row_step is not None or col_step is
    not None]: both steps have just been given an integer value.  The
    division of the bounds below that branch is never reached. *)
Lemma multi_output_slices_delegate (K : KernelLinearOperator)
    (a b c a' b' c' : option Z) (batch_indices : list index) (sz : list Z)
    (h : heap) :
  fst (num_outputs_per_input K) <> 1%Z \/
  snd (num_outputs_per_input K) <> 1%Z ->
  _size K = inr sz ->
  _getitem K (ISlice a b c) (ISlice a' b' c') batch_indices h
  = try_except
      (covar_mat_getitem K (ISlice a b c) (ISlice a' b' c') batch_indices)
      (fun _ => cm <~ covar_mat K ;;
                raise (TypeError (NoSlicesWithSteps (class_name cm)))) h.
Proof.
  intros Hrc Hsz; unfold _getitem.
  destruct (num_outputs_per_input K) as [r cc]; simpl in Hrc.
  assert (Hcond : negb (r =? 1)%Z || negb (cc =? 1)%Z = true).
  { apply orb_true_iff; destruct Hrc as [H|H]; [left|right];
      apply negb_true_iff, Z.eqb_neq; assumption. }
  rewrite Hcond; simpl.
  rewrite Hsz; unfold bind, lift; simpl.
  destruct c, c'; reflexivity.
Qed.

(** When the covariance function raises and nothing is cached, the handler
    of that branch evaluates [self.covar_mat] again for its message, and
    the exception of the covariance function leaves [_getitem]. *)
Lemma multi_output_slices_covar_failure (K : KernelLinearOperator)
    (a b c a' b' c' : option Z) (batch_indices : list index) (sz : list Z)
    (h : heap) (e : exn) :
  fst (num_outputs_per_input K) <> 1%Z \/
  snd (num_outputs_per_input K) <> 1%Z ->
  _size K = inr sz ->
  covar_mat_cache h = None ->
  covar_func K (x1 K) (x2 K) (tensor_params K) (nontensor_params K) = inl e ->
  fst (_getitem K (ISlice a b c) (ISlice a' b' c') batch_indices h) = inl e.
Proof.
  intros Hrc Hsz Hc He.
  rewrite (multi_output_slices_delegate K a b c a' b' c' batch_indices sz h)
    by assumption.
  destruct h as [kd cm calls]; simpl in Hc; subst cm.
  unfold try_except, covar_mat_getitem, bind, covar_mat, cached, call_covar.
  simpl; rewrite He; reflexivity.
Qed.

End MultiOutputGetitem.

(** The operator of the examples: 3 row points, 4 column points, two rows
    per row point. *)
Lemma construct_two_rows (f : @covar_fn Z_env) :
  construct rows3 cols4 f (OPair 2 1) []
  = inr (example_operator rows3 cols4 f (2, 1)%Z).
Proof. reflexivity. Qed.

(** C1: for the operator with multiplicity (2, 1) over 3 row and 4 column
    points, the rows [0:4] (bounds divisible by 2, step 1) and all columns
    are not taken from re-sliced point sets: [_getitem] calls the covariance
    function, caches the dense 6 by 4 matrix and returns rows 0 to 3 of
    it. *)
Theorem getitem_aligned_slices_materialize :
  let K := example_operator rows3 cols4
             (lazy (block_covar 2 1 two_row_kernel)) (2, 1)%Z in
  construct rows3 cols4 (lazy (block_covar 2 1 two_row_kernel))
            (OPair 2 1) [] = inr K /\
  exists h',
    _getitem K (ISlice (Some 0%Z) (Some 4%Z) None) _noop_index []
             empty_heap
    = (inr (RLinOp (Tensor [4; 4]
                      [1; 0; 2; -1; 2; 0; 4; -2;
                       2; 1; 2; 3; 4; 2; 4; 6]%Z)), h') /\
    covar_calls h' = 1 /\
    covar_mat_cache h'
    = Some (OutLinOp (Tensor [6; 4]
                        [1; 0; 2; -1; 2; 0; 4; -2; 2; 1; 2; 3;
                         4; 2; 4; 6; 3; 1; 4; 2; 6; 2; 8; 4]%Z)).
Proof.
  intros K; split; [apply construct_two_rows|].
  eexists; split; [|split].
  - unfold K, _noop_index.
    rewrite (multi_output_slices_delegate _ _ _ _ _ _ _ [] [6; 4]%Z _)
      by (try reflexivity; left; discriminate).
    vm_compute; reflexivity.
  - reflexivity.
  - reflexivity.
Qed.

(** C2: transposing the operator with multiplicity (2, 1) over 3 row and
    4 column points, of size (6, 4), gives an operator that still has
    multiplicity (2, 1), and so the size (8, 3) instead of (4, 6). *)
Theorem transpose_keeps_multiplicity :
  let K := example_operator rows3 cols4
             (block_covar 2 1 two_row_kernel) (2, 1)%Z in
  construct rows3 cols4 (block_covar 2 1 two_row_kernel) (OPair 2 1) []
  = inr K /\
  _size K = inr [6; 4]%Z /\
  exists K',
    _transpose_nonbatch K = inr K' /\
    x1 K' = x2 K /\ x2 K' = x1 K /\
    num_outputs_per_input K' = (2, 1)%Z /\
    _size K' = inr [8; 3]%Z.
Proof.
  intros K.
  assert (HK : construct rows3 cols4 (block_covar 2 1 two_row_kernel)
                         (OPair 2 1) [] = inr K)
    by apply construct_two_rows.
  split; [exact HK|].
  split; [reflexivity|].
  assert (Hv : valid_inputs rows3 cols4 []).
  { repeat split; simpl; try lia; constructor. }
  pose proof (construct_stored_ok _ _ _ _ _ _ Hv HK) as Hok.
  exists (with_points K (x2 K) (x1 K)).
  split; [apply transpose_stored; assumption|].
  repeat split.
Qed.

(** C10: for the operator with multiplicity (2, 1) whose covariance
    function raises a RuntimeError, indexing the rows [0:2] raises that
    RuntimeError, not a TypeError: the handler calls the covariance function
    a second time while it builds its message. *)
Theorem getitem_propagates_covar_error :
  let K := example_operator rows3 cols4 failing_covar (2, 1)%Z in
  construct rows3 cols4 failing_covar (OPair 2 1) [] = inr K /\
  exists h',
    _getitem K (ISlice (Some 0%Z) (Some 2%Z) None) _noop_index []
             empty_heap
    = (inl (RuntimeError (CovarFailure "not positive definite")), h') /\
    covar_calls h' = 2.
Proof.
  intros K; split; [apply construct_two_rows|].
  eexists; split.
  - unfold K, _noop_index.
    rewrite (multi_output_slices_delegate _ _ _ _ _ _ _ [] [6; 4]%Z _)
      by (try reflexivity; left; discriminate).
    vm_compute; reflexivity.
  - reflexivity.
Qed.

(** ** The batch-rank fallback *)

Section Fallback.

Context {E : Env}.

Lemma index_point_set_rejects (x : tensor V) (batch_indices : list index)
    (index fallback_index dim_index : index) (h : heap) :
  tensor_getitem x (batch_indices ++ [index; dim_index]) = inl IndexError ->
  existsb (fun bi => negb (is_slice bi)) batch_indices = true ->
  index_point_set x batch_indices index fallback_index dim_index h
  = (inl (RuntimeError (TensorIndexNonBatch batch_indices)), h).
Proof.
  intros Hx Hb; unfold index_point_set; rewrite Hx, Hb; reflexivity.
Qed.

Lemma index_point_set_direct (x y : tensor V) (batch_indices : list index)
    (index fallback_index dim_index : index) (h : heap) :
  tensor_getitem x (batch_indices ++ [index; dim_index]) = inr y ->
  index_point_set x batch_indices index fallback_index dim_index h
  = (inr y, h).
Proof. intros Hx; unfold index_point_set; rewrite Hx; reflexivity. Qed.

(** C8: when indexing a stored point set with the batch indices raises an
    IndexError, so that the handler with the size-1 expansion runs, and some
    batch index is not a slice, the lookup raises the RuntimeError about
    tensor-indexing a non-batch matrix; nothing is indexed.  This is so for
    the row set, and for the column set when the row set could be indexed;
    [_getitem] reaches these lookups when both output multiplicities are
    1. *)
Theorem fallback_rejects_non_slice_batch_index (K : KernelLinearOperator)
    (row_index col_index : index) (batch_indices : list index) (h : heap) :
  existsb (fun bi => negb (is_slice bi)) batch_indices = true ->
  tensor_getitem (x1 K) (batch_indices ++ [row_index; _noop_index])
  = inl IndexError \/
  ((exists y1,
       tensor_getitem (x1 K) (batch_indices ++ [row_index; _noop_index])
       = inr y1) /\
   tensor_getitem (x2 K) (batch_indices ++ [col_index; _noop_index])
   = inl IndexError) ->
  getitem_points K row_index col_index batch_indices h
  = (inl (RuntimeError (TensorIndexNonBatch batch_indices)), h) /\
  (num_outputs_per_input K = (1, 1)%Z ->
   _getitem K row_index col_index batch_indices h
   = (inl (RuntimeError (TensorIndexNonBatch batch_indices)), h)).
Proof.
  intros Hb Hx.
  assert (Hp : getitem_points K row_index col_index batch_indices h
               = (inl (RuntimeError (TensorIndexNonBatch batch_indices)), h)).
  { unfold getitem_points.
    destruct Hx as [Hx1 | [[y1 Hx1] Hx2]].
    - apply bind_fail; apply index_point_set_rejects; assumption.
    - rewrite (bind_ok _ _ _ _ h h y1)
        by (apply index_point_set_direct; assumption).
      apply bind_fail; apply index_point_set_rejects; assumption. }
  split; [assumption|].
  intros Hn; unfold _getitem; rewrite Hn; simpl; assumption.
Qed.

End Fallback.

(** ** Indexing lemmas *)

Lemma slice_indices_noop (n : nat) :
  slice_indices None None None n = inr (Span 0 1 n).
Proof.
  unfold slice_indices; simpl.
  destruct (Z.of_nat n <=? 0)%Z eqn:Hn.
  - apply Z.leb_le in Hn; replace n with 0 by lia; reflexivity.
  - rewrite Z.sub_0_r, Z.add_simpl_r, Z.div_1_r, Nat2Z.id; reflexivity.
Qed.

Lemma resolve_picks (b : list nat) (bs : shape_t) (idxs : list index)
    (s : shape_t) :
  in_range bs b ->
  resolve (map nat_index b ++ idxs) (bs ++ s)
  = bindE (resolve idxs s) (fun r => inr (map Pick b ++ r)).
Proof.
  unfold in_range; induction 1 as [|i n b bs Hi _ IH]; simpl.
  - destruct (resolve idxs s); reflexivity.
  - assert (Hr : ((- Z.of_nat n <=? Z.of_nat i)
                  && (Z.of_nat i <? Z.of_nat n))%Z = true).
    { apply andb_true_iff; split; [apply Z.leb_le | apply Z.ltb_lt]; lia. }
    rewrite Hr, IH.
    rewrite Z.mod_small by lia; rewrite Nat2Z.id.
    destruct (resolve idxs s); reflexivity.
Qed.

Lemma resolve_noops (s1 : shape_t) (idxs : list index) (s : shape_t) :
  resolve (repeat _noop_index (length s1) ++ idxs) (s1 ++ s)
  = bindE (resolve idxs s) (fun r => inr (map (fun n => Span 0 1 n) s1 ++ r)).
Proof.
  unfold _noop_index; induction s1 as [|n s1 IH].
  - simpl; destruct (resolve idxs s); reflexivity.
  - cbn [length repeat app resolve map].
    rewrite slice_indices_noop, IH.
    destruct (resolve idxs s); reflexivity.
Qed.

Lemma resolve_zero (n : nat) (idxs : list index) (s : shape_t) :
  0 < n ->
  resolve (IInt 0 :: idxs) (n :: s)
  = bindE (resolve idxs s) (fun r => inr (Pick 0 :: r)).
Proof.
  intros Hn; exact (resolve_picks [0] [n] idxs s
                      (Forall2_cons _ _ Hn (Forall2_nil _))).
Qed.

Lemma sel_shape_picks (b : list nat) (r : list sel) :
  sel_shape (map Pick b ++ r) = sel_shape r.
Proof. induction b; simpl; auto. Qed.

Lemma sel_src_picks (b : list nat) (r : list sel) (ridx : list nat) :
  sel_src (map Pick b ++ r) ridx = b ++ sel_src r ridx.
Proof. induction b; simpl; [|rewrite IHb]; reflexivity. Qed.

Lemma sel_shape_spans (s : shape_t) (r : list sel) :
  sel_shape (map (fun n => Span 0 1 n) s ++ r) = s ++ sel_shape r.
Proof. induction s; simpl; [|rewrite IHs]; reflexivity. Qed.

Lemma sel_src_spans (s : shape_t) (r : list sel) (i1 i2 : list nat) :
  length i1 = length s ->
  sel_src (map (fun n => Span 0 1 n) s ++ r) (i1 ++ i2)
  = i1 ++ sel_src r i2.
Proof.
  revert i1; induction s as [|n s IH]; intros [|i i1] H; simpl in *;
    try discriminate; auto.
  rewrite IH by lia; f_equal; lia.
Qed.

Lemma sel_shape_spans_only (s : shape_t) :
  sel_shape (map (fun n => Span 0 1 n) s) = s.
Proof. induction s; simpl; [|rewrite IHs]; reflexivity. Qed.

Lemma sel_src_spans_only (s : shape_t) (ridx : list nat) :
  length ridx = length s ->
  sel_src (map (fun n => Span 0 1 n) s) ridx = ridx.
Proof.
  revert ridx; induction s as [|n s IH]; intros [|i ridx] H; simpl in *;
    try discriminate; auto.
  rewrite IH by lia; f_equal; lia.
Qed.

Lemma plain_nat_indices (b : list nat) : plain (map nat_index b).
Proof. induction b; constructor; auto. Qed.

Lemma plain_filter (idxs : list index) :
  plain idxs -> filter (fun i => negb (is_ellipsis i)) idxs = idxs.
Proof.
  induction 1 as [|i l [Hi _] _ IH]; simpl; auto.
  rewrite Hi, IH; reflexivity.
Qed.

Lemma plain_no_tensor (idxs : list index) :
  plain idxs -> existsb is_tensor_index idxs = false.
Proof.
  induction 1 as [|i l [_ Hi] _ IH]; simpl; auto.
  rewrite Hi, IH; reflexivity.
Qed.

Lemma plain_expand_ellipsis (idxs : list index) (rank : nat) :
  plain idxs -> expand_ellipsis idxs rank = inr idxs.
Proof.
  intros H; unfold expand_ellipsis.
  replace (count_occ (fun a b : bool => bool_dec a b)
                     (map is_ellipsis idxs) true) with 0; [reflexivity|].
  induction H as [|i l [Hi _] _ IH]; simpl; auto.
  rewrite Hi; simpl; assumption.
Qed.

Section GetitemLemmas.

Context {E : Env}.

(** Indexing with as many in-range integers as there are leading
    dimensions selects the sub-tensor at that position. *)
Lemma getitem_picks (t : tensor V) (bs s : shape_t) (b : list nat) :
  shape t = bs ++ s -> in_range bs b ->
  tensor_getitem t (map nat_index b)
  = inr (build s (fun ridx => get dflt t (b ++ ridx))).
Proof.
  intros Hs Hb.
  pose proof (in_range_length _ _ Hb) as Hlen.
  pose proof (plain_nat_indices b) as Hpl.
  unfold tensor_getitem.
  rewrite (plain_filter _ Hpl), (plain_no_tensor _ Hpl).
  assert (Hrk : (length (shape t) <? length (map nat_index b)) = false).
  { apply Nat.ltb_ge; rewrite Hs, length_app, length_map; lia. }
  rewrite Hrk; unfold basic_getitem.
  rewrite (plain_expand_ellipsis _ _ Hpl); simpl; rewrite Hrk.
  rewrite Hs, <- (app_nil_r (map nat_index b)), resolve_picks by assumption.
  simpl; rewrite sel_shape_picks, sel_shape_spans_only.
  f_equal; apply build_ext; intros ridx Hridx.
  rewrite sel_src_picks.
  rewrite sel_src_spans_only by (apply in_range_length; assumption).
  reflexivity.
Qed.

End GetitemLemmas.

Section EllipsisLemmas.

Context {E : Env}.

(** [t[..., 0, 0]]. *)
Lemma getitem_ellipsis_00 (t : tensor V) (s : shape_t) (n1 n2 : nat) :
  shape t = s ++ [n1; n2] -> 0 < n1 -> 0 < n2 ->
  tensor_getitem t [IEllipsis; IInt 0; IInt 0]
  = inr (build s (fun ridx => get dflt t (ridx ++ [0; 0]))).
Proof.
  intros Hs H1 H2.
  assert (Hlen : length (shape t) = S (S (length s))).
  { rewrite Hs, length_app; simpl; lia. }
  unfold tensor_getitem; simpl filter; simpl existsb.
  rewrite Hlen.
  unfold basic_getitem, expand_ellipsis; simpl count_occ.
  rewrite Hlen.
  cbn [flat_map is_ellipsis length app Nat.sub bindE].
  rewrite Nat.sub_0_r.
  replace (S (S (length s)) <? 2) with false
    by (symmetry; apply Nat.ltb_ge; lia).
  assert (Hrk : (S (S (length s))
                 <? length (repeat _noop_index (length s)
                            ++ [IInt 0; IInt 0])) = false).
  { apply Nat.ltb_ge; rewrite length_app, repeat_length; simpl; lia. }
  rewrite Hrk, Hs, resolve_noops, resolve_zero by assumption.
  rewrite resolve_zero by assumption; simpl.
  rewrite sel_shape_spans; simpl; rewrite app_nil_r.
  f_equal; apply build_ext; intros ridx Hridx.
  rewrite <- (app_nil_r ridx) at 1.
  rewrite sel_src_spans by (apply in_range_length; assumption).
  reflexivity.
Qed.

(** [t[0, ..., 0]]. *)
Lemma getitem_0_ellipsis_0 (t : tensor V) (s : shape_t) (n0 n2 : nat) :
  shape t = n0 :: s ++ [n2] -> 0 < n0 -> 0 < n2 ->
  tensor_getitem t [IInt 0; IEllipsis; IInt 0]
  = inr (build s (fun ridx => get dflt t (0 :: ridx ++ [0]))).
Proof.
  intros Hs H0 H2.
  assert (Hlen : length (shape t) = S (S (length s))).
  { rewrite Hs; simpl; rewrite length_app; simpl; lia. }
  unfold tensor_getitem; simpl filter; simpl existsb.
  rewrite Hlen.
  unfold basic_getitem, expand_ellipsis; simpl count_occ.
  rewrite Hlen.
  cbn [flat_map is_ellipsis length app Nat.sub bindE].
  rewrite Nat.sub_0_r.
  replace (S (S (length s)) <? 2) with false
    by (symmetry; apply Nat.ltb_ge; lia).
  match goal with
  | |- context [?a <? ?b] =>
      replace (a <? b) with false
        by (symmetry; apply Nat.ltb_ge;
            rewrite length_app, repeat_length; simpl; lia)
  end.
  rewrite Hs, resolve_zero, resolve_noops by assumption.
  rewrite resolve_zero by assumption; simpl.
  rewrite sel_shape_spans; simpl; rewrite app_nil_r.
  f_equal; apply build_ext; intros ridx Hridx.
  rewrite <- (app_nil_r ridx) at 1.
  rewrite sel_src_spans by (apply in_range_length; assumption).
  reflexivity.
Qed.

End EllipsisLemmas.

(** ** Explicit element lookup *)

Section GetIndices.

Context {E : Env}.

Lemma mapE_map (A B : Type) (f : A -> exn + B) (g : A -> B) (l : list A) :
  (forall a, In a l -> f a = inr (g a)) -> mapE f l = inr (map g l).
Proof.
  induction l as [|a l IH]; intros H; simpl; auto.
  rewrite (H a) by (left; reflexivity); simpl.
  rewrite IH by (intros; apply H; right; assumption); reflexivity.
Qed.

(** [x[b, i]] followed by [unsqueeze(-2)]. *)
Lemma getitem_point (x : tensor V) (bs : shape_t) (m d : nat)
    (b : list nat) (i : nat) :
  shape x = bs ++ [m; d] -> in_range bs b -> i < m ->
  (t <- tensor_getitem x (map nat_index b ++ [nat_index i]) ;;
   unsqueeze t (-2))
  = inr (point_set d x b i).
Proof.
  intros Hs Hb Hi.
  change (map nat_index b ++ [nat_index i])
    with (map nat_index b ++ map nat_index [i]).
  rewrite <- map_app.
  rewrite (getitem_picks x (bs ++ [m]) [d] (b ++ [i])).
  - simpl; unfold unsqueeze, point_set, build; simpl.
    f_equal; f_equal.
    apply tabulate_ext; intros ridx _.
    rewrite <- app_assoc; reflexivity.
  - rewrite Hs, <- app_assoc; reflexivity.
  - apply in_range_app; [assumption|].
    apply in_range_cons; split; [assumption | constructor].
Qed.

(** [val[batch_indices]] on a stored tensor parameter. *)
Lemma getitem_param (p : tensor V) (bs : shape_t) (b : list nat) :
  batch_shape (shape p) = bs -> in_range bs b ->
  tensor_getitem p (map nat_index b) = inr (param_at p b).
Proof.
  intros Hp Hb.
  rewrite (getitem_picks p bs (nonbatch_shape (shape p)) b).
  - unfold param_at; rewrite Hp, align_same by assumption; reflexivity.
  - rewrite <- Hp; symmetry; apply batch_nonbatch.
  - assumption.
Qed.

(** What [_get_indices] does with integer indices: it reads the row and
    column indices as positions in the stored point sets, whatever the
    output multiplicity is, and calls the covariance function once on point
    [i] of the row set and point [j] of the column set (at the batch
    position [b], with the parameters at [b]).  It returns the [0, 0] entry
    of the result when the result has trailing shape (1, 1), and fails its
    assertion otherwise. *)
Lemma get_indices_reads_point_sets (K : KernelLinearOperator)
    (b : list nat) (i j m d1 n d2 : nat) (h : heap) :
  stored_ok K ->
  shape (x1 K) = batch_broadcast_shape K ++ [m; d1] ->
  shape (x2 K) = batch_broadcast_shape K ++ [n; d2] ->
  in_range (batch_broadcast_shape K) b -> i < m -> j < n ->
  _get_indices K (nat_index i) (nat_index j) (map nat_index b) h
  = (match covar_func K (point_set d1 (x1 K) b i) (point_set d2 (x2 K) b j)
                      (map (fun nv => (fst nv, param_at (snd nv) b))
                           (tensor_params K))
                      (nontensor_params K) with
     | inl e => inl e
     | inr out =>
         if shape_eqb (nonbatch_shape (shape (to_dense out))) [1; 1]
         then inr (build (batch_shape (shape (to_dense out)))
                     (fun ridx => get dflt (to_dense out) (ridx ++ [0; 0])))
         else inl AssertionError
     end, bump h).
Proof.
  intros (_ & _ & _ & _ & Hp & _) Hs1 Hs2 Hb Hi Hj.
  unfold _get_indices.
  rewrite (bind_ok _ _ _ _ h h (point_set d1 (x1 K) b i))
    by (unfold lift;
        rewrite (getitem_point _ _ _ _ _ _ Hs1 Hb Hi); reflexivity).
  rewrite (bind_ok _ _ _ _ h h (point_set d2 (x2 K) b j))
    by (unfold lift;
        rewrite (getitem_point _ _ _ _ _ _ Hs2 Hb Hj); reflexivity).
  rewrite (bind_ok _ _ _ _ h h
             (map (fun nv => (fst nv, param_at (snd nv) b))
                  (tensor_params K))).
  2:{ unfold lift; f_equal; apply mapE_map; intros nv Hin.
      rewrite Forall_forall in Hp; destruct (Hp nv Hin) as (_ & Hbv & _).
      rewrite (getitem_param _ _ _ Hbv Hb); reflexivity. }
  unfold bind at 1, call_covar.
  destruct (covar_func K _ _ _ _) as [e|out]; [reflexivity|].
  unfold bind, assert.
  destruct (shape_eqb (nonbatch_shape (shape (to_dense out))) [1; 1])
    eqn:Hsh; [|reflexivity].
  unfold ret, lift; f_equal.
  unfold shape_eqb in Hsh.
  destruct (list_eq_dec Nat.eq_dec _ _) as [Heq|]; [|discriminate].
  apply getitem_ellipsis_00 with (n1 := 1) (n2 := 1); try lia.
  rewrite <- Heq; symmetry; apply batch_nonbatch.
Qed.

End GetIndices.

(** C9: for the operator with multiplicity (2, 1) over 3 row and 4 column
    points, [_get_indices] at row 0 and column 0 does read point 0 of the
    row set and point 0 of the column set and calls the covariance function
    on them once; the function returns the 2 by 1 block of that pair of
    points, the assertion on the trailing shape (1, 1) fails, and
    [_get_indices] raises AssertionError instead of returning a
    covariance. *)
Theorem get_indices_multi_output_raises :
  let K := example_operator rows3 cols4
             (block_covar 2 1 two_row_kernel) (2, 1)%Z in
  construct rows3 cols4 (block_covar 2 1 two_row_kernel) (OPair 2 1) []
  = inr K /\
  covar_func K (point_set 2 (x1 K) [] 0) (point_set 2 (x2 K) [] 0) [] []
  = inr (OutTensor (Tensor [2; 1] [1; 2]%Z)) /\
  _get_indices K (nat_index 0) (nat_index 0) [] empty_heap
  = (inl AssertionError, bump empty_heap) /\
  ~ (exists v, fst (_get_indices K (nat_index 0) (nat_index 0) []
                      empty_heap) = inr v).
Proof.
  intros K; split; [apply construct_two_rows|].
  split; [vm_compute; reflexivity|].
  assert (H : _get_indices K (nat_index 0) (nat_index 0) [] empty_heap
              = (inl AssertionError, bump empty_heap))
    by (vm_compute; reflexivity).
  split; [exact H|].
  intros [v Hv]; rewrite H in Hv; discriminate.
Qed.

(** ** Dimension arithmetic for the diagonal *)

Lemma norm_dim_zero (rank : nat) : 0 < rank -> norm_dim 0 rank = inr 0.
Proof.
  intros H; unfold norm_dim.
  replace ((- Z.of_nat rank <=? 0) && (0 <? Z.of_nat rank))%Z with true;
    [reflexivity|].
  symmetry; apply andb_true_iff; split;
    [apply Z.leb_le | apply Z.ltb_lt]; lia.
Qed.

Lemma norm_dim_penultimate (rank : nat) :
  2 <= rank -> norm_dim (-2) rank = inr (rank - 2).
Proof.
  intros H; unfold norm_dim.
  replace ((- Z.of_nat rank <=? -2) && (-2 <? Z.of_nat rank))%Z with true.
  - change (-2 <? 0)%Z with true; cbv iota; f_equal; lia.
  - symmetry; apply andb_true_iff; split;
      [apply Z.leb_le | apply Z.ltb_lt]; lia.
Qed.

Lemma nth_map_seq (A : Type) (f : nat -> A) (n k : nat) (d : A) :
  k < n -> nth k (map f (seq 0 n)) d = f k.
Proof.
  intros H; rewrite (nth_indep _ d (f 0)) by (rewrite length_map, length_seq;
                                               assumption).
  rewrite map_nth, seq_nth by assumption; reflexivity.
Qed.

(** Swapping the first and the last-but-one position. *)
Lemma swap_first_penultimate (A : Type) (d a c : A) (l tl : list A) :
  swap d 0 (S (length l)) (a :: l ++ c :: tl) = c :: l ++ a :: tl.
Proof.
  unfold swap; apply (nth_ext _ _ d d).
  - rewrite length_map, length_seq; simpl; rewrite !length_app; reflexivity.
  - intros k Hk; rewrite length_map, length_seq in Hk.
    rewrite nth_map_seq by assumption.
    destruct k as [|k]; simpl.
    + rewrite app_nth2, Nat.sub_diag by lia; reflexivity.
    + destruct (Nat.eqb_spec k (length l)) as [->|Hne].
      * rewrite app_nth2, Nat.sub_diag by lia; reflexivity.
      * destruct (Nat.lt_ge_cases k (length l)) as [Hlt|Hge].
        -- rewrite !app_nth1 by assumption; reflexivity.
        -- rewrite !app_nth2 by assumption.
           destruct (k - length l) as [|q] eqn:Hq; [lia | reflexivity].
Qed.

Lemma align_rev_snoc (s idx : list nat) (x i : nat) :
  length s = length idx ->
  align_rev (s ++ [x]) (idx ++ [i])
  = align_rev s idx ++ [if x =? 1 then 0 else i].
Proof.
  revert idx; induction s as [|y s IH]; intros [|j idx] H; simpl in *;
    try discriminate; auto.
  rewrite IH by lia; reflexivity.
Qed.

(** A leading dimension of size 1 reads position 0. *)
Lemma align_cons_one (s : shape_t) (p : nat) (b : list nat) :
  length s = length b -> align (1 :: s) (p :: b) = 0 :: align s b.
Proof.
  intros H; unfold align; simpl.
  rewrite align_rev_snoc by (rewrite !length_rev; assumption).
  rewrite rev_app_distr; reflexivity.
Qed.

Lemma broadcast_rev_snoc_one (l : list nat) (m : nat) :
  broadcast_rev (l ++ [m]) (l ++ [1]) = Some (l ++ [m]).
Proof.
  induction l as [|x l IH]; simpl; [reflexivity|].
  rewrite IH, Nat.eqb_refl, orb_true_r; reflexivity.
Qed.

(** The parameters, with a leading 1, broadcast with the synthetic batch. *)
Lemma broadcast2_cons_one (m : nat) (bs : shape_t) :
  broadcast2 (m :: bs) (1 :: bs) = Some (m :: bs).
Proof.
  unfold broadcast2; simpl; rewrite broadcast_rev_snoc_one; simpl.
  rewrite rev_app_distr, rev_involutive; reflexivity.
Qed.

Lemma fold_broadcast_cons_one (l : list shape_t) (m : nat) (bs : shape_t) :
  Forall (fun s => s = 1 :: bs) l ->
  fold_left broadcast_step l (Some (m :: bs)) = Some (m :: bs).
Proof.
  induction 1 as [|s l -> _ IH]; simpl; auto.
  rewrite broadcast2_cons_one; assumption.
Qed.

Lemma batch_shape_cons (n : nat) (s : shape_t) :
  2 <= length s -> batch_shape (n :: s) = n :: batch_shape s.
Proof.
  intros H; unfold batch_shape; simpl length.
  replace (S (length s) - 2) with (S (length s - 2)) by lia; reflexivity.
Qed.

Lemma nonbatch_shape_cons (n : nat) (s : shape_t) :
  2 <= length s -> nonbatch_shape (n :: s) = nonbatch_shape s.
Proof.
  intros H; unfold nonbatch_shape; simpl length.
  replace (S (length s) - 2) with (S (length s - 2)) by lia; reflexivity.
Qed.

Lemma firstn_app_exact (A : Type) (l1 l2 : list A) :
  firstn (length l1) (l1 ++ l2) = l1.
Proof.
  rewrite firstn_app, Nat.sub_diag, firstn_all; simpl; apply app_nil_r.
Qed.

Lemma nth_app_len0 (A : Type) (l tl : list A) (x d : A) :
  nth (length l) (l ++ x :: tl) d = x.
Proof. rewrite app_nth2, Nat.sub_diag by lia; reflexivity. Qed.

Lemma nth_app_len1 (A : Type) (l tl : list A) (x y d : A) :
  nth (S (length l)) (l ++ x :: y :: tl) d = y.
Proof.
  rewrite app_nth2 by lia.
  replace (S (length l) - length l) with 1 by lia; reflexivity.
Qed.

(** ** The diagonal *)

Section DiagonalLemmas.

Context {E : Env}.

Lemma unsqueeze_zero (t : tensor V) :
  unsqueeze t 0 = inr (Tensor (1 :: shape t) (data t)).
Proof.
  unfold unsqueeze; rewrite norm_dim_zero by lia; reflexivity.
Qed.

Lemma get_unsqueeze_zero (t : tensor V) (idx : list nat) :
  get dflt (Tensor (1 :: shape t) (data t)) (0 :: idx) = get dflt t idx.
Proof. reflexivity. Qed.

Lemma transpose_first_penultimate (t : tensor V) (a c e : nat)
    (l : shape_t) :
  shape t = a :: l ++ [c; e] ->
  transpose dflt t 0 (-2)
  = inr (build (c :: l ++ [a; e])
               (fun idx => get dflt t (swap 0 0 (S (length l)) idx))).
Proof.
  intros Hs; unfold transpose.
  assert (Hlen : length (shape t) = S (S (S (length l)))).
  { rewrite Hs; simpl; rewrite length_app; simpl; lia. }
  rewrite Hlen, norm_dim_zero, norm_dim_penultimate by lia; simpl.
  rewrite Hs, swap_first_penultimate; reflexivity.
Qed.

(** Every point in a leading batch slot of its own: the shape and the
    elements of [x.unsqueeze(0).transpose(0, -2)]. *)
Lemma batch_of_points_spec (x : tensor V) (bs : shape_t) (m d : nat) :
  shape x = bs ++ [m; d] ->
  exists s,
    batch_of_points x = inr s /\
    shape s = m :: bs ++ [1; d] /\
    forall p b e, p < m -> in_range bs b -> e < d ->
      get dflt s (p :: b ++ [0; e]) = get dflt x (b ++ [p; e]).
Proof.
  intros Hs; unfold batch_of_points.
  rewrite unsqueeze_zero; simpl.
  rewrite (transpose_first_penultimate _ 1 m d bs)
    by (simpl; rewrite Hs; reflexivity).
  eexists; split; [reflexivity|]; split; [reflexivity|].
  intros p b e Hp Hb He.
  rewrite get_build.
  - rewrite <- (in_range_length _ _ Hb), swap_first_penultimate.
    apply get_unsqueeze_zero.
  - apply in_range_cons; split; [assumption|].
    apply in_range_app; [assumption|].
    apply in_range_cons; split; [lia|].
    apply in_range_cons; split; [assumption | constructor].
Qed.

Lemma mapE_unsqueeze_zero (tp : list (string * tensor V)) :
  mapE (fun nv => v <- unsqueeze (snd nv) 0 ;; inr (fst nv, v)) tp
  = inr (map (fun nv => (fst nv,
                         Tensor (1 :: shape (snd nv)) (data (snd nv)))) tp).
Proof.
  apply mapE_map; intros nv _; rewrite unsqueeze_zero; reflexivity.
Qed.

End DiagonalLemmas.

Section Diagonal.

Context {E : Env}.

Lemma pairwise_covar_eval (k : kernel_fn) (a1 a2 : tensor V)
    (tp : list (string * tensor V)) (ntp : list (string * Opaque))
    (m n : nat) (bs : shape_t) :
  dim_count (shape a1) = Some m ->
  dim_count (shape a2) = Some n ->
  broadcast_shapes (batch_shapes a1 a2 tp) = Some bs ->
  pairwise_covar k a1 a2 tp ntp
  = inr (OutTensor
           (build (bs ++ [m; n])
              (fun idx =>
                 let b := firstn (length bs) idx in
                 k (point a1 b (nth (length bs) idx 0))
                   (point a2 b (nth (S (length bs)) idx 0))
                   (map (fun nv => (fst nv, param_at (snd nv) b)) tp)
                   ntp))).
Proof.
  intros H1 H2 Hb; unfold pairwise_covar, batch_shapes in *.
  rewrite H1, H2, Hb; reflexivity.
Qed.

(** The point [p] of the synthetic batch is the point [p] of [x]. *)
Lemma point_batch_of_points (x s : tensor V) (bs : shape_t) (m d : nat)
    (p : nat) (b : list nat) :
  shape x = bs ++ [m; d] ->
  shape s = m :: bs ++ [1; d] ->
  (forall p b e, p < m -> in_range bs b -> e < d ->
      get dflt s (p :: b ++ [0; e]) = get dflt x (b ++ [p; e])) ->
  p < m -> in_range bs b ->
  point s (p :: b) 0 = point x b p.
Proof.
  intros Hx Hs Hget Hp Hb; unfold point.
  change (m :: bs ++ [1; d]) with ((m :: bs) ++ [1; d]) in Hs.
  rewrite Hs, Hx, !dim_last_app2, !batch_shape_app2.
  apply map_ext_in; intros e He; apply in_seq in He.
  rewrite !align_same
    by (try apply in_range_cons; try split; assumption).
  apply Hget; try assumption; lia.
Qed.

(** A parameter with a leading dimension of size 1 is, at every slot of
    the synthetic batch, the parameter itself. *)
Lemma param_at_unsqueeze_zero (v : tensor V) (bs : shape_t) (p : nat)
    (b : list nat) :
  batch_shape (shape v) = bs -> 2 <= length (shape v) -> in_range bs b ->
  param_at (Tensor (1 :: shape v) (data v)) (p :: b) = param_at v b.
Proof.
  intros Hv Hr Hb; unfold param_at; simpl shape.
  rewrite nonbatch_shape_cons, batch_shape_cons by assumption.
  rewrite Hv, align_cons_one
    by (symmetry; apply in_range_length; assumption).
  apply build_ext; intros pq _; apply get_unsqueeze_zero.
Qed.

(** [_diagonal] on an empty cache cell: one call of the covariance function
    on the synthetic batch, the assertion, the flattening. *)
Lemma diagonal_one_call (K : KernelLinearOperator) (s1 s2 : tensor V)
    (h : heap) :
  kernel_diag h = None ->
  batch_of_points (x1 K) = inr s1 ->
  batch_of_points (x2 K) = inr s2 ->
  _diagonal K h
  = match covar_func K s1 s2
            (map (fun nv => (fst nv,
                             Tensor (1 :: shape (snd nv)) (data (snd nv))))
                 (tensor_params K))
            (nontensor_params K) with
    | inl e => (inl e, bump h)
    | inr out =>
        if shape_eqb (nonbatch_shape (shape (to_dense out))) [1; 1]
        then match (t <- transpose dflt (to_dense out) 0 (-2) ;;
                    tensor_getitem t [IInt 0; IEllipsis; IInt 0]) with
             | inr d => (inr d, set_kernel_diag d (bump h))
             | inl e => (inl e, bump h)
             end
        else (inl AssertionError, bump h)
    end.
Proof.
  intros Hnone Hbp1 Hbp2.
  unfold _diagonal, cached; rewrite Hnone.
  rewrite (bind_ok _ _ _ _ h h s1) by (unfold lift; f_equal; exact Hbp1).
  rewrite (bind_ok _ _ _ _ h h s2) by (unfold lift; f_equal; exact Hbp2).
  rewrite (bind_ok _ _ _ _ h h _
             (f_equal (fun r => (r, h))
                      (mapE_unsqueeze_zero (tensor_params K)))).
  unfold bind at 1, call_covar.
  destruct (covar_func K s1 s2 _ (nontensor_params K)) as [e|out];
    [reflexivity|].
  destruct (shape_eqb (nonbatch_shape (shape (to_dense out))) [1; 1]);
    unfold assert, bind, ret, raise, lift; [|reflexivity].
  destruct (t <- transpose dflt (to_dense out) 0 (-2) ;;
            tensor_getitem t [IInt 0; IEllipsis; IInt 0]); reflexivity.
Qed.

(** [t.transpose(0, -2)[0, ..., 0]] for [t] of shape [m :: bs ++ [1; 1]]. *)
Lemma flatten_slots_spec (t : tensor V) (bs : shape_t) (m : nat) :
  shape t = m :: bs ++ [1; 1] ->
  (t' <- transpose dflt t 0 (-2) ;;
   tensor_getitem t' [IInt 0; IEllipsis; IInt 0])
  = inr (flatten_slots bs m t).
Proof.
  intros Hs.
  rewrite (transpose_first_penultimate t m 1 1 bs Hs); simpl bindE.
  rewrite (getitem_0_ellipsis_0 _ (bs ++ [m]) 1 1)
    by (try lia; simpl; rewrite <- app_assoc; reflexivity).
  f_equal; unfold flatten_slots; apply build_ext; intros ridx Hridx.
  apply in_range_app_inv in Hridx.
  destruct Hridx as (b & pl & -> & Hb1 & Hpl).
  destruct pl as [|p [|? ?]]; try (inversion Hpl; fail).
  2:{ apply in_range_cons in Hpl; destruct Hpl as [_ Hpl]; inversion Hpl. }
  apply in_range_cons in Hpl; destruct Hpl as [Hpm _].
  pose proof (in_range_length _ _ Hb1) as Hlen.
  rewrite last_last, removelast_last, <- !app_assoc; simpl app.
  rewrite get_build.
  2:{ apply in_range_cons; split; [lia|].
      apply in_range_app; [assumption|].
      apply in_range_cons; split; [assumption|].
      apply in_range_cons; split; [lia | constructor]. }
  rewrite <- Hlen, swap_first_penultimate; reflexivity.
Qed.

(** C3: [_diagonal] puts every point in a leading batch slot of its own
    (slot [p] of the synthetic row set holds point [p] of the row set, and
    likewise for the columns; every parameter gets a leading dimension of
    size 1), calls the covariance function once on these, whatever that
    function is, checks that the result has one 1 by 1 block per slot and
    flattens the blocks back; an exception of the covariance function or a
    failed check leaves [_diagonal] and nothing is stored.  For an operator
    with one output per input and as many row points as column points whose
    covariance function computes pairwise covariances, the result is the
    diagonal of the dense matrix, which is what [covar_mat] evaluates to.
    It is stored in the cache of the instance: asking again returns it
    without another call. *)
Theorem diagonal_matches_dense (K : KernelLinearOperator) (k : kernel_fn)
    (m d1 d2 : nat) (h : heap) :
  stored_ok K ->
  shape (x1 K) = batch_broadcast_shape K ++ [m; d1] ->
  shape (x2 K) = batch_broadcast_shape K ++ [m; d2] ->
  num_outputs_per_input K = (1, 1)%Z ->
  kernel_diag h = None ->
  let bs := batch_broadcast_shape K in
  let tp' := map (fun nv => (fst nv,
                             Tensor (1 :: shape (snd nv)) (data (snd nv))))
                 (tensor_params K) in
  exists s1 s2,
    batch_of_points (x1 K) = inr s1 /\
    shape s1 = m :: bs ++ [1; d1] /\
    (forall p b e, p < m -> in_range bs b -> e < d1 ->
       get dflt s1 (p :: b ++ [0; e]) = get dflt (x1 K) (b ++ [p; e])) /\
    batch_of_points (x2 K) = inr s2 /\
    shape s2 = m :: bs ++ [1; d2] /\
    (forall p b e, p < m -> in_range bs b -> e < d2 ->
       get dflt s2 (p :: b ++ [0; e]) = get dflt (x2 K) (b ++ [p; e])) /\
    (forall e,
       covar_func K s1 s2 tp' (nontensor_params K) = inl e ->
       _diagonal K h = (inl e, bump h)) /\
    (forall out,
       covar_func K s1 s2 tp' (nontensor_params K) = inr out ->
       nonbatch_shape (shape (to_dense out)) <> [1; 1] ->
       _diagonal K h = (inl AssertionError, bump h)) /\
    (forall out,
       covar_func K s1 s2 tp' (nontensor_params K) = inr out ->
       shape (to_dense out) = m :: bs ++ [1; 1] ->
       _diagonal K h
       = (inr (flatten_slots bs m (to_dense out)),
          set_kernel_diag (flatten_slots bs m (to_dense out)) (bump h))) /\
    (computes_pairwise (covar_func K) k ->
     exists dense diag,
       covar_func K (x1 K) (x2 K) (tensor_params K) (nontensor_params K)
       = inr dense /\
       (forall h0, covar_mat_cache h0 = None ->
                   fst (covar_mat K h0) = inr dense) /\
       diag = diagonal_of bs m (to_dense dense) /\
       _diagonal K h = (inr diag, set_kernel_diag diag (bump h)) /\
       _diagonal K (set_kernel_diag diag (bump h))
       = (inr diag, set_kernel_diag diag (bump h))).
Proof.
  intros Hok Hs1 Hs2 _ Hnone bs tp'.
  destruct Hok as (_ & _ & _ & _ & Hp & _).
  destruct (batch_of_points_spec (x1 K) bs m d1 Hs1)
    as (s1 & Hbp1 & Hsh1 & Hg1).
  destruct (batch_of_points_spec (x2 K) bs m d2 Hs2)
    as (s2 & Hbp2 & Hsh2 & Hg2).
  pose proof (diagonal_one_call K s1 s2 h Hnone Hbp1 Hbp2) as Hcall.
  fold tp' in Hcall.
  assert (Hflat : forall out,
            covar_func K s1 s2 tp' (nontensor_params K) = inr out ->
            shape (to_dense out) = m :: bs ++ [1; 1] ->
            _diagonal K h
            = (inr (flatten_slots bs m (to_dense out)),
               set_kernel_diag (flatten_slots bs m (to_dense out))
                               (bump h))).
  { intros out Hout Hshape; rewrite Hcall, Hout.
    change (m :: bs ++ [1; 1]) with ((m :: bs) ++ [1; 1]) in Hshape.
    rewrite Hshape at 1; rewrite nonbatch_shape_app2.
    change (shape_eqb [1; 1] [1; 1]) with true; cbv iota.
    rewrite (flatten_slots_spec _ bs m Hshape); reflexivity. }
  exists s1, s2.
  split; [exact Hbp1|]. split; [exact Hsh1|]. split; [exact Hg1|].
  split; [exact Hbp2|]. split; [exact Hsh2|]. split; [exact Hg2|].
  split; [intros e He; rewrite Hcall, He; reflexivity|].
  split.
  { intros out Hout Hne; rewrite Hcall, Hout.
    unfold shape_eqb.
    destruct (list_eq_dec Nat.eq_dec _ _) as [Heq|_];
      [contradiction | reflexivity]. }
  split; [exact Hflat|].
  intros Hpw.
  set (tp := tensor_params K) in *.
  (* the dense matrix *)
  assert (Hb : broadcast_shapes (batch_shapes (x1 K) (x2 K) tp) = Some bs).
  { unfold batch_shapes.
    rewrite Hs1, Hs2, !batch_shape_app2, broadcast_shapes_cons2.
    rewrite broadcast2_same; apply fold_broadcast_same.
    apply Forall_map; eapply Forall_impl; [|exact Hp].
    intros nv (_ & H & _); exact H. }
  pose proof (pairwise_covar_eval k (x1 K) (x2 K) tp (nontensor_params K)
                m m bs) as Hdense.
  rewrite Hs1, Hs2, !dim_count_app2 in Hdense.
  specialize (Hdense eq_refl eq_refl Hb).
  rewrite <- (Hpw _ _ _ _) in Hdense.
  (* the synthetic batch *)
  change (m :: bs ++ [1; d1]) with ((m :: bs) ++ [1; d1]) in Hsh1.
  change (m :: bs ++ [1; d2]) with ((m :: bs) ++ [1; d2]) in Hsh2.
  assert (Hb' : broadcast_shapes (batch_shapes s1 s2 tp') = Some (m :: bs)).
  { unfold batch_shapes.
    rewrite Hsh1, Hsh2, !batch_shape_app2, broadcast_shapes_cons2.
    rewrite broadcast2_same; apply fold_broadcast_cons_one.
    unfold tp'; rewrite map_map; simpl.
    apply Forall_map; eapply Forall_impl; [|exact Hp].
    intros nv (_ & H & Hr); rewrite batch_shape_cons by assumption.
    rewrite H; reflexivity. }
  pose proof (pairwise_covar_eval k s1 s2 tp' (nontensor_params K)
                1 1 (m :: bs)) as Hsyn.
  rewrite Hsh1, Hsh2, !dim_count_app2 in Hsyn.
  specialize (Hsyn eq_refl eq_refl Hb').
  rewrite <- (Hpw _ _ _ _) in Hsyn.
  match type of Hdense with
  | _ = inr ?o => set (dense := o) in *
  end.
  match type of Hsyn with
  | _ = inr (OutTensor ?t) => set (diag_mat := t) in *
  end.
  change ((m :: bs) ++ [1; d1]) with (m :: bs ++ [1; d1]) in Hsh1.
  change ((m :: bs) ++ [1; d2]) with (m :: bs ++ [1; d2]) in Hsh2.
  assert (HX : flatten_slots bs m diag_mat
               = diagonal_of bs m (to_dense dense)).
  { unfold flatten_slots, diagonal_of; apply build_ext; intros ridx Hridx.
    apply in_range_app_inv in Hridx.
    destruct Hridx as (b & pl & -> & Hb1 & Hpl).
    destruct pl as [|p [|? ?]]; try (inversion Hpl; fail).
    2:{ apply in_range_cons in Hpl; destruct Hpl as [_ Hpl]; inversion Hpl. }
    apply in_range_cons in Hpl; destruct Hpl as [Hpm _].
    pose proof (in_range_length _ _ Hb1) as Hlen.
    rewrite last_last, removelast_last, <- !app_assoc; simpl app.
    unfold diag_mat; rewrite get_build.
    2:{ simpl; apply in_range_cons; split; [assumption|].
        apply in_range_app; [assumption|].
        apply in_range_cons; split; [lia|].
        apply in_range_cons; split; [lia | constructor]. }
    unfold dense; simpl to_dense; rewrite get_build.
    2:{ apply in_range_app; [assumption|].
        apply in_range_cons; split; [assumption|].
        apply in_range_cons; split; [assumption | constructor]. }
    cbv zeta.
    change (length (m :: bs)) with (S (length bs)).
    rewrite <- Hlen.
    cbn [firstn nth].
    rewrite !firstn_app_exact, !nth_app_len0, !nth_app_len1.
    rewrite (point_batch_of_points (x1 K) s1 bs m d1 p b Hs1 Hsh1 Hg1 Hpm Hb1).
    rewrite (point_batch_of_points (x2 K) s2 bs m d2 p b Hs2 Hsh2 Hg2 Hpm Hb1).
    f_equal.
    unfold tp'; rewrite map_map; simpl.
    apply map_ext_in; intros nv Hin.
    rewrite Forall_forall in Hp; destruct (Hp nv Hin) as (_ & Hbv & Hr).
    rewrite (param_at_unsqueeze_zero _ bs p b Hbv Hr Hb1); reflexivity. }
  exists dense, (diagonal_of bs m (to_dense dense)).
  split; [exact Hdense|].
  split.
  { intros h0 Hc; unfold covar_mat, cached, call_covar.
    fold tp; rewrite Hc, Hdense; reflexivity. }
  split; [reflexivity|].
  split.
  2:{ unfold _diagonal, cached; reflexivity. }
  rewrite <- HX.
  apply (Hflat (OutTensor diag_mat) Hsyn); reflexivity.
Qed.

End Diagonal.

(** ** The theorems at the example inputs *)

Lemma example_valid_inputs (a1 a2 : tensor Z) :
  2 <= length (shape a1) -> 2 <= length (shape a2) ->
  @valid_inputs Z_env a1 a2 [].
Proof. intros H1 H2; repeat split; try assumption; constructor. Defined.

Lemma example_stored_ok (a1 a2 : tensor Z) (f : @covar_fn Z_env)
    (rc : Z * Z) :
  wf a1 -> wf a2 -> shape a1 = [length (data a1) / 2; 2] ->
  shape a2 = [length (data a2) / 2; 2] ->
  stored_ok (example_operator a1 a2 f rc).
Proof.
  intros H1 H2 Hs1 Hs2; unfold stored_ok; simpl.
  rewrite Hs1, Hs2; repeat split; try assumption; constructor.
Defined.

Lemma size_of_constructed_witness :
  exists K,
    construct rows5 cols4 (pairwise_covar linear_kernel) (OInt 1)
              [("outputscale"%string, @PTensor Z_env outputscale)] = inr K /\
    _size K = inr [5; 4]%Z.
Proof.
  apply (@size_of_constructed Z_env rows5 cols4
           (pairwise_covar linear_kernel) (OInt 1)
           [("outputscale"%string, @PTensor Z_env outputscale)]
           [] [] [] 5 2 4 2).
  - reflexivity.
  - reflexivity.
  - repeat constructor; simpl; tauto.
  - reflexivity.
Defined.

Lemma construct_shape_errors_witness :
  construct (build [3; 5; 2] (fun _ => 0%Z)) (build [2; 4; 2] (fun _ => 0%Z))
            (pairwise_covar linear_kernel) (OInt 1) []
  = inl (RuntimeError (IncompatibleDataShapes [3; 5; 2] [2; 4; 2])).
Proof.
  exact (proj2 (@construct_shape_errors Z_env
                  (build [3; 5; 2] (fun _ => 0%Z))
                  (build [2; 4; 2] (fun _ => 0%Z))
                  (pairwise_covar linear_kernel) (OInt 1) []
                  [3] [2] 5 2 4 2 eq_refl eq_refl eq_refl)).
Defined.

Lemma double_transpose_witness :
  let K := example_operator rows5 cols4 (pairwise_covar linear_kernel)
             (1, 1)%Z in
  exists K' K'',
    _transpose_nonbatch K = inr K' /\
    _transpose_nonbatch K' = inr K'' /\
    _size K'' = _size K /\
    (forall h, _diagonal K'' h = _diagonal K h) /\
    (forall h, covar_mat K'' h = covar_mat K h).
Proof.
  intros K.
  apply (@double_transpose Z_env rows5 cols4 (pairwise_covar linear_kernel)
           (OPair 1 1) [] K).
  - apply example_valid_inputs; simpl; lia.
  - reflexivity.
Defined.

Lemma construct_expands_witness :
  exists K,
    construct rows_2x1 cols_3 (pairwise_covar linear_kernel) (OInt 1)
              [("outputscale"%string, @PTensor Z_env outputscale)] = inr K /\
    batch_broadcast_shape K = [2; 3] /\
    x1 K = Tensor [2; 3; 2; 1] [1; 2; 1; 2; 1; 2; 3; 4; 3; 4; 3; 4]%Z /\
    x2 K = Tensor [2; 3; 1; 1] [5; 6; 7; 5; 6; 7]%Z /\
    tensor_params K
    = [("outputscale"%string, Tensor [2; 3; 1; 1] [2; 2; 2; 2; 2; 2]%Z)] /\
    expanded_from rows_2x1 cols_3 [("outputscale"%string, outputscale)] K /\
    (exists K', _transpose_nonbatch K = inr K' /\ batch_aligned K') /\
    (forall K', _transpose_nonbatch K = inr K' -> batch_aligned K') /\
    (forall dim K', _unsqueeze_batch K dim = inr K' -> batch_aligned K') /\
    (forall dims K', _permute_batch K dims = inr K' -> batch_aligned K') /\
    (forall row_index col_index batch_indices h K' h',
        _getitem K row_index col_index batch_indices h
        = (inr (RKernel K'), h') ->
        batch_aligned K').
Proof.
  destruct (@construct_expands_to_common_batch_shape Z_env rows_2x1 cols_3
              (pairwise_covar linear_kernel) (OInt 1)
              [("outputscale"%string, @PTensor Z_env outputscale)] [2; 3])
    as (K & HK & Hbs & Hexp & Htr & Hrest).
  - repeat constructor; simpl; tauto.
  - reflexivity.
  - exists K.
    split; [exact HK|]. split; [exact Hbs|].
    destruct (construct_inv _ _ _ _ _ _ HK)
      as (bs' & Hb' & _ & Hx1 & Hx2 & Htp & _).
    vm_compute in Hb'; injection Hb' as <-.
    vm_compute in Hx1, Hx2, Htp.
    split; [injection Hx1 as Hx1; symmetry; exact Hx1|].
    split; [injection Hx2 as Hx2; symmetry; exact Hx2|].
    split; [injection Htp as Htp; symmetry; exact Htp|].
    split; [exact Hexp|].
    split; [|exact Hrest].
    apply Htr; repeat split; simpl; try lia; repeat constructor;
      simpl; try lia; tauto.
Defined.

Lemma fallback_rejects_witness :
  let K := example_operator rows5 cols4 (pairwise_covar linear_kernel)
             (1, 1)%Z in
  let row_index := ISlice (Some 1%Z) (Some 3%Z) None in
  getitem_points K row_index _noop_index [ITensor [0%Z]] empty_heap
  = (inl (RuntimeError (TensorIndexNonBatch [ITensor [0%Z]])), empty_heap) /\
  (num_outputs_per_input K = (1, 1)%Z ->
   _getitem K row_index _noop_index [ITensor [0%Z]] empty_heap
   = (inl (RuntimeError (TensorIndexNonBatch [ITensor [0%Z]])), empty_heap)).
Proof.
  intros K row_index.
  apply (@fallback_rejects_non_slice_batch_index Z_env K row_index
           _noop_index [ITensor [0%Z]] empty_heap).
  - reflexivity.
  - left; reflexivity.
Defined.

Lemma get_indices_witness :
  let K := example_operator rows5 cols4 (pairwise_covar linear_kernel)
             (1, 1)%Z in
  _get_indices K (nat_index 4) (nat_index 3) [] empty_heap
  = (inr (Tensor [] [-6]%Z), bump empty_heap).
Proof.
  intros K.
  exact (@get_indices_reads_point_sets Z_env K [] 4 3 5 2 4 2 empty_heap
           (example_stored_ok rows5 cols4 (pairwise_covar linear_kernel)
              (1, 1)%Z eq_refl eq_refl eq_refl eq_refl)
           eq_refl eq_refl (Forall2_nil _)
           ltac:(lia) ltac:(lia)).
Defined.

Lemma diagonal_matches_dense_witness :
  let K := example_operator rows5 rows5 (pairwise_covar linear_kernel)
             (1, 1)%Z in
  exists s1 s2 dense diag,
    batch_of_points (x1 K) = inr s1 /\
    shape s1 = [5; 1; 2] /\
    batch_of_points (x2 K) = inr s2 /\
    shape s2 = [5; 1; 2] /\
    (exists out,
       covar_func K s1 s2 [] [] = inr out /\
       shape (to_dense out) = [5; 1; 1] /\
       diag = flatten_slots [] 5 (to_dense out)) /\
    covar_func K (x1 K) (x2 K) (tensor_params K) (nontensor_params K)
    = inr dense /\
    (forall h0, covar_mat_cache h0 = None ->
                fst (covar_mat K h0) = inr dense) /\
    diag = diagonal_of [] 5 (to_dense dense) /\
    diag = Tensor [5] [1; 1; 2; 5; 10]%Z /\
    _diagonal K empty_heap
    = (inr diag, set_kernel_diag diag (bump empty_heap)) /\
    _diagonal K (set_kernel_diag diag (bump empty_heap))
    = (inr diag, set_kernel_diag diag (bump empty_heap)).
Proof.
  intros K.
  destruct (@diagonal_matches_dense Z_env K linear_kernel 5 2 2 empty_heap)
    as (s1 & s2 & Hb1 & Hsh1 & _ & Hb2 & Hsh2 & _ & _ & _ & Hflat & Hpw).
  - apply example_stored_ok; reflexivity.
  - reflexivity.
  - reflexivity.
  - reflexivity.
  - reflexivity.
  - destruct Hpw as (dense & diag & Hd & Hcm & Hdiag & Hrun & Hagain).
    + intros a1 a2 tp ntp; reflexivity.
    + exists s1, s2, dense, diag.
      split; [exact Hb1|]. split; [exact Hsh1|].
      split; [exact Hb2|]. split; [exact Hsh2|].
      injection Hb1 as <-; injection Hb2 as <-.
      injection Hd as <-.
      split.
      { eexists; split; [reflexivity|].
        split; [reflexivity|].
        rewrite Hdiag; vm_compute; reflexivity. }
      split; [reflexivity|].
      split; [exact Hcm|].
      split; [exact Hdiag|].
      split; [rewrite Hdiag; vm_compute; reflexivity|].
      split; [exact Hrun | exact Hagain].
Defined.

(** * Further properties *)

(** ** What the accessors do to the cache *)

Section CacheEffects.

Context {E : Env}.

Lemma index_point_set_heap (x : tensor V) (batch_indices : list index)
    (index fallback_index dim_index : index) (h : heap) :
  snd (index_point_set x batch_indices index fallback_index dim_index h) = h.
Proof.
  unfold index_point_set.
  destruct (tensor_getitem x _) as [[]|y]; try reflexivity.
  destruct (existsb _ batch_indices); reflexivity.
Qed.

Lemma getitem_points_heap (K : KernelLinearOperator)
    (row_index col_index : index) (batch_indices : list index) (h : heap) :
  snd (getitem_points K row_index col_index batch_indices h) = h.
Proof.
  unfold getitem_points, bind.
  pose proof (index_point_set_heap (x1 K) batch_indices row_index row_index
                _noop_index h) as H1.
  destruct (index_point_set (x1 K) _ _ _ _ h) as [[e|y1] h1];
    simpl in H1; subst h1; [reflexivity|].
  pose proof (index_point_set_heap (x2 K) batch_indices col_index row_index
                _noop_index h) as H2.
  destruct (index_point_set (x2 K) _ _ _ _ h) as [[e|y2] h2];
    simpl in H2; subst h2; [reflexivity|].
  unfold lift, ret.
  destruct (mapE _ (tensor_params K)) as [e|tp]; [reflexivity|].
  destruct (derive K y1 y2 tp); reflexivity.
Qed.

(** With one output per input, [_getitem] works on the point sets alone:
    whatever the indices are and whether it returns or raises, it neither
    calls the covariance function nor touches the cache. *)
Theorem getitem_unit_leaves_cache (K : KernelLinearOperator)
    (row_index col_index : index) (batch_indices : list index) (h : heap) :
  num_outputs_per_input K = (1, 1)%Z ->
  snd (_getitem K row_index col_index batch_indices h) = h.
Proof.
  intros Hn; unfold _getitem; rewrite Hn; simpl.
  apply getitem_points_heap.
Qed.

(** [_diagonal] and [_get_indices] call the covariance function at most
    once and never fill the cache of the dense matrix; [_diagonal] stores
    its result exactly when it returns one, and [_get_indices] stores
    nothing. *)
Theorem diagonal_and_lookup_cache_effects (K : KernelLinearOperator)
    (row_index col_index : index) (batch_indices : list index) (h : heap) :
  (covar_mat_cache (snd (_diagonal K h)) = covar_mat_cache h /\
   covar_calls (snd (_diagonal K h)) <= S (covar_calls h) /\
   kernel_diag (snd (_diagonal K h))
   = match fst (_diagonal K h) with
     | inr d => Some d
     | inl _ => kernel_diag h
     end) /\
  (covar_mat_cache (snd (_get_indices K row_index col_index batch_indices h))
   = covar_mat_cache h /\
   kernel_diag (snd (_get_indices K row_index col_index batch_indices h))
   = kernel_diag h /\
   covar_calls (snd (_get_indices K row_index col_index batch_indices h))
   <= S (covar_calls h)).
Proof.
  split.
  - unfold _diagonal, cached.
    destruct (kernel_diag h) as [d|] eqn:Hd.
    + simpl; rewrite Hd; auto.
    + unfold bind, lift, call_covar, assert, ret, raise.
      repeat match goal with
             | |- context [match ?x with _ => _ end] =>
                 lazymatch x with
                 | context [match _ with _ => _ end] => fail
                 | _ => destruct x eqn:?
                 end
             end; simpl in *; repeat split; auto; try discriminate;
        try congruence.
  - unfold _get_indices, bind, lift, call_covar, assert, ret, raise.
    repeat match goal with
           | |- context [match ?x with _ => _ end] =>
               lazymatch x with
               | context [match _ with _ => _ end] => fail
               | _ => destruct x eqn:?
               end
           end; simpl; repeat split; auto.
Qed.

End CacheEffects.

(** ** The dense fallback of a multi-output operator *)

Section DenseFallback.

Context {E : Env}.

Lemma multi_output_cond (r c : Z) :
  r <> 1%Z \/ c <> 1%Z -> negb (r =? 1)%Z || negb (c =? 1)%Z = true.
Proof.
  intros H; apply orb_true_iff; destruct H as [H|H]; [left|right];
    apply negb_true_iff, Z.eqb_neq; assumption.
Qed.

Lemma steps_never_None (row_index col_index : index) :
  is_not_None (if_not_None (slice_step row_index) 1)
  || is_not_None (if_not_None (slice_step col_index) 1) = true.
Proof. destruct (slice_step row_index); reflexivity. Qed.

Lemma fallback_not_kernel (K K' : KernelLinearOperator)
    (row_index col_index : index) (batch_indices : list index)
    (handler : exn -> M getitem_result) (h h' : heap) :
  (forall e h1 r h2, handler e h1 <> (inr r, h2)) ->
  try_except (covar_mat_getitem K row_index col_index batch_indices)
             handler h
  <> (inr (RKernel K'), h').
Proof.
  intros Hh H; apply try_except_inr in H.
  destruct H as [H | (e & h1 & _ & H)].
  - apply covar_mat_getitem_inr in H; destruct H as [l H]; discriminate.
  - exact (Hh _ _ _ _ H).
Qed.

(** An operator with more than one output per input never answers
    [_getitem] with an operator of its own class over indexed point sets:
    whatever the indices are, it returns what the dense matrix returns for
    them, or raises. *)
Theorem multi_output_getitem_never_kernel (K K' : KernelLinearOperator)
    (row_index col_index : index) (batch_indices : list index)
    (h h' : heap) :
  fst (num_outputs_per_input K) <> 1%Z \/
  snd (num_outputs_per_input K) <> 1%Z ->
  _getitem K row_index col_index batch_indices h <> (inr (RKernel K'), h').
Proof.
  intros Hrc; unfold _getitem.
  destruct (num_outputs_per_input K) as [r c]; simpl in Hrc.
  rewrite (multi_output_cond r c Hrc).
  destruct (negb (is_slice row_index) || negb (is_slice col_index)).
  - apply fallback_not_kernel; intros e h1 r0 h2; discriminate.
  - intros H; apply bind_inr in H; destruct H as (sz & h0 & _ & H).
    rewrite steps_never_None in H; revert H.
    apply fallback_not_kernel; intros e h1 r0 h2.
    apply bind_raise_not_inr.
Qed.

(** Once [covar_mat] has returned, it returns the same again from the
    cache. *)
Lemma covar_mat_stable (K : KernelLinearOperator) (h h1 : heap)
    (cm : covar_out) :
  covar_mat K h = (inr cm, h1) -> covar_mat K h1 = (inr cm, h1).
Proof.
  unfold covar_mat, cached, call_covar.
  destruct (covar_mat_cache h) as [v|] eqn:Hc.
  - intros H; inversion H; subst; rewrite Hc; reflexivity.
  - destruct (covar_func K _ _ _ _) as [e|v]; intros H; inversion H.
    reflexivity.
Qed.

(** When the covariance function of a multi-output operator returns a
    plain torch tensor, which has no [_getitem], every index makes
    [_getitem] raise a TypeError. *)
Theorem multi_output_plain_tensor_type_error (K : KernelLinearOperator)
    (row_index col_index : index) (batch_indices : list index)
    (sz : list Z) (t : tensor V) (h h1 : heap) :
  fst (num_outputs_per_input K) <> 1%Z \/
  snd (num_outputs_per_input K) <> 1%Z ->
  _size K = inr sz ->
  covar_mat K h = (inr (OutTensor t), h1) ->
  exists m,
    _getitem K row_index col_index batch_indices h
    = (inl (TypeError m), h1).
Proof.
  intros Hrc Hsz Hcm; unfold _getitem.
  destruct (num_outputs_per_input K) as [r c]; simpl in Hrc.
  rewrite (multi_output_cond r c Hrc).
  assert (Hbody : covar_mat_getitem K row_index col_index batch_indices h
                  = (inl AttributeError, h1)).
  { unfold covar_mat_getitem, bind; rewrite Hcm; reflexivity. }
  destruct (negb (is_slice row_index) || negb (is_slice col_index)).
  - exists JoinExpectedStr; unfold try_except; rewrite Hbody; reflexivity.
  - rewrite Hsz; unfold bind at 1, lift at 1.
    rewrite steps_never_None.
    exists (NoSlicesWithSteps "Tensor").
    unfold try_except; rewrite Hbody.
    unfold bind; rewrite (covar_mat_stable K h h1 _ Hcm); reflexivity.
Qed.

(** Once the dense matrix is in the cache, nothing calls the covariance
    function for it again: neither [covar_mat], nor a product, nor
    [_getitem], whatever the output multiplicity and the indices are. *)
Theorem cached_dense_matrix_is_reused (matmul : covar_out -> tensor V ->
                                                exn + tensor V)
    (K : KernelLinearOperator) (cm : covar_out) (rhs : tensor V)
    (row_index col_index : index) (batch_indices : list index) (h : heap) :
  covar_mat_cache h = Some cm ->
  covar_mat K h = (inr cm, h) /\
  _matmul matmul K rhs h = (matmul cm rhs, h) /\
  snd (_getitem K row_index col_index batch_indices h) = h.
Proof.
  intros Hc.
  assert (Hcm : covar_mat K h = (inr cm, h)).
  { unfold covar_mat, cached; rewrite Hc; reflexivity. }
  split; [exact Hcm|].
  split; [unfold _matmul, bind; rewrite Hcm; reflexivity|].
  unfold _getitem.
  destruct (num_outputs_per_input K) as [r c].
  destruct (negb (r =? 1)%Z || negb (c =? 1)%Z);
    [|apply getitem_points_heap].
  assert (Hbody : snd (covar_mat_getitem K row_index col_index
                         batch_indices h) = h).
  { unfold covar_mat_getitem, bind; rewrite Hcm.
    destruct cm as [t|l]; [reflexivity|].
    unfold lift, ret; destruct (linop_getitem l _ _ _); reflexivity. }
  destruct (negb (is_slice row_index) || negb (is_slice col_index)).
  - unfold try_except.
    destruct (covar_mat_getitem K _ _ _ h) as [[e|r0] h0];
      simpl in Hbody; subst h0; reflexivity.
  - unfold bind at 1, lift at 1.
    destruct (_size K) as [e|sz]; [reflexivity|].
    rewrite steps_never_None; unfold try_except.
    destruct (covar_mat_getitem K _ _ _ h) as [[e|r0] h0];
      simpl in Hbody; subst h0; [|reflexivity].
    unfold bind; rewrite Hcm; reflexivity.
Qed.

(** The first product calls the covariance function once and caches the
    dense matrix; when the covariance function raises, the product raises
    the same and nothing is cached. *)
Theorem matmul_materializes_once (matmul : covar_out -> tensor V ->
                                           exn + tensor V)
    (K : KernelLinearOperator) (rhs : tensor V) (h : heap) :
  covar_mat_cache h = None ->
  match covar_func K (x1 K) (x2 K) (tensor_params K)
                   (nontensor_params K) with
  | inr cm =>
      _matmul matmul K rhs h = (matmul cm rhs, set_covar_mat cm (bump h)) /\
      forall rhs',
        _matmul matmul K rhs' (set_covar_mat cm (bump h))
        = (matmul cm rhs', set_covar_mat cm (bump h))
  | inl e => _matmul matmul K rhs h = (inl e, bump h)
  end.
Proof.
  intros Hc; unfold _matmul, bind, covar_mat, cached, call_covar.
  rewrite Hc.
  destruct (covar_func K _ _ _ _) as [e|cm]; [reflexivity|].
  split; reflexivity.
Qed.

End DenseFallback.

(** ** Inputs that need no expansion *)

Section AlignedInputs.

Context {E : Env}.

Lemma construct_aligned (a1 a2 : tensor V) (f : covar_fn)
    (n : outputs_arg) (params : list (string * param)) (bs : shape_t) :
  wf a1 -> wf a2 ->
  batch_shape (shape a1) = bs -> batch_shape (shape a2) = bs ->
  Forall (fun nv => wf (snd nv) /\ batch_shape (shape (snd nv)) = bs)
         (split_tensor_params params) ->
  NoDup (map fst (split_tensor_params params)) ->
  construct a1 a2 f n params
  = inr {| batch_broadcast_shape := bs;
           x1 := a1;
           x2 := a2;
           tensor_params := split_tensor_params params;
           nontensor_params := split_nontensor_params params;
           covar_func := f;
           num_outputs_per_input := pair_of n;
           param_batch_shapes :=
             map (fun nv => (fst nv, bs)) (split_tensor_params params);
           param_nonbatch_shapes :=
             map (fun nv => (fst nv, nonbatch_shape (shape (snd nv))))
                 (split_tensor_params params) |}.
Proof.
  intros Hw1 Hw2 Hb1 Hb2 Hp Hnd.
  set (tp := split_tensor_params params) in *.
  unfold construct; fold tp.
  rewrite map_map; simpl.
  rewrite broadcast_shapes_cons2, Hb1, Hb2, broadcast2_same.
  rewrite fold_broadcast_same.
  2:{ apply Forall_map; eapply Forall_impl; [|exact Hp].
      intros nv [_ H]; exact H. }
  rewrite <- Hb1 at 1; rewrite batch_nonbatch, (expand_same _ _ a1 Hw1); simpl.
  rewrite <- Hb2 at 1; rewrite batch_nonbatch, (expand_same _ _ a2 Hw2); simpl.
  change (mapE _ tp) with (mapE (expand_param bs tp) tp).
  rewrite (mapE_id _ (expand_param bs tp)).
  2:{ intros [nm v] Hin; unfold expand_param; simpl.
      rewrite (lookup_map_in _ _ (fun t => nonbatch_shape (shape t))
                 _ nm v Hnd Hin); simpl.
      rewrite Forall_forall in Hp; destruct (Hp _ Hin) as [Hwf Hbv].
      simpl in Hwf, Hbv; rewrite <- Hbv, batch_nonbatch.
      rewrite (expand_same _ _ v Hwf); reflexivity. }
  simpl; rewrite map_map; simpl.
  destruct n; reflexivity.
Qed.

(** When the point sets and the tensor parameters already share one batch
    shape, [__init__] stores them as they are: the instance holds the given
    tensors, the opaque parameters, the covariance function and the pair of
    output multiplicities, with that batch shape. *)
Theorem construct_stores_aligned_inputs (a1 a2 : tensor V) (f : covar_fn)
    (n : outputs_arg) (params : list (string * param)) (bs : shape_t) :
  wf a1 -> wf a2 ->
  batch_shape (shape a1) = bs -> batch_shape (shape a2) = bs ->
  Forall (fun nv => wf (snd nv) /\ batch_shape (shape (snd nv)) = bs)
         (split_tensor_params params) ->
  NoDup (map fst (split_tensor_params params)) ->
  construct a1 a2 f n params
  = inr {| batch_broadcast_shape := bs;
           x1 := a1;
           x2 := a2;
           tensor_params := split_tensor_params params;
           nontensor_params := split_nontensor_params params;
           covar_func := f;
           num_outputs_per_input := pair_of n;
           param_batch_shapes :=
             map (fun nv => (fst nv, bs)) (split_tensor_params params);
           param_nonbatch_shapes :=
             map (fun nv => (fst nv, nonbatch_shape (shape (snd nv))))
                 (split_tensor_params params) |}.
Proof. exact (construct_aligned a1 a2 f n params bs). Qed.

End AlignedInputs.

(** ** Indexing with full slices *)

Lemma resolve_noops_prefix (j : nat) (s : shape_t) :
  j <= length s ->
  resolve (repeat _noop_index j) s = inr (map (fun n => Span 0 1 n) s).
Proof.
  unfold _noop_index; revert s; induction j as [|j IH]; intros s Hj.
  - destruct s; reflexivity.
  - destruct s as [|n s]; simpl in Hj; [lia|].
    cbn [repeat resolve map].
    rewrite slice_indices_noop, IH by lia; reflexivity.
Qed.

Lemma plain_noops (j : nat) : plain (repeat _noop_index j).
Proof.
  apply Forall_forall; intros x Hx; apply repeat_spec in Hx; subst.
  split; reflexivity.
Qed.

Section FullSlices.

Context {E : Env}.

(** Full slices, no more than the tensor has dimensions, select all of
    it. *)
Lemma getitem_noops (t : tensor V) (j : nat) :
  wf t -> j <= length (shape t) ->
  tensor_getitem t (repeat _noop_index j) = inr t.
Proof.
  intros Hwf Hj; unfold tensor_getitem.
  rewrite (plain_filter _ (plain_noops j)), (plain_no_tensor _ (plain_noops j)).
  rewrite repeat_length.
  replace (length (shape t) <? j) with false
    by (symmetry; apply Nat.ltb_ge; assumption).
  unfold basic_getitem.
  rewrite (plain_expand_ellipsis _ _ (plain_noops j)); simpl bindE.
  rewrite repeat_length.
  replace (length (shape t) <? j) with false
    by (symmetry; apply Nat.ltb_ge; assumption).
  rewrite resolve_noops_prefix by assumption; simpl bindE.
  rewrite sel_shape_spans_only; f_equal.
  transitivity (build (shape t) (get dflt t)); [|apply build_get; assumption].
  apply build_ext; intros ridx Hr.
  rewrite sel_src_spans_only by (apply in_range_length; assumption).
  reflexivity.
Qed.

(** With one output per input, indexing rows, columns and up to all batch
    dimensions with full slices gives back the operator itself, without a
    call of the covariance function. *)
Theorem getitem_full_slices (K : KernelLinearOperator) (m d1 n d2 j : nat)
    (h : heap) :
  stored_ok K ->
  shape (x1 K) = batch_broadcast_shape K ++ [m; d1] ->
  shape (x2 K) = batch_broadcast_shape K ++ [n; d2] ->
  num_outputs_per_input K = (1, 1)%Z ->
  j <= length (batch_broadcast_shape K) ->
  _getitem K _noop_index _noop_index (repeat _noop_index j) h
  = (inr (RKernel K), h).
Proof.
  intros Hok Hs1 Hs2 Hn Hj.
  pose proof Hok as (Hw1 & Hw2 & Hb1 & Hb2 & Hp & Hnd & Hpb & Hpn).
  unfold _getitem; rewrite Hn.
  change (negb (1 =? 1)%Z || negb (1 =? 1)%Z) with false; cbv iota.
  unfold getitem_points; cbv zeta.
  assert (H1 : tensor_getitem (x1 K)
                 (repeat _noop_index j ++ [_noop_index; _noop_index])
               = inr (x1 K)).
  { change [_noop_index; _noop_index] with (repeat _noop_index 2).
    rewrite <- repeat_app; apply getitem_noops; [assumption|].
    rewrite Hs1, length_app; simpl; lia. }
  assert (H2 : tensor_getitem (x2 K)
                 (repeat _noop_index j ++ [_noop_index; _noop_index])
               = inr (x2 K)).
  { change [_noop_index; _noop_index] with (repeat _noop_index 2).
    rewrite <- repeat_app; apply getitem_noops; [assumption|].
    rewrite Hs2, length_app; simpl; lia. }
  rewrite (bind_ok _ _ _ _ h h (x1 K))
    by (unfold index_point_set; rewrite H1; reflexivity).
  rewrite (bind_ok _ _ _ _ h h (x2 K))
    by (unfold index_point_set; rewrite H2; reflexivity).
  rewrite (bind_ok _ _ _ _ h h (tensor_params K)).
  2:{ unfold lift; f_equal; apply mapE_id; intros [nm v] Hin; simpl.
      rewrite Hpn.
      rewrite (lookup_map_in _ _ (fun t => nonbatch_shape (shape t))
                 _ nm v Hnd Hin); simpl.
      rewrite Forall_forall in Hp; destruct (Hp _ Hin) as (Hwf & Hbv & Hr).
      simpl in Hwf, Hbv, Hr.
      rewrite <- repeat_app, getitem_noops; try assumption; [reflexivity|].
      rewrite length_nonbatch_shape by assumption.
      rewrite <- (batch_nonbatch (shape v)), length_app, Hbv.
      rewrite length_nonbatch_shape by assumption; lia. }
  rewrite (bind_ok _ _ _ _ h h K); [reflexivity|].
  unfold lift; f_equal.
  rewrite (derive_stored K (x1 K) (x2 K) Hok Hw1 Hw2 Hb1 Hb2).
  destruct K; reflexivity.
Qed.

End FullSlices.

(** ** Row and column slices *)

Lemma slice_indices_bounds (a b m : nat) :
  a <= b -> b <= m ->
  slice_indices (Some (Z.of_nat a)) (Some (Z.of_nat b)) None m
  = inr (Span a 1 (b - a)).
Proof.
  intros Hab Hbm; unfold slice_indices.
  change (1 <=? 0)%Z with false; cbv iota zeta.
  replace (Z.of_nat a <? 0)%Z with false by (symmetry; apply Z.ltb_ge; lia).
  replace (Z.of_nat b <? 0)%Z with false by (symmetry; apply Z.ltb_ge; lia).
  rewrite !Z.min_l by lia.
  destruct (Z.of_nat b <=? Z.of_nat a)%Z eqn:Hle.
  - apply Z.leb_le in Hle; replace (b - a) with 0 by lia.
    rewrite Nat2Z.id; reflexivity.
  - apply Z.leb_gt in Hle.
    rewrite Z.add_simpl_r, Z.div_1_r, Nat2Z.id.
    f_equal; f_equal; lia.
Qed.

Lemma skipn_app_len1 (A : Type) (l tl : list A) (x : A) :
  skipn (S (length l)) (l ++ x :: tl) = tl.
Proof. induction l; simpl; auto. Qed.

Section RowColSlices.

Context {E : Env}.

(** [t[..., a:b, :]] with one full slice per batch dimension. *)
Lemma getitem_row_slice (t : tensor V) (bs : shape_t) (m d a b : nat) :
  shape t = bs ++ [m; d] -> a <= b -> b <= m ->
  tensor_getitem t (repeat _noop_index (length bs)
                    ++ [slice_of a b; _noop_index])
  = inr (row_slice (length bs) a b t).
Proof.
  intros Hs Hab Hbm.
  assert (Hpl : plain (repeat _noop_index (length bs)
                       ++ [slice_of a b; _noop_index])).
  { apply Forall_app; split; [apply plain_noops|].
    repeat constructor. }
  assert (Hrk : (length (shape t)
                 <? length (repeat _noop_index (length bs)
                            ++ [slice_of a b; _noop_index])) = false).
  { apply Nat.ltb_ge.
    rewrite Hs, !length_app, repeat_length; simpl; lia. }
  unfold tensor_getitem.
  rewrite (plain_filter _ Hpl), (plain_no_tensor _ Hpl), Hrk.
  unfold basic_getitem.
  rewrite (plain_expand_ellipsis _ _ Hpl); simpl bindE; rewrite Hrk.
  rewrite Hs, resolve_noops.
  unfold slice_of, _noop_index; cbn [resolve].
  rewrite slice_indices_bounds, slice_indices_noop by assumption.
  simpl bindE.
  rewrite sel_shape_spans; simpl sel_shape.
  unfold row_slice; rewrite Hs, firstn_app_exact, nth_app_len1.
  f_equal; apply build_ext; intros ridx Hr.
  apply in_range_app_inv in Hr; destruct Hr as (bi & tl & -> & Hbi & Htl).
  pose proof (in_range_length _ _ Hbi) as Hlen.
  destruct tl as [|i [|e [|? ?]]];
    try (apply in_range_length in Htl; simpl in Htl; lia).
  rewrite sel_src_spans by assumption.
  rewrite <- Hlen, firstn_app_exact, nth_app_len0, skipn_app_len1.
  simpl sel_src; repeat f_equal; lia.
Qed.

Lemma get_row_slice (t : tensor V) (bs : shape_t) (m d a b : nat)
    (bi : list nat) (i e : nat) :
  shape t = bs ++ [m; d] ->
  in_range bs bi -> i < b - a -> e < d ->
  get dflt (row_slice (length bs) a b t) (bi ++ [i; e])
  = get dflt t (bi ++ [a + i; e]).
Proof.
  intros Hs Hbi Hi He; unfold row_slice.
  rewrite Hs, firstn_app_exact, nth_app_len1.
  pose proof (in_range_length _ _ Hbi) as Hlen.
  rewrite get_build.
  - rewrite <- Hlen, firstn_app_exact, nth_app_len0, skipn_app_len1.
    reflexivity.
  - apply in_range_app; [assumption|].
    apply in_range_cons; split; [assumption|].
    apply in_range_cons; split; [assumption | constructor].
Qed.

Lemma shape_row_slice (t : tensor V) (bs : shape_t) (m d a b : nat) :
  shape t = bs ++ [m; d] ->
  shape (row_slice (length bs) a b t) = bs ++ [b - a; d].
Proof.
  intros Hs; unfold row_slice; simpl.
  rewrite Hs, firstn_app_exact, nth_app_len1; reflexivity.
Qed.

(** With one output per input, slicing rows [a:b] and columns [c:d] (and
    all of every batch dimension) gives the operator over the points
    [a..b-1] of the row set and [c..d-1] of the column set, with the same
    parameters and covariance function.  Its size is [b - a] by [d - c], and
    the covariance function is not called. *)
Theorem getitem_row_col_slices (K : KernelLinearOperator)
    (m d1 n d2 a b c d : nat) (h : heap) :
  stored_ok K ->
  shape (x1 K) = batch_broadcast_shape K ++ [m; d1] ->
  shape (x2 K) = batch_broadcast_shape K ++ [n; d2] ->
  num_outputs_per_input K = (1, 1)%Z ->
  a <= b -> b <= m -> c <= d -> d <= n ->
  let nb := length (batch_broadcast_shape K) in
  let K' := with_points K (row_slice nb a b (x1 K))
                          (row_slice nb c d (x2 K)) in
  _getitem K (slice_of a b) (slice_of c d) (repeat _noop_index nb) h
  = (inr (RKernel K'), h) /\
  _size K' = inr (map Z.of_nat (batch_broadcast_shape K)
                  ++ [Z.of_nat (b - a); Z.of_nat (d - c)]).
Proof.
  intros Hok Hs1 Hs2 Hn Hab Hbm Hcd Hdn nb K'.
  pose proof Hok as (Hw1 & Hw2 & Hb1 & Hb2 & Hp & Hnd & Hpb & Hpn).
  split.
  - unfold _getitem; rewrite Hn.
    change (negb (1 =? 1)%Z || negb (1 =? 1)%Z) with false; cbv iota.
    unfold getitem_points; cbv zeta.
    rewrite (bind_ok _ _ _ _ h h (row_slice nb a b (x1 K)))
      by (unfold index_point_set, nb;
          rewrite (getitem_row_slice _ _ m d1 a b Hs1 Hab Hbm); reflexivity).
    rewrite (bind_ok _ _ _ _ h h (row_slice nb c d (x2 K)))
      by (unfold index_point_set, nb;
          rewrite (getitem_row_slice _ _ n d2 c d Hs2 Hcd Hdn); reflexivity).
    rewrite (bind_ok _ _ _ _ h h (tensor_params K)).
    2:{ unfold lift; f_equal; apply mapE_id; intros [nm v] Hin; simpl.
        rewrite Hpn.
        rewrite (lookup_map_in _ _ (fun t => nonbatch_shape (shape t))
                   _ nm v Hnd Hin); simpl.
        rewrite Forall_forall in Hp; destruct (Hp _ Hin) as (Hwf & Hbv & Hr).
        simpl in Hwf, Hbv, Hr.
        rewrite <- repeat_app, getitem_noops; try assumption; [reflexivity|].
        rewrite length_nonbatch_shape by assumption.
        rewrite <- (batch_nonbatch (shape v)), length_app, Hbv.
        rewrite length_nonbatch_shape by assumption; unfold nb; lia. }
    rewrite (bind_ok _ _ _ _ h h K'); [reflexivity|].
    unfold lift; f_equal; apply derive_stored; try assumption.
    + apply wf_build.
    + apply wf_build.
    + unfold nb; rewrite (shape_row_slice _ _ m d1 a b Hs1).
      apply batch_shape_app2.
    + unfold nb; rewrite (shape_row_slice _ _ n d2 c d Hs2).
      apply batch_shape_app2.
  - unfold _size, K'; simpl x1; simpl x2; simpl num_outputs_per_input.
    rewrite Hn; unfold nb.
    rewrite (shape_row_slice _ _ m d1 a b Hs1).
    rewrite (shape_row_slice _ _ n d2 c d Hs2).
    rewrite !dim_count_app2; simpl batch_broadcast_shape.
    rewrite !Z.mul_1_r; reflexivity.
Qed.

End RowColSlices.

(** ** Entries of the dense matrix *)

Section DenseEntries.

Context {E : Env}.

(** The dense matrix of an operator whose covariance function computes
    pairwise covariances. *)
Lemma dense_entries (K : KernelLinearOperator) (k : kernel_fn)
    (m d1 n d2 : nat) :
  stored_ok K ->
  shape (x1 K) = batch_broadcast_shape K ++ [m; d1] ->
  shape (x2 K) = batch_broadcast_shape K ++ [n; d2] ->
  computes_pairwise (covar_func K) k ->
  exists D,
    covar_func K (x1 K) (x2 K) (tensor_params K) (nontensor_params K)
    = inr (OutTensor D) /\
    shape D = batch_broadcast_shape K ++ [m; n] /\
    forall bi i j,
      in_range (batch_broadcast_shape K) bi -> i < m -> j < n ->
      get dflt D (bi ++ [i; j])
      = k (point (x1 K) bi i) (point (x2 K) bi j)
          (map (fun nv => (fst nv, param_at (snd nv) bi)) (tensor_params K))
          (nontensor_params K).
Proof.
  intros Hok Hs1 Hs2 Hpw.
  set (bs := batch_broadcast_shape K) in *.
  destruct Hok as (_ & _ & _ & _ & Hp & _).
  assert (Hb : broadcast_shapes
                 (batch_shapes (x1 K) (x2 K) (tensor_params K)) = Some bs).
  { unfold batch_shapes.
    rewrite Hs1, Hs2, !batch_shape_app2, broadcast_shapes_cons2.
    rewrite broadcast2_same; apply fold_broadcast_same.
    apply Forall_map; eapply Forall_impl; [|exact Hp].
    intros nv (_ & H & _); exact H. }
  pose proof (pairwise_covar_eval k (x1 K) (x2 K) (tensor_params K)
                (nontensor_params K) m n bs) as Hd.
  rewrite Hs1, Hs2, !dim_count_app2 in Hd.
  specialize (Hd eq_refl eq_refl Hb).
  rewrite <- (Hpw _ _ _ _) in Hd.
  eexists; split; [exact Hd|]; split; [reflexivity|].
  intros bi i j Hbi Hi Hj.
  pose proof (in_range_length _ _ Hbi) as Hlen.
  rewrite get_build.
  - cbv zeta; rewrite <- Hlen.
    rewrite firstn_app_exact, nth_app_len0, nth_app_len1; reflexivity.
  - apply in_range_app; [assumption|].
    apply in_range_cons; split; [assumption|].
    apply in_range_cons; split; [assumption | constructor].
Qed.

(** The points of a row slice. *)
Lemma point_row_slice (t : tensor V) (bs : shape_t) (m d a b : nat)
    (bi : list nat) (i : nat) :
  shape t = bs ++ [m; d] ->
  in_range bs bi -> i < b - a ->
  point (row_slice (length bs) a b t) bi i = point t bi (a + i).
Proof.
  intros Hs Hbi Hi; unfold point.
  rewrite (shape_row_slice t bs m d a b Hs), Hs.
  rewrite !dim_last_app2, !batch_shape_app2.
  apply map_ext_in; intros e He; apply in_seq in He.
  rewrite !align_same by assumption.
  apply (get_row_slice t bs m d a b bi i e Hs Hbi Hi); lia.
Qed.

(** What [_getitem] returns for a row slice and a column slice when there
    is one output per input. *)
Lemma getitem_slices_stored (K : KernelLinearOperator)
    (m d1 n d2 a b c d : nat) (h : heap) :
  stored_ok K ->
  shape (x1 K) = batch_broadcast_shape K ++ [m; d1] ->
  shape (x2 K) = batch_broadcast_shape K ++ [n; d2] ->
  num_outputs_per_input K = (1, 1)%Z ->
  a <= b -> b <= m -> c <= d -> d <= n ->
  _getitem K (slice_of a b) (slice_of c d)
           (repeat _noop_index (length (batch_broadcast_shape K))) h
  = (inr (RKernel
            (with_points K
               (row_slice (length (batch_broadcast_shape K)) a b (x1 K))
               (row_slice (length (batch_broadcast_shape K)) c d (x2 K)))),
     h).
Proof.
  intros Hok Hs1 Hs2 Hn Hab Hbm Hcd Hdn.
  pose proof Hok as (Hw1 & Hw2 & Hb1 & Hb2 & Hp & Hnd & Hpb & Hpn).
  set (nb := length (batch_broadcast_shape K)).
  unfold _getitem; rewrite Hn.
  change (negb (1 =? 1)%Z || negb (1 =? 1)%Z) with false; cbv iota.
  unfold getitem_points; cbv zeta.
  rewrite (bind_ok _ _ _ _ h h (row_slice nb a b (x1 K)))
    by (unfold index_point_set, nb;
        rewrite (getitem_row_slice _ _ m d1 a b Hs1 Hab Hbm); reflexivity).
  rewrite (bind_ok _ _ _ _ h h (row_slice nb c d (x2 K)))
    by (unfold index_point_set, nb;
        rewrite (getitem_row_slice _ _ n d2 c d Hs2 Hcd Hdn); reflexivity).
  rewrite (bind_ok _ _ _ _ h h (tensor_params K)).
  2:{ unfold lift; f_equal; apply mapE_id; intros [nm v] Hin; simpl.
      rewrite Hpn.
      rewrite (lookup_map_in _ _ (fun t => nonbatch_shape (shape t))
                 _ nm v Hnd Hin); simpl.
      rewrite Forall_forall in Hp; destruct (Hp _ Hin) as (Hwf & Hbv & Hr).
      simpl in Hwf, Hbv, Hr.
      rewrite <- repeat_app, getitem_noops; try assumption; [reflexivity|].
      rewrite length_nonbatch_shape by assumption.
      rewrite <- (batch_nonbatch (shape v)), length_app, Hbv.
      rewrite length_nonbatch_shape by assumption; unfold nb; lia. }
  rewrite (bind_ok _ _ _ _ h h
             (with_points K (row_slice nb a b (x1 K))
                            (row_slice nb c d (x2 K)))); [reflexivity|].
  unfold lift; f_equal; apply derive_stored; try assumption.
  - apply wf_build.
  - apply wf_build.
  - unfold nb; rewrite (shape_row_slice _ _ m d1 a b Hs1).
    apply batch_shape_app2.
  - unfold nb; rewrite (shape_row_slice _ _ n d2 c d Hs2).
    apply batch_shape_app2.
Qed.

(** With one output per input and a covariance function that computes
    pairwise covariances: the operator that [_getitem] returns for the rows
    [a:b] and the columns [c:d] materializes, through [covar_mat], to the
    block of rows [a..b-1] and columns [c..d-1] of the matrix that
    [covar_mat] gives for the operator itself. *)
Theorem sliced_operator_dense_block (K : KernelLinearOperator)
    (k : kernel_fn) (m d1 n d2 a b c d : nat) (h : heap) :
  stored_ok K ->
  shape (x1 K) = batch_broadcast_shape K ++ [m; d1] ->
  shape (x2 K) = batch_broadcast_shape K ++ [n; d2] ->
  num_outputs_per_input K = (1, 1)%Z ->
  computes_pairwise (covar_func K) k ->
  a <= b -> b <= m -> c <= d -> d <= n ->
  exists K' D D',
    _getitem K (slice_of a b) (slice_of c d)
             (repeat _noop_index (length (batch_broadcast_shape K))) h
    = (inr (RKernel K'), h) /\
    (forall h0, covar_mat_cache h0 = None ->
       covar_mat K h0
       = (inr (OutTensor D), set_covar_mat (OutTensor D) (bump h0))) /\
    (forall h0, covar_mat_cache h0 = None ->
       covar_mat K' h0
       = (inr (OutTensor D'), set_covar_mat (OutTensor D') (bump h0))) /\
    shape D = batch_broadcast_shape K ++ [m; n] /\
    shape D' = batch_broadcast_shape K ++ [b - a; d - c] /\
    forall bi i j,
      in_range (batch_broadcast_shape K) bi -> i < b - a -> j < d - c ->
      get dflt D' (bi ++ [i; j]) = get dflt D (bi ++ [a + i; c + j]).
Proof.
  intros Hok Hs1 Hs2 Hn Hpw Hab Hbm Hcd Hdn.
  set (nb := length (batch_broadcast_shape K)).
  set (K' := with_points K (row_slice nb a b (x1 K))
                           (row_slice nb c d (x2 K))).
  pose proof Hok as (Hw1 & Hw2 & Hb1 & Hb2 & _).
  destruct (dense_entries K k m d1 n d2 Hok Hs1 Hs2 Hpw)
    as (D & HD & HsD & HDe).
  assert (Hs1' : shape (x1 K') = batch_broadcast_shape K' ++ [b - a; d1])
    by (apply (shape_row_slice _ _ m d1 a b Hs1)).
  assert (Hs2' : shape (x2 K') = batch_broadcast_shape K' ++ [d - c; d2])
    by (apply (shape_row_slice _ _ n d2 c d Hs2)).
  assert (Hok' : stored_ok K').
  { apply stored_ok_with_points; try assumption; try apply wf_build.
    - unfold nb; rewrite (shape_row_slice _ _ m d1 a b Hs1).
      apply batch_shape_app2.
    - unfold nb; rewrite (shape_row_slice _ _ n d2 c d Hs2).
      apply batch_shape_app2. }
  destruct (dense_entries K' k (b - a) d1 (d - c) d2 Hok' Hs1' Hs2' Hpw)
    as (D' & HD' & HsD' & HDe').
  exists K', D, D'.
  split; [apply (getitem_slices_stored K m d1 n d2); assumption|].
  split.
  { intros h0 Hc; unfold covar_mat, cached, call_covar.
    rewrite Hc, HD; reflexivity. }
  split.
  { intros h0 Hc; unfold covar_mat, cached, call_covar.
    rewrite Hc, HD'; reflexivity. }
  split; [exact HsD|].
  split; [exact HsD'|].
  intros bi i j Hbi Hi Hj.
  rewrite (HDe' bi i j Hbi Hi Hj), (HDe bi (a + i) (c + j)) by (auto; lia).
  simpl x1; simpl x2; simpl tensor_params; simpl nontensor_params.
  unfold nb.
  rewrite (point_row_slice _ _ m d1 a b bi i Hs1 Hbi Hi).
  rewrite (point_row_slice _ _ n d2 c d bi j Hs2 Hbi Hj).
  reflexivity.
Qed.

(** The point that [_get_indices] passes on is the point of the set. *)
Lemma point_point_set (x : tensor V) (bs : shape_t) (m d : nat)
    (bi : list nat) (i : nat) :
  shape x = bs ++ [m; d] -> in_range bs bi ->
  point (point_set d x bi i) [] 0 = point x bi i.
Proof.
  intros Hs Hbi; unfold point, point_set; simpl shape.
  change (dim_last [1; d]) with (Some d).
  rewrite Hs, dim_last_app2, batch_shape_app2.
  apply map_ext_in; intros e He; apply in_seq in He.
  rewrite (align_same bs bi) by assumption.
  change (batch_shape [1; d]) with (@nil nat).
  change (align [] [] ++ [0; e]) with [0; e].
  change (get dflt (Tensor [1; d]
                      (tabulate [d] (fun ridx => get dflt x (bi ++ i :: ridx))))
              [0; e])
    with (get dflt (build [d] (fun ridx => get dflt x (bi ++ i :: ridx))) [e]).
  rewrite get_build; [reflexivity|].
  apply in_range_cons; split; [lia | constructor].
Qed.

Lemma param_at_param_at (p : tensor V) (bi : list nat) :
  2 <= length (shape p) ->
  param_at (param_at p bi) [] = param_at p bi.
Proof.
  intros Hr.
  destruct (shape_split (nonbatch_shape (shape p))) as (b0 & q1 & q2 & Hq).
  { rewrite length_nonbatch_shape by assumption; lia. }
  assert (Hb0 : b0 = []).
  { apply (f_equal (@length nat)) in Hq.
    rewrite length_nonbatch_shape, length_app in Hq by assumption.
    simpl in Hq; destruct b0; [reflexivity | simpl in Hq; lia]. }
  subst b0; simpl in Hq.
  unfold param_at at 1.
  assert (Hsh : shape (param_at p bi) = [q1; q2]) by (simpl; exact Hq).
  rewrite Hsh.
  change (nonbatch_shape [q1; q2]) with [q1; q2].
  change (batch_shape [q1; q2]) with (@nil nat).
  change (align [] []) with (@nil nat).
  rewrite <- Hsh.
  apply build_get, wf_build.
Qed.

(** For a covariance function that computes pairwise covariances, the
    element lookup returns the entry of the dense matrix: row [i], column
    [j] at the batch position [bi], as a tensor of no dimension, after one
    call of the covariance function on that pair of points. *)
Theorem get_indices_matches_dense (K : KernelLinearOperator) (k : kernel_fn)
    (bi : list nat) (i j m d1 n d2 : nat) (h : heap) :
  stored_ok K ->
  shape (x1 K) = batch_broadcast_shape K ++ [m; d1] ->
  shape (x2 K) = batch_broadcast_shape K ++ [n; d2] ->
  computes_pairwise (covar_func K) k ->
  in_range (batch_broadcast_shape K) bi -> i < m -> j < n ->
  exists D,
    covar_func K (x1 K) (x2 K) (tensor_params K) (nontensor_params K)
    = inr (OutTensor D) /\
    _get_indices K (nat_index i) (nat_index j) (map nat_index bi) h
    = (inr (Tensor [] [get dflt D (bi ++ [i; j])]), bump h).
Proof.
  intros Hok Hs1 Hs2 Hpw Hbi Hi Hj.
  destruct (dense_entries K k m d1 n d2 Hok Hs1 Hs2 Hpw)
    as (D & HD & _ & HDe).
  exists D; split; [exact HD|].
  rewrite (HDe bi i j Hbi Hi Hj).
  destruct Hok as (_ & _ & _ & _ & Hp & _).
  set (tp_ := map (fun nv => (fst nv, param_at (snd nv) bi))
                  (tensor_params K)).
  unfold _get_indices.
  rewrite (bind_ok _ _ _ _ h h (point_set d1 (x1 K) bi i))
    by (unfold lift;
        rewrite (getitem_point _ _ _ _ _ _ Hs1 Hbi Hi); reflexivity).
  rewrite (bind_ok _ _ _ _ h h (point_set d2 (x2 K) bi j))
    by (unfold lift;
        rewrite (getitem_point _ _ _ _ _ _ Hs2 Hbi Hj); reflexivity).
  rewrite (bind_ok _ _ _ _ h h tp_).
  2:{ unfold lift; f_equal; apply mapE_map; intros nv Hin.
      rewrite Forall_forall in Hp; destruct (Hp nv Hin) as (_ & Hbv & _).
      rewrite (getitem_param _ _ _ Hbv Hbi); reflexivity. }
  assert (Hb : broadcast_shapes
                 (batch_shapes (point_set d1 (x1 K) bi i)
                               (point_set d2 (x2 K) bi j) tp_) = Some []).
  { unfold batch_shapes; simpl shape.
    change (batch_shape [1; d1]) with (@nil nat).
    change (batch_shape [1; d2]) with (@nil nat).
    rewrite broadcast_shapes_cons2, broadcast2_same.
    apply fold_broadcast_same.
    unfold tp_; rewrite map_map; simpl.
    apply Forall_map, Forall_forall; intros nv Hin.
    rewrite Forall_forall in Hp; destruct (Hp nv Hin) as (_ & _ & Hr).
    destruct (shape_split (nonbatch_shape (shape (snd nv))))
      as (b0 & q1 & q2 & Hq).
    { rewrite length_nonbatch_shape by assumption; lia. }
    rewrite Hq, batch_shape_app2.
    apply (f_equal (@length nat)) in Hq.
    rewrite length_nonbatch_shape, length_app in Hq by assumption.
    simpl in Hq; destruct b0; [reflexivity | simpl in Hq; lia]. }
  pose proof (pairwise_covar_eval k (point_set d1 (x1 K) bi i)
                (point_set d2 (x2 K) bi j) tp_ (nontensor_params K)
                1 1 [] eq_refl eq_refl Hb) as Hout.
  rewrite <- (Hpw _ _ _ _) in Hout.
  unfold bind at 1, call_covar; rewrite Hout.
  match type of Hout with
  | _ = inr (OutTensor ?t) => set (out := t) in *
  end.
  change (to_dense (OutTensor out)) with out.
  change (shape_eqb (nonbatch_shape (shape out)) [1; 1]) with true.
  unfold assert, bind, ret, lift.
  rewrite (getitem_ellipsis_00 out [] 1 1) by (try lia; reflexivity).
  f_equal; f_equal.
  change (build [] (fun ridx => get dflt out (ridx ++ [0; 0])))
    with (Tensor [] [get dflt out [0; 0]]).
  f_equal; f_equal.
  unfold out; rewrite get_build
    by (repeat (apply in_range_cons; split; [lia|]); constructor).
  cbv zeta; simpl firstn; simpl nth.
  rewrite (point_point_set _ _ m d1 bi i Hs1 Hbi).
  rewrite (point_point_set _ _ n d2 bi j Hs2 Hbi).
  f_equal.
  unfold tp_; rewrite map_map; simpl.
  apply map_ext_in; intros nv Hin.
  rewrite Forall_forall in Hp; destruct (Hp nv Hin) as (_ & _ & Hr).
  rewrite param_at_param_at by assumption; reflexivity.
Qed.

End DenseEntries.

(** ** Unsqueezing a batch dimension *)

Lemma prod_app (a b : shape_t) : prod (a ++ b) = prod a * prod b.
Proof.
  induction a as [|x a IH]; simpl; [lia|].
  fold (prod (a ++ b)); fold (prod a); rewrite IH; lia.
Qed.

Lemma prod_insert_one (p : nat) (s : shape_t) :
  prod (insert_one p s) = prod s.
Proof.
  unfold insert_one.
  rewrite <- (firstn_skipn p s) at 3.
  rewrite !prod_app; simpl; fold (prod (skipn p s)); lia.
Qed.

Lemma insert_one_app (p : nat) (bs tl : shape_t) :
  p <= length bs -> insert_one p (bs ++ tl) = insert_one p bs ++ tl.
Proof.
  intros Hp; unfold insert_one.
  rewrite firstn_app, skipn_app.
  replace (p - length bs) with 0 by lia; simpl.
  rewrite app_nil_r, <- app_assoc; reflexivity.
Qed.

Lemma norm_dim_nat (p rank : nat) :
  p < rank -> norm_dim (Z.of_nat p) rank = inr p.
Proof.
  intros H; unfold norm_dim.
  replace ((- Z.of_nat rank <=? Z.of_nat p)
           && (Z.of_nat p <? Z.of_nat rank))%Z with true.
  - replace (Z.of_nat p <? 0)%Z with false
      by (symmetry; apply Z.ltb_ge; lia).
    rewrite Nat2Z.id; reflexivity.
  - symmetry; apply andb_true_iff; split;
      [apply Z.leb_le | apply Z.ltb_lt]; lia.
Qed.

Section UnsqueezeBatch.

Context {E : Env}.

Lemma unsqueeze_nat (t : tensor V) (p : nat) :
  p <= length (shape t) -> unsqueeze t (Z.of_nat p) = inr (unsqueezed p t).
Proof.
  intros Hp; unfold unsqueeze.
  rewrite norm_dim_nat by lia; reflexivity.
Qed.

Lemma wf_unsqueezed (t : tensor V) (p : nat) : wf t -> wf (unsqueezed p t).
Proof.
  unfold wf, unsqueezed; simpl; intros H.
  rewrite prod_insert_one; assumption.
Qed.

Lemma batch_shape_unsqueezed (t : tensor V) (bs : shape_t) (p : nat) :
  batch_shape (shape t) = bs -> 2 <= length (shape t) -> p <= length bs ->
  batch_shape (shape (unsqueezed p t)) = insert_one p bs /\
  nonbatch_shape (shape (unsqueezed p t)) = nonbatch_shape (shape t).
Proof.
  intros Hb Hr Hp; simpl.
  destruct (shape_split (shape t) Hr) as (b0 & q1 & q2 & Hs).
  rewrite Hs, batch_shape_app2 in Hb; subst b0.
  rewrite Hs, insert_one_app by assumption.
  rewrite batch_shape_app2, !nonbatch_shape_app2; auto.
Qed.

(** What [_unsqueeze_batch] returns for a position among the batch
    dimensions. *)
Lemma unsqueeze_batch_stored (K : KernelLinearOperator) (m d1 n d2 p : nat) :
  stored_ok K ->
  shape (x1 K) = batch_broadcast_shape K ++ [m; d1] ->
  shape (x2 K) = batch_broadcast_shape K ++ [n; d2] ->
  p <= length (batch_broadcast_shape K) ->
  _unsqueeze_batch K (Z.of_nat p) = inr (unsqueezed_operator p K) /\
  stored_ok (unsqueezed_operator p K).
Proof.
  intros Hok Hs1 Hs2 Hp.
  pose proof Hok as (Hw1 & Hw2 & Hb1 & Hb2 & Hpar & Hnd & Hpb & Hpn).
  set (bs := batch_broadcast_shape K) in *.
  set (tp' := map (fun nv => (fst nv, unsqueezed p (snd nv)))
                  (tensor_params K)).
  assert (Hr1 : 2 <= length (shape (x1 K)))
    by (rewrite Hs1, length_app; simpl; lia).
  assert (Hr2 : 2 <= length (shape (x2 K)))
    by (rewrite Hs2, length_app; simpl; lia).
  destruct (batch_shape_unsqueezed (x1 K) bs p Hb1 Hr1 Hp) as [Hu1 _].
  destruct (batch_shape_unsqueezed (x2 K) bs p Hb2 Hr2 Hp) as [Hu2 _].
  assert (Hpar' : Forall (fun nv => wf (snd nv) /\
                            batch_shape (shape (snd nv)) = insert_one p bs /\
                            2 <= length (shape (snd nv))) tp').
  { unfold tp'; apply Forall_map; eapply Forall_impl; [|exact Hpar].
    intros nv (Hwf & Hbv & Hr); simpl snd.
    split; [apply wf_unsqueezed; assumption|].
    split; [apply (batch_shape_unsqueezed _ bs p Hbv Hr Hp)|].
    simpl; unfold insert_one; rewrite length_app; simpl.
    rewrite length_firstn, length_skipn; lia. }
  assert (Hnames : map fst tp' = map fst (tensor_params K)).
  { unfold tp'; rewrite map_map; reflexivity. }
  split.
  - unfold _unsqueeze_batch.
    rewrite (unsqueeze_nat (x1 K) p)
      by (rewrite Hs1, length_app; simpl; lia).
    rewrite (unsqueeze_nat (x2 K) p)
      by (rewrite Hs2, length_app; simpl; lia).
    simpl bindE.
    rewrite (mapE_map _ _ _ (fun nv => (fst nv, unsqueezed p (snd nv)))).
    2:{ intros nv Hin.
        rewrite Forall_forall in Hpar; destruct (Hpar nv Hin) as (_ & Hbv & Hr).
        rewrite unsqueeze_nat; [reflexivity|].
        rewrite <- (batch_nonbatch (shape (snd nv))), length_app, Hbv; lia. }
    simpl bindE; fold tp'.
    unfold derive.
    rewrite (construct_aligned _ _ _ _ _ (insert_one p bs)).
    + rewrite split_tensor_keywords, split_nontensor_keywords.
      unfold unsqueezed_operator; fold bs; fold tp'.
      simpl pair_of; destruct (num_outputs_per_input K); reflexivity.
    + apply wf_unsqueezed; assumption.
    + apply wf_unsqueezed; assumption.
    + exact Hu1.
    + exact Hu2.
    + rewrite split_tensor_keywords.
      eapply Forall_impl; [|exact Hpar'].
      intros nv (H1 & H2 & _); auto.
    + rewrite split_tensor_keywords, Hnames; assumption.
  - unfold stored_ok, unsqueezed_operator; fold bs; fold tp'; simpl.
    split; [apply wf_unsqueezed; assumption|].
    split; [apply wf_unsqueezed; assumption|].
    split; [exact Hu1|].
    split; [exact Hu2|].
    split; [exact Hpar'|].
    split; [rewrite Hnames; assumption|].
    split; reflexivity.
Qed.

(** [_unsqueeze_batch] at a position among the batch dimensions puts a
    dimension of size 1 there, in the batch shape and in the shape of every
    stored tensor (both point sets and every tensor parameter, each keeping
    its own trailing two dimensions), and changes no element, parameter name
    or multiplicity: the size is the old one with a 1 at that position. *)
Theorem unsqueeze_batch_inserts_dimension (K : KernelLinearOperator)
    (m d1 n d2 p : nat) :
  stored_ok K ->
  shape (x1 K) = batch_broadcast_shape K ++ [m; d1] ->
  shape (x2 K) = batch_broadcast_shape K ++ [n; d2] ->
  p <= length (batch_broadcast_shape K) ->
  exists K',
    _unsqueeze_batch K (Z.of_nat p) = inr K' /\
    batch_broadcast_shape K' = insert_one p (batch_broadcast_shape K) /\
    shape (x1 K') = insert_one p (batch_broadcast_shape K) ++ [m; d1] /\
    shape (x2 K') = insert_one p (batch_broadcast_shape K) ++ [n; d2] /\
    data (x1 K') = data (x1 K) /\
    data (x2 K') = data (x2 K) /\
    map (fun nv => (fst nv, data (snd nv))) (tensor_params K')
    = map (fun nv => (fst nv, data (snd nv))) (tensor_params K) /\
    Forall2 (fun nv nv' =>
               fst nv' = fst nv /\
               shape (snd nv')
               = insert_one p (batch_broadcast_shape K)
                 ++ nonbatch_shape (shape (snd nv)))
            (tensor_params K) (tensor_params K') /\
    nontensor_params K' = nontensor_params K /\
    num_outputs_per_input K' = num_outputs_per_input K /\
    _size K'
    = inr (map Z.of_nat (insert_one p (batch_broadcast_shape K))
           ++ [(Z.of_nat m * fst (num_outputs_per_input K))%Z;
               (Z.of_nat n * snd (num_outputs_per_input K))%Z]).
Proof.
  intros Hok Hs1 Hs2 Hp.
  destruct (unsqueeze_batch_stored K m d1 n d2 p Hok Hs1 Hs2 Hp) as [HU _].
  exists (unsqueezed_operator p K); split; [exact HU|].
  assert (H1 : shape (x1 (unsqueezed_operator p K))
               = insert_one p (batch_broadcast_shape K) ++ [m; d1]).
  { simpl; rewrite Hs1; apply insert_one_app; assumption. }
  assert (H2 : shape (x2 (unsqueezed_operator p K))
               = insert_one p (batch_broadcast_shape K) ++ [n; d2]).
  { simpl; rewrite Hs2; apply insert_one_app; assumption. }
  split; [reflexivity|].
  split; [exact H1|]. split; [exact H2|].
  split; [reflexivity|]. split; [reflexivity|].
  split; [simpl; rewrite map_map; reflexivity|].
  split.
  { destruct Hok as (_ & _ & _ & _ & Hpar & _).
    simpl tensor_params.
    induction Hpar as [|nv tp (_ & Hbv & Hr) _ IH]; simpl; constructor;
      [|exact IH].
    split; [reflexivity|]; simpl.
    rewrite <- (batch_nonbatch (shape (snd nv))) at 1.
    rewrite Hbv; apply insert_one_app; assumption. }
  split; [reflexivity|]. split; [reflexivity|].
  unfold _size; rewrite H1, H2, !dim_count_app2.
  simpl num_outputs_per_input; simpl batch_broadcast_shape.
  destruct (num_outputs_per_input K); reflexivity.
Qed.

(** Transposing and unsqueezing a batch dimension commute. *)
Theorem transpose_unsqueeze_commute (K : KernelLinearOperator)
    (m d1 n d2 p : nat) :
  stored_ok K ->
  shape (x1 K) = batch_broadcast_shape K ++ [m; d1] ->
  shape (x2 K) = batch_broadcast_shape K ++ [n; d2] ->
  p <= length (batch_broadcast_shape K) ->
  exists K1 K2 K3,
    _unsqueeze_batch K (Z.of_nat p) = inr K1 /\
    _transpose_nonbatch K1 = inr K2 /\
    _transpose_nonbatch K = inr K3 /\
    _unsqueeze_batch K3 (Z.of_nat p) = inr K2.
Proof.
  intros Hok Hs1 Hs2 Hp.
  pose proof Hok as (Hw1 & Hw2 & Hb1 & Hb2 & _).
  destruct (unsqueeze_batch_stored K m d1 n d2 p Hok Hs1 Hs2 Hp)
    as [HU HokU].
  assert (HokT : stored_ok (with_points K (x2 K) (x1 K)))
    by (apply stored_ok_with_points; assumption).
  destruct (unsqueeze_batch_stored (with_points K (x2 K) (x1 K))
              n d2 m d1 p HokT Hs2 Hs1 Hp) as [HUT _].
  exists (unsqueezed_operator p K),
         (unsqueezed_operator p (with_points K (x2 K) (x1 K))),
         (with_points K (x2 K) (x1 K)).
  split; [exact HU|].
  split; [rewrite (transpose_stored _ HokU); reflexivity|].
  split; [apply transpose_stored; assumption|].
  exact HUT.
Qed.

End UnsqueezeBatch.

(** ** Permuting the batch dimensions *)

Lemma mapE_app (A B : Type) (f : A -> exn + B) (l1 l2 : list A)
    (r1 r2 : list B) :
  mapE f l1 = inr r1 -> mapE f l2 = inr r2 ->
  mapE f (l1 ++ l2) = inr (r1 ++ r2).
Proof.
  revert r1; induction l1 as [|a l1 IH]; intros r1 H1 H2; simpl in *.
  - inversion H1; assumption.
  - destruct (f a) as [e|b]; simpl in *; [discriminate|].
    destruct (mapE f l1) as [e|r] eqn:Hm; simpl in *; [discriminate|].
    inversion H1; subst; rewrite (IH r eq_refl H2); reflexivity.
Qed.

Lemma mapE_length (A B : Type) (f : A -> exn + B) (l : list A)
    (r : list B) :
  mapE f l = inr r -> length r = length l.
Proof.
  intros H; apply mapE_Forall2 in H.
  induction H; simpl; congruence.
Qed.

Lemma mapE_norm_dims (dims : list nat) (rank : nat) :
  Forall (fun p => p < rank) dims ->
  mapE (fun d => norm_dim d rank) (map Z.of_nat dims) = inr dims.
Proof.
  induction 1 as [|p dims Hp _ IH]; simpl; [reflexivity|].
  rewrite norm_dim_nat by assumption; simpl.
  rewrite IH; reflexivity.
Qed.

Lemma norm_dim_last (rank : nat) :
  1 <= rank -> norm_dim (-1) rank = inr (rank - 1).
Proof.
  intros H; unfold norm_dim.
  replace ((- Z.of_nat rank <=? -1) && (-1 <? Z.of_nat rank))%Z with true.
  - change (-1 <? 0)%Z with true; cbv iota; f_equal; lia.
  - symmetry; apply andb_true_iff; split;
      [apply Z.leb_le | apply Z.ltb_lt]; lia.
Qed.

Lemma batch_positions (dims : list nat) (nb : nat) :
  Permutation dims (seq 0 nb) ->
  length dims = nb /\ forall p, In p dims <-> p < nb.
Proof.
  intros H; split.
  - rewrite (Permutation_length H); apply length_seq.
  - intros p; split; intros Hp.
    + apply (Permutation_in _ H) in Hp; apply in_seq in Hp; lia.
    + apply (Permutation_in _ (Permutation_sym H)), in_seq; lia.
Qed.

Lemma is_permutation_batch (dims : list nat) (nb : nat) :
  Permutation dims (seq 0 nb) ->
  is_permutation (dims ++ [nb; S nb]) (nb + 2) = true.
Proof.
  intros H; destruct (batch_positions dims nb H) as [Hl Hin].
  unfold is_permutation; apply andb_true_iff; split.
  - rewrite length_app, Hl; simpl; apply Nat.eqb_refl.
  - apply forallb_forall; intros p Hp; apply in_seq in Hp.
    apply existsb_exists.
    exists p; split; [|apply Nat.eqb_refl].
    apply in_or_app.
    destruct (Nat.lt_ge_cases p nb) as [Hlt|Hge];
      [left; apply Hin; assumption|].
    right; simpl; lia.
Qed.

Lemma index_of_app_in (p : nat) (l l' : list nat) :
  In p l -> index_of p (l ++ l') = index_of p l /\ index_of p l < length l.
Proof.
  induction l as [|q l IH]; simpl; [tauto|].
  intros Hin; destruct (Nat.eqb_spec p q) as [Heq|Hne]; [lia|].
  destruct Hin as [Hq|Hin]; [congruence|].
  destruct (IH Hin); lia.
Qed.

Lemma index_of_app_notin (p : nat) (l l' : list nat) :
  ~ In p l -> index_of p (l ++ l') = length l + index_of p l'.
Proof.
  induction l as [|q l IH]; simpl; [reflexivity|].
  intros Hnot; destruct (Nat.eqb_spec p q) as [Heq|Hne];
    [exfalso; apply Hnot; left; congruence|].
  rewrite IH by (intros Hc; apply Hnot; right; assumption); reflexivity.
Qed.

Lemma index_of_seq (p n a : nat) :
  a <= p < a + n -> index_of p (seq a n) = p - a.
Proof.
  revert a; induction n as [|n IH]; intros a Hp; simpl; [lia|].
  destruct (Nat.eqb_spec p a) as [Heq|Hne]; [lia|].
  rewrite IH by lia; lia.
Qed.

Lemma map_nth_seq (A : Type) (l : list A) (d : A) :
  map (fun p => nth p l d) (seq 0 (length l)) = l.
Proof.
  apply (nth_ext _ _ d d).
  - rewrite length_map, length_seq; reflexivity.
  - intros k Hk; rewrite length_map, length_seq in Hk.
    rewrite (nth_map_seq _ (fun p => nth p l d)) by assumption; reflexivity.
Qed.

(** Where [permute] reads the element at [bi ++ [i; k]] of its result. *)
Lemma permuted_index (dims bi : list nat) (nb i k : nat) :
  Permutation dims (seq 0 nb) -> length bi = nb ->
  map (fun p => nth (index_of p (dims ++ [nb; S nb])) (bi ++ [i; k]) 0)
      (seq 0 (nb + 2))
  = map (fun p => nth (index_of p dims) bi 0) (seq 0 nb) ++ [i; k].
Proof.
  intros H Hbi; destruct (batch_positions dims nb H) as [Hl Hin].
  rewrite seq_app, map_app; f_equal.
  - apply map_ext_in; intros p Hp; apply in_seq in Hp.
    destruct (index_of_app_in p dims [nb; S nb]) as [He Hlt];
      [apply Hin; lia|].
    rewrite He, app_nth1 by lia; reflexivity.
  - simpl.
    rewrite !index_of_app_notin by (intros Hc; apply Hin in Hc; lia).
    cbn [seq map index_of].
    rewrite !Nat.eqb_refl.
    replace (S nb =? nb) with false by (symmetry; apply Nat.eqb_neq; lia).
    rewrite Hl, <- Hbi.
    rewrite Nat.add_0_r, Nat.add_1_r.
    rewrite nth_app_len0, nth_app_len1; reflexivity.
Qed.

Section PermuteBatch.

Context {E : Env}.

Lemma permute_batch_dims (t : tensor V) (bs : shape_t) (a b : nat)
    (dims : list nat) :
  shape t = bs ++ [a; b] -> Permutation dims (seq 0 (length bs)) ->
  permute dflt t (map Z.of_nat dims ++ [-2; -1]%Z)
  = inr (permuted_batch dims t) /\
  shape (permuted_batch dims t)
  = map (fun p => nth p bs 0) dims ++ [a; b].
Proof.
  intros Hs H; destruct (batch_positions dims _ H) as [Hl Hin].
  assert (Hrank : length (shape t) = length bs + 2)
    by (rewrite Hs, length_app; reflexivity).
  split.
  - unfold permute.
    rewrite (mapE_app _ _ _ _ _ dims [length bs; S (length bs)]).
    + simpl bindE; rewrite Hrank, (is_permutation_batch _ _ H).
      unfold permuted_batch; rewrite Hrank.
      replace (length bs + 2 - 2) with (length bs) by lia.
      replace (length bs + 2 - 1) with (S (length bs)) by lia.
      reflexivity.
    + apply mapE_norm_dims, Forall_forall; intros p Hp.
      apply Hin in Hp; lia.
    + simpl; rewrite norm_dim_penultimate, norm_dim_last by lia; simpl.
      do 3 f_equal; [|f_equal]; lia.
  - unfold permuted_batch; simpl shape; rewrite Hrank.
    replace (length bs + 2 - 2) with (length bs) by lia.
    replace (length bs + 2 - 1) with (S (length bs)) by lia.
    rewrite map_app, Hs; f_equal.
    + apply map_ext_in; intros p Hp; apply Hin in Hp.
      apply app_nth1; assumption.
    + simpl; rewrite nth_app_len0, nth_app_len1; reflexivity.
Qed.

(** The element of the permuted tensor at a batch index is the element of
    the source at the batch index permuted back. *)
Lemma get_permuted_batch (t : tensor V) (bs : shape_t) (a b : nat)
    (dims bi : list nat) (i k : nat) :
  shape t = bs ++ [a; b] -> Permutation dims (seq 0 (length bs)) ->
  in_range (map (fun p => nth p bs 0) dims) bi -> i < a -> k < b ->
  get dflt (permuted_batch dims t) (bi ++ [i; k])
  = get dflt t (map (fun p => nth (index_of p dims) bi 0)
                    (seq 0 (length bs)) ++ [i; k]).
Proof.
  intros Hs H Hbi Hi Hk.
  destruct (permute_batch_dims t bs a b dims Hs H) as [_ Hsh].
  assert (Hrank : length (shape t) = length bs + 2)
    by (rewrite Hs, length_app; reflexivity).
  assert (Hlen : length bi = length bs).
  { rewrite (in_range_length _ _ Hbi), length_map.
    apply (batch_positions _ _ H). }
  unfold permuted_batch in *; simpl shape in Hsh.
  rewrite Hsh, get_build.
  - rewrite Hrank.
    replace (length bs + 2 - 2) with (length bs) by lia.
    replace (length bs + 2 - 1) with (S (length bs)) by lia.
    rewrite (permuted_index dims bi (length bs) i k H Hlen); reflexivity.
  - apply in_range_app; [assumption|].
    apply in_range_cons; split; [assumption|].
    apply in_range_cons; split; [assumption|constructor].
Qed.

Lemma param_shape (v : tensor V) (bs : shape_t) :
  batch_shape (shape v) = bs -> 2 <= length (shape v) ->
  exists q1 q2, shape v = bs ++ [q1; q2].
Proof.
  intros Hb Hr; destruct (shape_split (shape v) Hr) as (b0 & q1 & q2 & Hs).
  rewrite Hs, batch_shape_app2 in Hb; subst b0; eauto.
Qed.

(** What [_permute_batch] returns for a permutation of the batch
    positions. *)
Lemma permute_batch_stored (K : KernelLinearOperator) (m d1 n d2 : nat)
    (dims : list nat) :
  stored_ok K ->
  shape (x1 K) = batch_broadcast_shape K ++ [m; d1] ->
  shape (x2 K) = batch_broadcast_shape K ++ [n; d2] ->
  Permutation dims (seq 0 (length (batch_broadcast_shape K))) ->
  _permute_batch K (map Z.of_nat dims) = inr (permuted_operator dims K).
Proof.
  intros Hok Hs1 Hs2 Hperm.
  pose proof Hok as (Hw1 & Hw2 & Hb1 & Hb2 & Hpar & Hnd & Hpb & Hpn).
  set (bs := batch_broadcast_shape K) in *.
  set (bs' := map (fun p => nth p bs 0) dims).
  set (tp' := map (fun nv => (fst nv, permuted_batch dims (snd nv)))
                  (tensor_params K)).
  destruct (permute_batch_dims (x1 K) bs m d1 dims Hs1 Hperm) as [HP1 HS1].
  destruct (permute_batch_dims (x2 K) bs n d2 dims Hs2 Hperm) as [HP2 HS2].
  unfold _permute_batch.
  rewrite HP1, HP2; simpl bindE.
  rewrite (mapE_map _ _ _ (fun nv => (fst nv, permuted_batch dims (snd nv)))).
  2:{ intros [name v] Hin; simpl fst; simpl snd.
      rewrite Hpn.
      rewrite (lookup_map_in _ _ (fun t => nonbatch_shape (shape t))
                 _ name v Hnd Hin); simpl bindE.
      rewrite Forall_forall in Hpar; destruct (Hpar _ Hin) as (_ & Hbv & Hr).
      simpl in Hbv, Hr.
      rewrite length_nonbatch_shape by assumption.
      destruct (param_shape v bs Hbv Hr) as (q1 & q2 & Hsv).
      change (neg_range 2) with [-2; -1]%Z.
      destruct (permute_batch_dims v bs q1 q2 dims Hsv Hperm) as [HPv _].
      rewrite HPv; reflexivity. }
  simpl bindE; fold tp'.
  unfold derive.
  rewrite (construct_aligned _ _ _ _ _ bs').
  - rewrite split_tensor_keywords, split_nontensor_keywords.
    unfold permuted_operator; fold bs; fold bs'; fold tp'.
    simpl pair_of; destruct (num_outputs_per_input K); reflexivity.
  - apply wf_build.
  - apply wf_build.
  - rewrite HS1; apply batch_shape_app2.
  - rewrite HS2; apply batch_shape_app2.
  - rewrite split_tensor_keywords.
    unfold tp'; apply Forall_map; eapply Forall_impl; [|exact Hpar].
    intros nv (_ & Hbv & Hr); simpl snd.
    split; [apply wf_build|].
    destruct (param_shape (snd nv) bs Hbv Hr) as (q1 & q2 & Hsv).
    destruct (permute_batch_dims (snd nv) bs q1 q2 dims Hsv Hperm)
      as [_ HSv].
    rewrite HSv; apply batch_shape_app2.
  - rewrite split_tensor_keywords.
    unfold tp'; rewrite map_map; simpl; assumption.
Qed.

(** [_permute_batch] with a permutation of the batch positions reorders the
    batch dimensions of the operator and of both point sets and leaves the
    last two alone: the batch shape and the size are the old ones with the
    batch dimensions read at the given positions, and the point at a batch
    index of the result is the point of the source at the index permuted
    back. *)
Theorem permute_batch_reorders_batch (K : KernelLinearOperator)
    (m d1 n d2 : nat) (dims : list nat) :
  stored_ok K ->
  shape (x1 K) = batch_broadcast_shape K ++ [m; d1] ->
  shape (x2 K) = batch_broadcast_shape K ++ [n; d2] ->
  Permutation dims (seq 0 (length (batch_broadcast_shape K))) ->
  let bs' := map (fun p => nth p (batch_broadcast_shape K) 0) dims in
  let back := fun bi => map (fun p => nth (index_of p dims) bi 0)
                            (seq 0 (length (batch_broadcast_shape K))) in
  exists K',
    _permute_batch K (map Z.of_nat dims) = inr K' /\
    batch_broadcast_shape K' = bs' /\
    shape (x1 K') = bs' ++ [m; d1] /\
    shape (x2 K') = bs' ++ [n; d2] /\
    (forall bi i k, in_range bs' bi -> i < m -> k < d1 ->
       get dflt (x1 K') (bi ++ [i; k])
       = get dflt (x1 K) (back bi ++ [i; k])) /\
    (forall bi j k, in_range bs' bi -> j < n -> k < d2 ->
       get dflt (x2 K') (bi ++ [j; k])
       = get dflt (x2 K) (back bi ++ [j; k])) /\
    map fst (tensor_params K') = map fst (tensor_params K) /\
    nontensor_params K' = nontensor_params K /\
    num_outputs_per_input K' = num_outputs_per_input K /\
    _size K'
    = inr (map Z.of_nat bs'
           ++ [(Z.of_nat m * fst (num_outputs_per_input K))%Z;
               (Z.of_nat n * snd (num_outputs_per_input K))%Z]).
Proof.
  intros Hok Hs1 Hs2 Hperm bs' back.
  exists (permuted_operator dims K).
  split; [apply (permute_batch_stored K m d1 n d2); assumption|].
  destruct (permute_batch_dims (x1 K) _ m d1 dims Hs1 Hperm) as [_ HS1].
  destruct (permute_batch_dims (x2 K) _ n d2 dims Hs2 Hperm) as [_ HS2].
  split; [reflexivity|].
  split; [exact HS1|]. split; [exact HS2|].
  split; [intros bi i k Hbi Hi Hk;
          apply (get_permuted_batch (x1 K) _ m d1); assumption|].
  split; [intros bi j k Hbi Hj Hk;
          apply (get_permuted_batch (x2 K) _ n d2); assumption|].
  split; [simpl; rewrite map_map; reflexivity|].
  split; [reflexivity|]. split; [reflexivity|].
  unfold _size.
  change (shape (x1 (permuted_operator dims K)))
    with (shape (permuted_batch dims (x1 K))).
  change (shape (x2 (permuted_operator dims K)))
    with (shape (permuted_batch dims (x2 K))).
  rewrite HS1, HS2, !dim_count_app2.
  simpl num_outputs_per_input; simpl batch_broadcast_shape.
  destruct (num_outputs_per_input K); reflexivity.
Qed.

(** Permuting with the positions in their own order changes nothing. *)
Lemma permuted_batch_id (t : tensor V) (bs : shape_t) (a b : nat) :
  wf t -> shape t = bs ++ [a; b] ->
  permuted_batch (seq 0 (length bs)) t = t.
Proof.
  intros Hwf Hs.
  assert (Hperm : Permutation (seq 0 (length bs)) (seq 0 (length bs)))
    by apply Permutation_refl.
  destruct (permute_batch_dims t bs a b _ Hs Hperm) as [_ HS].
  rewrite map_nth_seq in HS.
  transitivity (build (shape t) (get dflt t)); [|apply build_get; assumption].
  assert (Hb : permuted_batch (seq 0 (length bs)) t
               = build (shape (permuted_batch (seq 0 (length bs)) t))
                       (get dflt (permuted_batch (seq 0 (length bs)) t))).
  { symmetry; apply build_get; apply wf_build. }
  rewrite Hb, HS, Hs.
  apply build_ext; intros idx Hidx.
  destruct (in_range_app_inv _ _ _ Hidx) as (bi & i2 & -> & Hbi & Hi2).
  destruct i2 as [|i [|k [|? ?]]];
    try (apply in_range_length in Hi2; discriminate).
  apply in_range_cons in Hi2; destruct Hi2 as [Hi Hk].
  apply in_range_cons in Hk; destruct Hk as [Hk _].
  rewrite (get_permuted_batch t bs a b _ bi i k Hs Hperm);
    [|rewrite map_nth_seq; assumption|assumption|assumption].
  f_equal; f_equal.
  rewrite <- (in_range_length _ _ Hbi).
  transitivity (map (fun p => nth p bi 0) (seq 0 (length bi)));
    [|apply map_nth_seq].
  apply map_ext_in; intros p Hp; apply in_seq in Hp.
  rewrite index_of_seq by lia; f_equal; lia.
Qed.

(** [_permute_batch] with the batch positions in their own order returns
    the operator it was given. *)
Theorem permute_batch_identity (K : KernelLinearOperator) (m d1 n d2 : nat) :
  stored_ok K ->
  shape (x1 K) = batch_broadcast_shape K ++ [m; d1] ->
  shape (x2 K) = batch_broadcast_shape K ++ [n; d2] ->
  _permute_batch K
    (map Z.of_nat (seq 0 (length (batch_broadcast_shape K))))
  = inr K.
Proof.
  intros Hok Hs1 Hs2.
  pose proof Hok as (Hw1 & Hw2 & Hb1 & Hb2 & Hpar & Hnd & Hpb & Hpn).
  rewrite (permute_batch_stored K m d1 n d2) by
    (assumption || apply Permutation_refl).
  f_equal; unfold permuted_operator; cbv zeta.
  rewrite map_nth_seq.
  rewrite (permuted_batch_id (x1 K) _ m d1 Hw1 Hs1).
  rewrite (permuted_batch_id (x2 K) _ n d2 Hw2 Hs2).
  assert (Htp : map (fun nv => (fst nv,
                       permuted_batch
                         (seq 0 (length (batch_broadcast_shape K))) (snd nv)))
                    (tensor_params K) = tensor_params K).
  { rewrite <- (map_id (tensor_params K)) at 2.
    apply map_ext_in; intros [name v] Hin; simpl.
    rewrite Forall_forall in Hpar; destruct (Hpar _ Hin) as (Hwf & Hbv & Hr).
    simpl in Hwf, Hbv, Hr.
    destruct (param_shape v _ Hbv Hr) as (q1 & q2 & Hsv).
    rewrite (permuted_batch_id v _ q1 q2 Hwf Hsv); reflexivity. }
  rewrite Htp.
  destruct K; simpl in *; f_equal; symmetry; assumption.
Qed.

(** [_permute_batch] needs exactly one position for each batch dimension:
    with any other number of positions it raises. *)
Theorem permute_batch_wrong_arity (K : KernelLinearOperator) (dims : list Z) :
  length dims <> length (shape (x1 K)) - 2 ->
  2 <= length (shape (x1 K)) ->
  exists e, _permute_batch K dims = inl e.
Proof.
  intros Hlen Hr; unfold _permute_batch.
  assert (H : exists e, permute dflt (x1 K) (dims ++ [-2; -1]%Z) = inl e).
  { unfold permute.
    destruct (mapE _ (dims ++ [-2; -1]%Z)) as [e|ps] eqn:Hm;
      [exists e; reflexivity|].
    apply mapE_length in Hm; rewrite length_app in Hm; simpl in Hm.
    simpl bindE; unfold is_permutation.
    replace (length ps =? length (shape (x1 K))) with false
      by (symmetry; apply Nat.eqb_neq; lia).
    eexists; reflexivity. }
  destruct H as [e He]; rewrite He; exists e; reflexivity.
Qed.

End PermuteBatch.

(** ** More batch indices than batch dimensions *)

Lemma expandable_rev_prefix (s tl : list nat) :
  expandable_rev s (s ++ tl) = true.
Proof.
  induction s as [|x s IH]; simpl; auto.
  rewrite Nat.eqb_refl; simpl; assumption.
Qed.

Lemma expandable_more_dims (pre s : shape_t) :
  expandable s (pre ++ s) = true.
Proof.
  unfold expandable; rewrite rev_app_distr; apply expandable_rev_prefix.
Qed.

Lemma align_rev_prefix (s idx tl : list nat) :
  Forall2 lt idx s -> align_rev s (idx ++ tl) = idx.
Proof.
  induction 1 as [|i x idx s Hi _ IH]; simpl.
  - destruct tl; reflexivity.
  - rewrite IH; destruct (Nat.eqb_spec x 1); [f_equal; lia | reflexivity].
Qed.

Lemma align_more_dims (s : shape_t) (pre idx : list nat) :
  in_range s idx -> align s (pre ++ idx) = idx.
Proof.
  unfold in_range, align; intros H.
  rewrite rev_app_distr.
  rewrite align_rev_prefix by (apply Forall2_lt_rev; assumption).
  apply rev_involutive.
Qed.

Section ExtraBatchSlices.

Context {E : Env}.

Lemma filter_noops (k : nat) (tl : list index) :
  filter (fun i => negb (is_ellipsis i)) (repeat _noop_index k ++ tl)
  = repeat _noop_index k ++ filter (fun i => negb (is_ellipsis i)) tl.
Proof. induction k as [|k IH]; simpl; [reflexivity | rewrite IH; reflexivity]. Qed.

Lemma existsb_noops (k : nat) :
  existsb (fun bi => negb (is_slice bi)) (repeat _noop_index k) = false.
Proof. induction k as [|k IH]; simpl; auto. Qed.

(** The tensor the fallback of [_getitem] indexes: the point set seen with
    [k] batch dimensions of size 1 in front. *)
Lemma fallback_point_set (x : tensor V) (m d k a b : nat) (ix : index) :
  shape x = [m; d] -> 0 < k -> is_ellipsis ix = false ->
  a <= b -> b <= m ->
  forall h : heap,
  index_point_set x (repeat _noop_index k) ix (slice_of a b) _noop_index h
  = (inr (row_slice k a b
            (build (repeat 1 k ++ [m; d])
                   (fun idx => get dflt x (align [m; d] idx)))), h).
Proof.
  intros Hs Hk Hix Hab Hbm h; unfold index_point_set, tensor_getitem at 1.
  assert (Hf : filter (fun i => negb (is_ellipsis i)) [ix; _noop_index]
               = [ix; _noop_index])
    by (simpl; rewrite Hix; reflexivity).
  rewrite filter_noops, Hf, Hs, length_app, !repeat_length.
  change (length [m; d]) with 2; change (length [ix; _noop_index]) with 2.
  replace (2 <? k + 2) with true by (symmetry; apply Nat.ltb_lt; lia).
  cbv iota; rewrite existsb_noops.
  change (nonbatch_shape [m; d]) with [m; d].
  unfold expand; rewrite Hs, expandable_more_dims; unfold lift, bindE.
  pose proof (getitem_row_slice
                (build (repeat 1 k ++ [m; d])
                       (fun idx => get dflt x (align [m; d] idx)))
                (repeat 1 k) m d a b eq_refl Hab Hbm) as Hg.
  rewrite repeat_length in Hg; rewrite Hg; reflexivity.
Qed.

Lemma get_fallback_point_set (x : tensor V) (m d k a b i q : nat) :
  shape x = [m; d] -> a <= b -> b <= m -> i < b - a -> q < d ->
  get dflt (row_slice k a b
              (build (repeat 1 k ++ [m; d])
                     (fun idx => get dflt x (align [m; d] idx))))
      (repeat 0 k ++ [i; q])
  = get dflt x [a + i; q].
Proof.
  intros Hs Hab Hbm Hi Hq.
  assert (Hr : in_range (repeat 1 k) (repeat 0 k)).
  { induction k as [|k IH]; simpl; [constructor|].
    apply in_range_cons; split; [lia | assumption]. }
  pose proof (get_row_slice
                (build (repeat 1 k ++ [m; d])
                       (fun idx => get dflt x (align [m; d] idx)))
                (repeat 1 k) m d a b (repeat 0 k) i q eq_refl Hr Hi Hq)
    as Hg.
  rewrite repeat_length in Hg; rewrite Hg.
  assert (Hin : in_range [m; d] [a + i; q]).
  { apply in_range_cons; split; [lia|].
    apply in_range_cons; split; [assumption | constructor]. }
  rewrite get_build by (apply in_range_app; assumption).
  rewrite align_more_dims by assumption; reflexivity.
Qed.

(** On an operator without batch dimensions and without tensor parameters,
    [k] full slices in front of a row slice [a:b] take the fallback of
    [_getitem]: both point sets get [k] batch dimensions of size 1, and the
    column point set is indexed with the row slice, whatever the column
    index is.  The result has [b - a] rows and [b - a] columns and holds the
    points [a..b-1] of both sets; the covariance function is not called. *)
Theorem getitem_extra_batch_slices (K : KernelLinearOperator)
    (m d1 n d2 k a b : nat) (col : index) (h : heap) :
  shape (x1 K) = [m; d1] ->
  shape (x2 K) = [n; d2] ->
  tensor_params K = [] ->
  num_outputs_per_input K = (1, 1)%Z ->
  0 < k -> is_ellipsis col = false ->
  a <= b -> b <= m -> b <= n ->
  exists K',
    _getitem K (slice_of a b) col (repeat _noop_index k) h
    = (inr (RKernel K'), h) /\
    batch_broadcast_shape K' = repeat 1 k /\
    _size K' = inr (map Z.of_nat (repeat 1 k)
                    ++ [Z.of_nat (b - a); Z.of_nat (b - a)]) /\
    (forall i q, i < b - a -> q < d1 ->
       get dflt (x1 K') (repeat 0 k ++ [i; q]) = get dflt (x1 K) [a + i; q]) /\
    (forall j q, j < b - a -> q < d2 ->
       get dflt (x2 K') (repeat 0 k ++ [j; q]) = get dflt (x2 K) [a + j; q]).
Proof.
  intros Hs1 Hs2 Htp Hn Hk Hcol Hab Hbm Hbn.
  set (y1 := row_slice k a b
               (build (repeat 1 k ++ [m; d1])
                      (fun idx => get dflt (x1 K) (align [m; d1] idx)))).
  set (y2 := row_slice k a b
               (build (repeat 1 k ++ [n; d2])
                      (fun idx => get dflt (x2 K) (align [n; d2] idx)))).
  assert (Hy1 : shape y1 = repeat 1 k ++ [b - a; d1]).
  { pose proof (shape_row_slice
                  (build (repeat 1 k ++ [m; d1])
                         (fun idx => get dflt (x1 K) (align [m; d1] idx)))
                  (repeat 1 k) m d1 a b eq_refl) as H.
    rewrite repeat_length in H; exact H. }
  assert (Hy2 : shape y2 = repeat 1 k ++ [b - a; d2]).
  { pose proof (shape_row_slice
                  (build (repeat 1 k ++ [n; d2])
                         (fun idx => get dflt (x2 K) (align [n; d2] idx)))
                  (repeat 1 k) n d2 a b eq_refl) as H.
    rewrite repeat_length in H; exact H. }
  exists {| batch_broadcast_shape := repeat 1 k;
            x1 := y1;
            x2 := y2;
            tensor_params := [];
            nontensor_params := nontensor_params K;
            covar_func := covar_func K;
            num_outputs_per_input := (1, 1)%Z;
            param_batch_shapes := [];
            param_nonbatch_shapes := [] |}.
  split.
  - unfold _getitem; rewrite Hn.
    change (negb (1 =? 1)%Z || negb (1 =? 1)%Z) with false; cbv iota.
    unfold getitem_points; cbv zeta.
    rewrite (bind_ok _ _ _ _ h h y1)
      by (apply (fallback_point_set (x1 K) m d1 k a b); auto).
    rewrite (bind_ok _ _ _ _ h h y2)
      by (apply (fallback_point_set (x2 K) n d2 k a b); auto).
    rewrite Htp; simpl mapE.
    rewrite (bind_ok _ _ _ _ h h []) by reflexivity.
    unfold derive; rewrite Hn.
    rewrite (construct_aligned _ _ _ _ _ (repeat 1 k)).
    + rewrite split_tensor_keywords, split_nontensor_keywords; reflexivity.
    + apply wf_build.
    + apply wf_build.
    + rewrite Hy1; apply batch_shape_app2.
    + rewrite Hy2; apply batch_shape_app2.
    + rewrite split_tensor_keywords; constructor.
    + rewrite split_tensor_keywords; constructor.
  - split; [reflexivity|].
    split.
    + unfold _size; simpl num_outputs_per_input; cbv iota.
      simpl x1; simpl x2; rewrite Hy1, Hy2, !dim_count_app2.
      simpl batch_broadcast_shape; rewrite !Z.mul_1_r; reflexivity.
    + split; intros i q Hi Hq; simpl x1; simpl x2.
      * apply (get_fallback_point_set (x1 K) m d1); assumption.
      * apply (get_fallback_point_set (x2 K) n d2); assumption.
Qed.

(** With a tensor parameter the same index raises IndexError: the point
    sets are expanded by the fallback, the parameters are not. *)
Theorem getitem_extra_batch_slices_params (K : KernelLinearOperator)
    (m d1 n d2 k a b : nat) (col : index) (h : heap) :
  stored_ok K ->
  shape (x1 K) = [m; d1] ->
  shape (x2 K) = [n; d2] ->
  tensor_params K <> [] ->
  num_outputs_per_input K = (1, 1)%Z ->
  0 < k -> is_ellipsis col = false ->
  a <= b -> b <= m -> b <= n ->
  _getitem K (slice_of a b) col (repeat _noop_index k) h
  = (inl IndexError, h).
Proof.
  intros Hok Hs1 Hs2 Htp Hn Hk Hcol Hab Hbm Hbn.
  pose proof Hok as (Hw1 & Hw2 & Hb1 & Hb2 & Hp & Hnd & Hpb & Hpn).
  unfold _getitem; rewrite Hn.
  change (negb (1 =? 1)%Z || negb (1 =? 1)%Z) with false; cbv iota.
  unfold getitem_points; cbv zeta.
  rewrite (bind_ok _ _ _ _ h h _
             (fallback_point_set (x1 K) m d1 k a b (slice_of a b) Hs1 Hk eq_refl
                                 Hab Hbm h)).
  rewrite (bind_ok _ _ _ _ h h _
             (fallback_point_set (x2 K) n d2 k a b col Hs2 Hk Hcol
                                 Hab Hbn h)).
  rewrite Hpn.
  destruct (tensor_params K) as [|[name v] tp] eqn:Htps; [congruence|].
  inversion Hp as [|? ? (Hwf & Hbv & Hr) _]; subst; simpl in Hbv, Hr.
  apply bind_fail; unfold lift; f_equal.
  cbn [mapE map fst snd lookup]; rewrite String.eqb_refl; simpl bindE.
  rewrite length_nonbatch_shape by assumption.
  unfold tensor_getitem.
  assert (Hrk : length (shape v) = 2).
  { rewrite <- (batch_nonbatch (shape v)), length_app, Hbv.
    rewrite length_nonbatch_shape by assumption.
    rewrite <- Hb1, Hs1; reflexivity. }
  rewrite <- repeat_app.
  assert (Hf : filter (fun i => negb (is_ellipsis i))
                      (repeat _noop_index (k + 2))
               = repeat _noop_index (k + 2)).
  { generalize (k + 2); intros j; induction j as [|j IH]; simpl;
      [reflexivity | rewrite IH; reflexivity]. }
  rewrite Hf, repeat_length, Hrk.
  replace (2 <? k + 2) with true by (symmetry; apply Nat.ltb_lt; lia).
  reflexivity.
Qed.

End ExtraBatchSlices.

(** ** The further properties at the example inputs *)

Lemma batched_stored_ok (f : @covar_fn Z_env) (rc : Z * Z) :
  stored_ok (batched_operator f rc).
Proof.
  unfold stored_ok; simpl.
  repeat split; try reflexivity; repeat constructor; simpl; tauto.
Defined.

Lemma scaled_stored_ok (f : @covar_fn Z_env) (rc : Z * Z) :
  stored_ok (scaled_operator f rc).
Proof.
  unfold stored_ok; simpl.
  repeat split; try reflexivity; repeat constructor; simpl; tauto.
Defined.

Lemma getitem_unit_leaves_cache_witness :
  let K := example_operator rows5 cols4 (pairwise_covar linear_kernel)
             (1, 1)%Z in
  snd (_getitem K (slice_of 1 3) (nat_index 2) [] empty_heap) = empty_heap.
Proof.
  intros K.
  apply (@getitem_unit_leaves_cache Z_env K (slice_of 1 3) (nat_index 2) []
           empty_heap).
  reflexivity.
Defined.

Lemma multi_output_getitem_never_kernel_witness :
  let K := example_operator rows3 cols4 (block_covar 2 1 two_row_kernel)
             (2, 1)%Z in
  _getitem K (slice_of 0 2) _noop_index [] empty_heap
  <> (inr (RKernel K), empty_heap).
Proof.
  intros K.
  apply (@multi_output_getitem_never_kernel Z_env K K (slice_of 0 2)
           _noop_index [] empty_heap empty_heap).
  left; simpl; lia.
Defined.

Lemma multi_output_plain_tensor_type_error_witness :
  let K := example_operator rows3 cols4 (block_covar 2 1 two_row_kernel)
             (2, 1)%Z in
  exists m,
    _getitem K (slice_of 0 2) _noop_index [] empty_heap
    = (inl (TypeError m), snd (covar_mat K empty_heap)).
Proof.
  intros K.
  eapply (@multi_output_plain_tensor_type_error Z_env K (slice_of 0 2)
            _noop_index []).
  - left; simpl; lia.
  - reflexivity.
  - reflexivity.
Defined.

Lemma cached_dense_matrix_is_reused_witness :
  let K := example_operator rows5 cols4 (pairwise_covar linear_kernel)
             (1, 1)%Z in
  let rhs := Tensor [4; 1] [1; 1; 1; 1]%Z in
  let h := snd (covar_mat K empty_heap) in
  exists cm,
    covar_mat K h = (inr cm, h) /\
    _matmul dense_matmul K rhs h = (dense_matmul cm rhs, h) /\
    snd (_getitem K (slice_of 1 3) _noop_index [] h) = h.
Proof.
  intros K rhs h; eexists.
  apply (@cached_dense_matrix_is_reused Z_env dense_matmul K _ rhs
           (slice_of 1 3) _noop_index [] h).
  reflexivity.
Defined.

Lemma matmul_materializes_once_witness :
  let K := example_operator rows5 cols4 (pairwise_covar linear_kernel)
             (1, 1)%Z in
  let rhs := Tensor [4; 1] [1; 1; 1; 1]%Z in
  exists cm,
    covar_func K (x1 K) (x2 K) (tensor_params K) (nontensor_params K)
    = inr cm /\
    _matmul dense_matmul K rhs empty_heap
    = (inr (Tensor [5; 1] [2; 8; 10; 12; -2]%Z),
       set_covar_mat cm (bump empty_heap)) /\
    forall rhs',
      _matmul dense_matmul K rhs' (set_covar_mat cm (bump empty_heap))
      = (dense_matmul cm rhs', set_covar_mat cm (bump empty_heap)).
Proof.
  intros K rhs; eexists; split; [reflexivity|].
  exact (@matmul_materializes_once Z_env dense_matmul K rhs empty_heap
           eq_refl).
Defined.

Lemma construct_stores_aligned_inputs_witness :
  construct batch_rows batch_cols (pairwise_covar linear_kernel) (OInt 1)
            [("outputscale"%string, @PTensor Z_env batch_scale)]
  = inr (batched_operator (pairwise_covar linear_kernel) (1, 1)%Z).
Proof.
  apply (@construct_stores_aligned_inputs Z_env batch_rows batch_cols
           (pairwise_covar linear_kernel) (OInt 1)
           [("outputscale"%string, @PTensor Z_env batch_scale)] [2; 1]).
  - reflexivity.
  - reflexivity.
  - reflexivity.
  - reflexivity.
  - repeat constructor.
  - repeat constructor; simpl; tauto.
Defined.

Lemma getitem_full_slices_witness :
  let K := batched_operator (pairwise_covar linear_kernel) (1, 1)%Z in
  _getitem K _noop_index _noop_index [_noop_index; _noop_index] empty_heap
  = (inr (RKernel K), empty_heap).
Proof.
  intros K.
  apply (@getitem_full_slices Z_env K 3 1 2 1 2 empty_heap).
  - apply batched_stored_ok.
  - reflexivity.
  - reflexivity.
  - reflexivity.
  - simpl; lia.
Defined.

Lemma getitem_row_col_slices_witness :
  let K := batched_operator (pairwise_covar linear_kernel) (1, 1)%Z in
  let K' := with_points K (row_slice 2 1 3 (x1 K)) (row_slice 2 0 1 (x2 K)) in
  _getitem K (slice_of 1 3) (slice_of 0 1) [_noop_index; _noop_index]
           empty_heap
  = (inr (RKernel K'), empty_heap) /\
  _size K' = inr [2; 1; 2; 1]%Z.
Proof.
  intros K K'.
  apply (@getitem_row_col_slices Z_env K 3 1 2 1 1 3 0 1 empty_heap).
  - apply batched_stored_ok.
  - reflexivity.
  - reflexivity.
  - reflexivity.
  - lia.
  - lia.
  - lia.
  - lia.
Defined.

Lemma sliced_operator_dense_block_witness :
  let K := batched_operator (pairwise_covar linear_kernel) (1, 1)%Z in
  exists K' D D',
    _getitem K (slice_of 1 3) (slice_of 0 1) [_noop_index; _noop_index]
             empty_heap
    = (inr (RKernel K'), empty_heap) /\
    (forall h0, covar_mat_cache h0 = None ->
       covar_mat K h0
       = (inr (OutTensor D), set_covar_mat (OutTensor D) (bump h0))) /\
    (forall h0, covar_mat_cache h0 = None ->
       covar_mat K' h0
       = (inr (OutTensor D'), set_covar_mat (OutTensor D') (bump h0))) /\
    shape D = [2; 1; 3; 2] /\
    shape D' = [2; 1; 2; 1] /\
    forall bi i j,
      in_range [2; 1] bi -> i < 2 -> j < 1 ->
      get 0%Z D' (bi ++ [i; j]) = get 0%Z D (bi ++ [1 + i; 0 + j]).
Proof.
  intros K.
  apply (@sliced_operator_dense_block Z_env K linear_kernel 3 1 2 1 1 3 0 1
           empty_heap).
  - apply batched_stored_ok.
  - reflexivity.
  - reflexivity.
  - reflexivity.
  - intros a1 a2 tp ntp; reflexivity.
  - lia.
  - lia.
  - lia.
  - lia.
Defined.

Lemma get_indices_matches_dense_witness :
  let K := batched_operator (pairwise_covar linear_kernel) (1, 1)%Z in
  exists D,
    covar_func K (x1 K) (x2 K) (tensor_params K) (nontensor_params K)
    = inr (OutTensor D) /\
    _get_indices K (nat_index 2) (nat_index 1) [nat_index 1; nat_index 0]
                 empty_heap
    = (inr (Tensor [] [get 0%Z D [1; 0; 2; 1]]), bump empty_heap).
Proof.
  intros K.
  apply (@get_indices_matches_dense Z_env K linear_kernel [1; 0] 2 1 3 1 2 1
           empty_heap).
  - apply batched_stored_ok.
  - reflexivity.
  - reflexivity.
  - intros a1 a2 tp ntp; reflexivity.
  - repeat constructor.
  - lia.
  - lia.
Defined.

Lemma unsqueeze_batch_inserts_dimension_witness :
  let K := batched_operator (pairwise_covar linear_kernel) (1, 1)%Z in
  exists K',
    _unsqueeze_batch K 1 = inr K' /\
    batch_broadcast_shape K' = [2; 1; 1] /\
    shape (x1 K') = [2; 1; 1; 3; 1] /\
    shape (x2 K') = [2; 1; 1; 2; 1] /\
    data (x1 K') = data (x1 K) /\
    data (x2 K') = data (x2 K) /\
    map (fun nv => (fst nv, data (snd nv))) (tensor_params K')
    = map (fun nv => (fst nv, data (snd nv))) (tensor_params K) /\
    Forall2 (fun nv nv' =>
               fst nv' = fst nv /\
               shape (snd nv') = [2; 1; 1] ++ nonbatch_shape (shape (snd nv)))
            (tensor_params K) (tensor_params K') /\
    nontensor_params K' = nontensor_params K /\
    num_outputs_per_input K' = num_outputs_per_input K /\
    _size K' = inr [2; 1; 1; 3; 2]%Z.
Proof.
  intros K.
  apply (@unsqueeze_batch_inserts_dimension Z_env K 3 1 2 1 1).
  - apply batched_stored_ok.
  - reflexivity.
  - reflexivity.
  - simpl; lia.
Defined.

Lemma transpose_unsqueeze_commute_witness :
  let K := batched_operator (pairwise_covar linear_kernel) (1, 1)%Z in
  exists K1 K2 K3,
    _unsqueeze_batch K 0 = inr K1 /\
    _transpose_nonbatch K1 = inr K2 /\
    _transpose_nonbatch K = inr K3 /\
    _unsqueeze_batch K3 0 = inr K2.
Proof.
  intros K.
  apply (@transpose_unsqueeze_commute Z_env K 3 1 2 1 0).
  - apply batched_stored_ok.
  - reflexivity.
  - reflexivity.
  - simpl; lia.
Defined.

Lemma permute_batch_reorders_batch_witness :
  let K := batched_operator (pairwise_covar linear_kernel) (1, 1)%Z in
  let back := fun bi => [nth 1 bi 0; nth 0 bi 0] in
  exists K',
    _permute_batch K [1; 0]%Z = inr K' /\
    batch_broadcast_shape K' = [1; 2] /\
    shape (x1 K') = [1; 2; 3; 1] /\
    shape (x2 K') = [1; 2; 2; 1] /\
    (forall bi i k, in_range [1; 2] bi -> i < 3 -> k < 1 ->
       get 0%Z (x1 K') (bi ++ [i; k]) = get 0%Z (x1 K) (back bi ++ [i; k])) /\
    (forall bi j k, in_range [1; 2] bi -> j < 2 -> k < 1 ->
       get 0%Z (x2 K') (bi ++ [j; k]) = get 0%Z (x2 K) (back bi ++ [j; k])) /\
    map fst (tensor_params K') = map fst (tensor_params K) /\
    nontensor_params K' = nontensor_params K /\
    num_outputs_per_input K' = num_outputs_per_input K /\
    _size K' = inr [1; 2; 3; 2]%Z.
Proof.
  intros K back.
  apply (@permute_batch_reorders_batch Z_env K 3 1 2 1 [1; 0]).
  - apply batched_stored_ok.
  - reflexivity.
  - reflexivity.
  - simpl; apply perm_swap.
Defined.

Lemma permute_batch_identity_witness :
  let K := batched_operator (pairwise_covar linear_kernel) (1, 1)%Z in
  _permute_batch K [0; 1]%Z = inr K.
Proof.
  intros K.
  apply (@permute_batch_identity Z_env K 3 1 2 1).
  - apply batched_stored_ok.
  - reflexivity.
  - reflexivity.
Defined.

Lemma permute_batch_wrong_arity_witness :
  let K := batched_operator (pairwise_covar linear_kernel) (1, 1)%Z in
  exists e, _permute_batch K [0]%Z = inl e.
Proof.
  intros K.
  apply (@permute_batch_wrong_arity Z_env K [0]%Z).
  - simpl; lia.
  - simpl; lia.
Defined.

Lemma getitem_extra_batch_slices_witness :
  let K := example_operator rows5 cols4 (pairwise_covar linear_kernel)
             (1, 1)%Z in
  exists K',
    _getitem K (slice_of 1 3) (slice_of 0 4) [_noop_index] empty_heap
    = (inr (RKernel K'), empty_heap) /\
    batch_broadcast_shape K' = [1] /\
    _size K' = inr [1; 2; 2]%Z /\
    (forall i q, i < 2 -> q < 2 ->
       get 0%Z (x1 K') ([0] ++ [i; q]) = get 0%Z (x1 K) [1 + i; q]) /\
    (forall j q, j < 2 -> q < 2 ->
       get 0%Z (x2 K') ([0] ++ [j; q]) = get 0%Z (x2 K) [1 + j; q]).
Proof.
  intros K.
  apply (@getitem_extra_batch_slices Z_env K 5 2 4 2 1 1 3 (slice_of 0 4)
           empty_heap).
  - reflexivity.
  - reflexivity.
  - reflexivity.
  - reflexivity.
  - lia.
  - reflexivity.
  - lia.
  - lia.
  - lia.
Defined.

Lemma getitem_extra_batch_slices_params_witness :
  let K := scaled_operator (pairwise_covar linear_kernel) (1, 1)%Z in
  _getitem K (slice_of 1 3) (slice_of 0 4) [_noop_index] empty_heap
  = (inl IndexError, empty_heap).
Proof.
  intros K.
  apply (@getitem_extra_batch_slices_params Z_env K 5 2 4 2 1 1 3
           (slice_of 0 4) empty_heap).
  - apply scaled_stored_ok.
  - reflexivity.
  - reflexivity.
  - simpl; discriminate.
  - reflexivity.
  - lia.
  - reflexivity.
  - lia.
  - lia.
  - lia.
Defined.
